(** * The parallel copy engine of hatcher (package autocopy)

    A shallow embedding of [internal/autocopy]'s parallel copier: task
    discovery, the worker pool, the progress and error channels and the
    coordinator [ParallelCopier.Run], together with the file copy routines
    of the parallel and of the legacy sequential copier, the validation
    of the configuration and the update of [.gitignore].

    Go values are modelled as follows.
    - [int] and [int64] are [Z] with two's-complement wrap-around
      ([wrap64]) written at every addition.
    - [error] is the inductive [error]; [nil] is [None].
    - a buffered channel is the record [chan]: its queued elements, its
      capacity and whether it was closed.
    - goroutines are program counters; one scheduler action runs one
      goroutine up to its next communication.
    - the file system is a finite map from path names to nodes. *)

From Stdlib Require Import ZArith Lia List Bool QArith.
From Stdlib.Strings Require Byte Ascii.
From Stdlib Require DecimalString.
From stdpp Require Import base numbers list strings gmap.

Local Open Scope string_scope.
Local Open Scope list_scope.
Local Open Scope Z_scope.

(** ** Machine integers *)

(** Two's-complement wrap of a 64-bit signed integer ([int64], and [int]
    on the 64-bit platforms the tool is built for). *)
Definition wrap64 (x : Z) : Z := (x + 2 ^ 63) mod 2 ^ 64 - 2 ^ 63.

Definition int64_add (x y : Z) : Z := wrap64 (x + y).

Definition in_int64 (x : Z) : Prop := - 2 ^ 63 <= x < 2 ^ 63.

(** Go's [%] truncates towards zero, as [Z.rem] does. *)
Definition go_rem (x y : Z) : Z := Z.rem x y.

(** ** Errors *)

(** [PathError] is an error of the [os] package; [notExist] is what
    [os.IsNotExist] answers for it.  [ErrorString] is [fmt.Errorf] without
    [%w] (or [errors.New]); [WrapError] is [fmt.Errorf] with one [%w]. *)
Inductive error : Type :=
| PathError (op path : string) (notExist : bool)
| ErrorString (msg : string)
| WrapError (msg : string) (cause : error).

(** [os.IsNotExist] does not unwrap. *)
Definition os_IsNotExist (e : error) : bool :=
  match e with
  | PathError _ _ b => b
  | _ => false
  end.

Inductive res (A : Type) : Type :=
| Ok (a : A)
| Err (e : error).
Arguments Ok {A} a.
Arguments Err {A} e.

(** ** Channels *)

Record chan (A : Type) : Type := MkChan {
  buf : list A;
  cap : nat;
  closed : bool
}.
Arguments MkChan {A} buf cap closed.
Arguments buf {A} c.
Arguments cap {A} c.
Arguments closed {A} c.

(** [make(chan A, n)] *)
Definition make_chan {A} (n : nat) : chan A := MkChan [] n false.

Definition chan_full {A} (c : chan A) : bool := (cap c <=? length (buf c))%nat.

Definition chan_push {A} (x : A) (c : chan A) : chan A :=
  MkChan (buf c ++ [x]) (cap c) (closed c).

(** [select { case c <- x: default: }]: the element is queued when the
    buffer has room and silently discarded otherwise.  The boolean tells
    whether it was queued. *)
Definition try_send {A} (x : A) (c : chan A) : chan A * bool :=
  (if chan_full c then c else chan_push x c, negb (chan_full c)).

(** [c <- x]: blocks (here: is not enabled) while the buffer is full. *)
Definition send {A} (x : A) (c : chan A) : option (chan A) :=
  if chan_full c then None else Some (chan_push x c).

Definition close_chan {A} (c : chan A) : chan A := MkChan (buf c) (cap c) true.

(** One iteration of [for x := range c]. *)
Inductive recv_result (A : Type) : Type :=
| Received (x : A) (c : chan A)
| Drained
| WouldBlock.
Arguments Received {A} x c.
Arguments Drained {A}.
Arguments WouldBlock {A}.

Definition recv {A} (c : chan A) : recv_result A :=
  match buf c with
  | x :: rest => Received x (MkChan rest (cap c) (closed c))
  | [] => if closed c then Drained else WouldBlock
  end.

(** ** Bytes and digests *)

Abbreviation byte := Byte.byte.

(** The loop of [equalBytes] once the lengths are known to agree:
    [for i := range a { if a[i] != b[i] { return false } }]. *)
Fixpoint equalBytes_loop (a b : list byte) : bool :=
  match a, b with
  | x :: a', y :: b' => if Byte.eqb x y then equalBytes_loop a' b' else false
  | _, _ => true
  end.

(** [equalBytes] (parallel copier). *)
Definition equalBytes (a b : list byte) : bool :=
  if negb (length a =? length b)%nat then false else equalBytes_loop a b.

(** The [hash.Hash] interface: a running state, [Write] (which never
    fails) and [Sum(nil)]. *)
Record Hash : Type := MkHash {
  hstate : Type;
  h_new : hstate;
  h_write : hstate -> list byte -> hstate;
  h_sum : hstate -> list byte
}.

(** The digest a hasher reports after the given successive writes. *)
Definition digest (h : Hash) (writes : list (list byte)) : list byte :=
  h_sum h (fold_left (h_write h) writes (h_new h)).

(** ** The file system *)

Inductive node : Type :=
| FileNode (mode : Z) (data : list byte)
| DirNode (mode : Z).

(** [refuses op path] tells that the kernel fails operation [op] on
    [path] (permissions, I/O errors).  Directory entries of intermediate
    path components are not tracked: the map is flat. *)
Record World : Type := MkWorld {
  files : gmap string node;
  umask : Z;
  refuses : string -> string -> bool
}.

Definition set_files (f : gmap string node) (w : World) : World :=
  MkWorld f (umask w) (refuses w).

Record FileInfo : Type := MkFileInfo {
  fi_IsDir : bool;
  fi_Size : Z;
  fi_Mode : Z
}.

(** [os.Stat] *)
Definition os_Stat (w : World) (path : string) : res FileInfo :=
  if refuses w "stat" path then Err (PathError "stat" path false)
  else match files w !! path with
       | None => Err (PathError "stat" path true)
       | Some (FileNode m d) => Ok (MkFileInfo false (Z.of_nat (length d)) m)
       | Some (DirNode m) => Ok (MkFileInfo true 4096 m)
       end.

(** [os.Mkdir]: makes one directory, with the mode [perm] less the
    umask, where there is no entry yet. *)
Definition os_Mkdir (path : string) (perm : Z) (w : World) : World * option error :=
  if refuses w "mkdir" path then (w, Some (PathError "mkdir" path false))
  else match files w !! path with
       | Some _ => (w, Some (PathError "mkdir" path false))
       | None =>
           (set_files (<[path := DirNode (Z.land perm (Z.lnot (umask w)))]> (files w)) w, None)
       end.

(** An open file: its name and, for reading, the bytes it held when it
    was opened ([None] for a directory). *)
Record OsFile : Type := MkOsFile {
  of_path : string;
  of_data : option (list byte)
}.

(** [os.Open] *)
Definition os_Open (path : string) (w : World) : res OsFile :=
  if refuses w "open" path then Err (PathError "open" path false)
  else match files w !! path with
       | None => Err (PathError "open" path true)
       | Some (FileNode _ d) => Ok (MkOsFile path (Some d))
       | Some (DirNode _) => Ok (MkOsFile path None)
       end.

(** [os.Create]: truncates an existing file (keeping its mode) or creates
    one with mode [0666] less the umask. *)
Definition os_Create (path : string) (w : World) : World * res OsFile :=
  if refuses w "create" path then (w, Err (PathError "open" path false))
  else match files w !! path with
       | Some (DirNode _) => (w, Err (PathError "open" path false))
       | Some (FileNode m _) =>
           (set_files (<[path := FileNode m []]> (files w)) w, Ok (MkOsFile path None))
       | None =>
           (set_files (<[path := FileNode (Z.land 438 (Z.lnot (umask w))) []]> (files w)) w,
            Ok (MkOsFile path None))
       end.

(** [os.Chmod] *)
Definition os_Chmod (path : string) (mode : Z) (w : World) : World * option error :=
  if refuses w "chmod" path then (w, Some (PathError "chmod" path false))
  else match files w !! path with
       | None => (w, Some (PathError "chmod" path true))
       | Some (FileNode _ d) => (set_files (<[path := FileNode mode d]> (files w)) w, None)
       | Some (DirNode _) => (set_files (<[path := DirNode mode]> (files w)) w, None)
       end.

(** ** Readers and writers *)

(** What one [Read] call returns; the end of a reader's script is
    [io.EOF]. *)
Inductive read_event : Type :=
| Data (p : list byte)
| ReadFail (e : error).

(** An [io.Reader] over a state [S]: the successive [Read] calls still to
    come, each with its effect on the state. *)
Definition reader (S : Type) : Type := list (S -> S * read_event).

(** An [io.Writer] over a state [S]. *)
Definition writer (S : Type) : Type := list byte -> S -> S * option error.

Fixpoint chunks_aux {A} (fuel n : nat) (l : list A) : list (list A) :=
  match fuel with
  | O => []
  | S fuel' =>
      match l with
      | [] => []
      | _ => take n l :: chunks_aux fuel' n (drop n l)
      end
  end.

(** The pieces a file of content [l] is read in through a buffer of [n]
    bytes. *)
Definition chunks {A} (n : nat) (l : list A) : list (list A) :=
  chunks_aux (length l) n l.

(** [Read] of an [os.File] through a buffer of [bufsize] bytes. *)
Definition file_reader (bufsize : nat) (f : OsFile) : reader World :=
  match of_data f with
  | None => [fun w => (w, ReadFail (PathError "read" (of_path f) false))]
  | Some d =>
      map (fun p w => if refuses w "read" (of_path f)
                      then (w, ReadFail (PathError "read" (of_path f) false))
                      else (w, Data p))
          (chunks bufsize d)
  end.

(** [Write] of an [os.File]: appends to the file. *)
Definition file_writer (f : OsFile) : writer World :=
  fun p w =>
    if refuses w "write" (of_path f) then (w, Some (PathError "write" (of_path f) false))
    else match files w !! of_path f with
         | Some (FileNode m d) => (set_files (<[of_path f := FileNode m (d ++ p)]> (files w)) w, None)
         | _ => (w, Some (PathError "write" (of_path f) false))
         end.

(** [io.TeeReader] *)
Definition io_TeeReader {S} (r : reader S) (w : writer S) : reader S :=
  map (fun rd s =>
         let '(s1, ev) := rd s in
         match ev with
         | Data p =>
             let '(s2, e) := w p s1 in
             match e with
             | Some err => (s2, ReadFail err)
             | None => (s2, Data p)
             end
         | ReadFail e => (s1, ReadFail e)
         end) r.

(** [io.MultiWriter] of two writers. *)
Definition io_MultiWriter {S} (w1 w2 : writer S) : writer S :=
  fun p s =>
    let '(s1, e1) := w1 p s in
    match e1 with
    | Some e => (s1, Some e)
    | None => w2 p s1
    end.

(** [io.CopyBuffer] (and [io.Copy]): read until EOF or the first error,
    writing each piece read. *)
Fixpoint io_CopyBuffer {S} (dst : writer S) (src : reader S) (s : S) : S * option error :=
  match src with
  | [] => (s, None)
  | rd :: rest =>
      let '(s1, ev) := rd s in
      match ev with
      | ReadFail e => (s1, Some e)
      | Data p =>
          let '(s2, e) := dst p s1 in
          match e with
          | Some err => (s2, Some err)
          | None => io_CopyBuffer dst rest s2
          end
      end
  end.

(** ** Data types of the parallel copier *)

Inductive ProgressType : Type :=
| ProgressTypeStart
| ProgressTypeProgress
| ProgressTypeComplete
| ProgressTypeError.

(** [ProgressUpdate].  [Percentage] is the exact quotient that the
    [float64] expression of the source rounds; [Message] and
    [EstimatedETA] (text and a rounded floating-point product of the
    fields kept here) are left out.  Durations are clock ticks. *)
Record ProgressUpdate : Type := MkProgressUpdate {
  UpdType : ProgressType;
  Current : Z;
  Total : Z;
  Percentage : Q;
  BytesCopied : Z;
  TotalBytes : Z;
  ElapsedTime : nat
}.

Record CopyError : Type := MkCopyError {
  ErrSourcePath : string;
  ErrDestPath : string;
  ErrError : error;
  Timestamp : nat
}.

Record CopyTask : Type := MkCopyTask {
  SourcePath : string;
  DestPath : string;
  IsDir : bool;
  Size : Z
}.

(** [ParallelCopyOptions].  The two callbacks are recorded by whether
    they are non-nil; their invocations appear in the trace of a run. *)
Record ParallelCopyOptions : Type := MkOptions {
  MaxWorkers : Z;
  BufferSize : Z;
  ShowProgress : bool;
  VerifyIntegrity : bool;
  ChecksumType : string;
  ContinueOnError : bool;
  ProgressCallback : bool;
  ErrorCallback : bool
}.

(** [AutoCopyItem]; [Directory] is the [*bool] of the source. *)
Record AutoCopyItem : Type := MkItem {
  Path : string;
  Directory : option bool;
  Recursive : bool;
  RootOnly : bool;
  AutoDetect : bool;
  UseGlob : bool;
  Exclude : list string;
  Include : list string
}.

(** The defaults applied by [NewParallelCopier]. *)
Definition NewParallelCopier (options : ParallelCopyOptions) : ParallelCopyOptions :=
  MkOptions
    (if MaxWorkers options <=? 0 then 4 else MaxWorkers options)
    (if BufferSize options <=? 0 then 64 * 1024 else BufferSize options)
    (ShowProgress options)
    (VerifyIntegrity options)
    (if String.eqb (ChecksumType options) "" then "sha256" else ChecksumType options)
    (ContinueOnError options)
    (ProgressCallback options)
    (ErrorCallback options).

(** One call of the function handed to [filepath.Walk]: the entry's
    name, its [os.FileInfo], and the error met on the way to it. *)
Record WalkEntry : Type := MkWalkEntry {
  walkPath : string;
  walkInfo : FileInfo;
  walkErr : option error
}.

(** The functions of Go's [path/filepath] and [crypto/sha256] the copier
    calls.  [filepath_Walk w root] lists the calls [filepath.Walk] makes
    to its function argument, in order, as long as that function returns
    [nil]. *)
Class Platform : Type := MkPlatform {
  filepath_Join : string -> string -> string;
  filepath_Dir : string -> string;
  filepath_Rel : string -> string -> res string;
  filepath_Glob : World -> string -> res (list string);
  filepath_Walk : World -> string -> list WalkEntry;
  sha256_New : Hash
}.

(** The state threaded through a hashed copy: the file system and the two
    running hashes. *)
Record HashedCopy (sourceHash destHash : Hash) : Type := MkHashedCopy {
  hc_world : World;
  hc_source : hstate sourceHash;
  hc_dest : hstate destHash
}.
Arguments MkHashedCopy {sourceHash destHash} _ _ _.
Arguments hc_world {sourceHash destHash} _.
Arguments hc_source {sourceHash destHash} _.
Arguments hc_dest {sourceHash destHash} _.

Section Copier.
Context `{Platform}.

(** *** Making directories *)

(** The directories above [path], the nearest first: [filepath.Dir]
    applied again and again, up to the root or the current directory,
    which is its own parent. *)
Fixpoint parents_upto (fuel : nat) (path : string) : list string :=
  match fuel with
  | O => []
  | S fuel' =>
      let parent := filepath_Dir path in
      if String.eqb parent path then [] else parent :: parents_upto fuel' parent
  end.

Definition parents (path : string) : list string :=
  parents_upto (String.length path) path.

(** [os.MkdirAll] with [fuel] levels to climb.  A directory that exists
    is left alone; a regular file in the way is an error; otherwise the
    parent is made first, by the same function, and then the directory
    itself by [os.Mkdir], whose error does not count if the directory is
    there all the same.  The parent is the directory [filepath.Dir]
    names.  The root and the current directory, which are their own
    parents, are there in every file system: they need no entry in the
    map. *)
Fixpoint os_MkdirAll_from (fuel : nat) (path : string) (perm : Z) (w : World)
    : World * option error :=
  match files w !! path with
  | Some (DirNode _) => (w, None)
  | Some (FileNode _ _) => (w, Some (PathError "mkdir" path false))
  | None =>
      let parent := filepath_Dir path in
      if String.eqb parent path then (w, None)
      else
        let '(w1, err) :=
          match fuel with
          | O => (w, None)
          | S fuel' => os_MkdirAll_from fuel' parent perm w
          end in
        match err with
        | Some e => (w1, Some e)
        | None =>
            match os_Mkdir path perm w1 with
            | (w2, Some e) =>
                match files w2 !! path with
                | Some (DirNode _) => (w2, None)
                | _ => (w2, Some e)
                end
            | (w2, None) => (w2, None)
            end
        end
  end.

(** [os.MkdirAll]: a path has no more directories above it than it has
    characters. *)
Definition os_MkdirAll (path : string) (perm : Z) (w : World) : World * option error :=
  os_MkdirAll_from (String.length path) path perm w.

(** *** Copying one file *)

Definition on_world_reader {hs hd} (r : reader World) : reader (HashedCopy hs hd) :=
  map (fun rd (s : HashedCopy hs hd) =>
         let '(w, ev) := rd (hc_world s) in
         (MkHashedCopy w (hc_source s) (hc_dest s), ev)) r.

Definition on_world_writer {hs hd} (wr : writer World) : writer (HashedCopy hs hd) :=
  fun p s =>
    let '(w, e) := wr p (hc_world s) in
    (MkHashedCopy w (hc_source s) (hc_dest s), e).

Definition source_hash_writer {hs hd} : writer (HashedCopy hs hd) :=
  fun p s => (MkHashedCopy (hc_world s) (h_write hs (hc_source s) p) (hc_dest s), None).

Definition dest_hash_writer {hs hd} : writer (HashedCopy hs hd) :=
  fun p s => (MkHashedCopy (hc_world s) (hc_source s) (h_write hd (hc_dest s) p), None).

(** The streaming pass of [copyWithVerification]: the source is read
    through a tee into [sourceHash], every piece is written to the
    destination file and then to [destHash]. *)
Definition hashedCopyPass (sourceHash destHash : Hash) (bufsize : nat)
    (sourceFile destFile : OsFile) (w : World) : HashedCopy sourceHash destHash * option error :=
  let sourceReader := io_TeeReader (on_world_reader (file_reader bufsize sourceFile)) source_hash_writer in
  let destWriter := io_MultiWriter (on_world_writer (file_writer destFile)) dest_hash_writer in
  io_CopyBuffer destWriter sourceReader (MkHashedCopy w (h_new sourceHash) (h_new destHash)).

(** The body of [copyWithVerification] below its [switch], for the two
    hashers the [switch] chose. *)
Definition copyWithHashes (sourceHash destHash : Hash) (bufsize : nat)
    (sourceFile destFile : OsFile) (w : World) : World * option error :=
  let '(s, err) := hashedCopyPass sourceHash destHash bufsize sourceFile destFile w in
  match err with
  | Some e => (hc_world s, Some (WrapError "failed to copy file" e))
  | None =>
      let sourceChecksum := h_sum sourceHash (hc_source s) in
      let destChecksum := h_sum destHash (hc_dest s) in
      if negb (equalBytes sourceChecksum destChecksum)
      then (hc_world s, Some (ErrorString "integrity verification failed: checksums don't match"))
      else (hc_world s, None)
  end.

(** [ParallelCopier.copyWithVerification] *)
Definition copyWithVerification (options : ParallelCopyOptions)
    (sourceFile destFile : OsFile) (w : World) : World * option error :=
  if String.eqb (ChecksumType options) "sha256"
  then copyWithHashes sha256_New sha256_New (Z.to_nat (BufferSize options)) sourceFile destFile w
  else (w, Some (ErrorString ("unsupported checksum type: " +:+ ChecksumType options))).

(** [ParallelCopier.copyFile] *)
Definition copyFile (options : ParallelCopyOptions) (sourcePath destPath : string)
    (w : World) : World * option error :=
  let destDir := filepath_Dir destPath in
  match os_MkdirAll destDir 493 w with
  | (w1, Some e) => (w1, Some (WrapError "failed to create destination directory" e))
  | (w1, None) =>
      match os_Open sourcePath w1 with
      | Err e => (w1, Some (WrapError "failed to open source file" e))
      | Ok sourceFile =>
          match os_Create destPath w1 with
          | (w2, Err e) => (w2, Some (WrapError "failed to create destination file" e))
          | (w2, Ok destFile) =>
              if VerifyIntegrity options
              then copyWithVerification options sourceFile destFile w2
              else
                match io_CopyBuffer (file_writer destFile)
                        (file_reader (Z.to_nat (BufferSize options)) sourceFile) w2 with
                | (w3, Some e) => (w3, Some (WrapError "failed to copy file" e))
                | (w3, None) => (w3, None)
                end
          end
      end
  end.

(** [ParallelCopier.processTask] *)
Definition processTask (options : ParallelCopyOptions) (task : CopyTask)
    (w : World) : World * option error :=
  if IsDir task then os_MkdirAll (DestPath task) 493 w
  else copyFile options (SourcePath task) (DestPath task) w.

(** [LegacyAutoCopier.copyFile]: the sequential copier's file copy, which
    ends by copying the source's permissions. *)
Definition legacy_copyFile (sourcePath destPath : string) (w : World) : World * option error :=
  let destDir := filepath_Dir destPath in
  match os_MkdirAll destDir 493 w with
  | (w1, Some e) =>
      (w1, Some (WrapError ("failed to create destination directory " +:+ destDir) e))
  | (w1, None) =>
      match os_Open sourcePath w1 with
      | Err e => (w1, Some (WrapError ("failed to open source file " +:+ sourcePath) e))
      | Ok sourceFile =>
          match os_Create destPath w1 with
          | (w2, Err e) =>
              (w2, Some (WrapError ("failed to create destination file " +:+ destPath) e))
          | (w2, Ok destFile) =>
              match io_CopyBuffer (file_writer destFile) (file_reader (32 * 1024) sourceFile) w2 with
              | (w3, Some e) => (w3, Some (WrapError "failed to copy file content" e))
              | (w3, None) =>
                  match os_Stat w3 sourcePath with
                  | Ok sourceInfo => (fst (os_Chmod destPath (fi_Mode sourceInfo) w3), None)
                  | Err _ => (w3, None)
                  end
              end
          end
      end
  end.

(** *** Observable events of a run *)

(** What a run does that can be observed from outside the goroutine
    doing it.  [queued] tells whether a non-blocking send found room;
    [from] is the worker that called [sendError] ([None] for the caller of
    [Run], during discovery). *)
Inductive Event : Type :=
| EvSendError (from : option nat) (e : CopyError) (queued : bool)
| EvSendProgress (u : ProgressUpdate) (queued : bool)
| EvTask (worker : nat) (task : CopyTask) (outcome : option error)
| EvResult (worker : nat) (task : CopyTask) (e : error)
| EvCounted (worker : nat) (task : CopyTask) (current : Z)
| EvProgressCallback (u : ProgressUpdate)
| EvErrorCallback (e : CopyError).

(** [ParallelCopier.sendError] *)
Definition sendError (from : option nat) (err : CopyError) (errors : chan CopyError)
    : chan CopyError * list Event :=
  let '(errors', queued) := try_send err errors in
  (errors', [EvSendError from err queued]).

(** [ParallelCopier.sendProgressUpdate]; the channel is never [nil] once
    [Run] has made it. *)
Definition sendProgressUpdate (options : ParallelCopyOptions) (update : ProgressUpdate)
    (progress : chan ProgressUpdate) : chan ProgressUpdate * list Event :=
  if ShowProgress options
  then let '(progress', queued) := try_send update progress in
       (progress', [EvSendProgress update queued])
  else (progress, []).

(** *** Task discovery *)

(** The function [discoverSinglePath] hands to [filepath.Walk]. *)
Definition walkFn (sourcePath destPath : string) (tasks : list CopyTask) (e : WalkEntry)
    : res (list CopyTask) :=
  match walkErr e with
  | Some err => Err err
  | None =>
      if String.eqb (walkPath e) sourcePath then Ok tasks
      else
        match filepath_Rel sourcePath (walkPath e) with
        | Err err => Err err
        | Ok relWalkPath =>
            let destWalkPath := filepath_Join destPath relWalkPath in
            if fi_IsDir (walkInfo e)
            then Ok (tasks ++ [MkCopyTask (walkPath e) destWalkPath true 0])
            else Ok (tasks ++ [MkCopyTask (walkPath e) destWalkPath false (fi_Size (walkInfo e))])
        end
  end.

(** [filepath.Walk] stops at the first call that returns an error. *)
Fixpoint walk_calls (fn : list CopyTask -> WalkEntry -> res (list CopyTask))
    (entries : list WalkEntry) (tasks : list CopyTask) : res (list CopyTask) :=
  match entries with
  | [] => Ok tasks
  | e :: rest =>
      match fn tasks e with
      | Err err => Err err
      | Ok tasks' => walk_calls fn rest tasks'
      end
  end.

(** [ParallelCopier.discoverSinglePath] *)
Definition discoverSinglePath (w : World) (sourceDir destDir relativePath : string)
    (item : AutoCopyItem) : res (list CopyTask) :=
  let sourcePath := filepath_Join sourceDir relativePath in
  let destPath := filepath_Join destDir relativePath in
  match os_Stat w sourcePath with
  | Err err =>
      if os_IsNotExist err && AutoDetect item then Ok []
      else Err (WrapError ("failed to stat " +:+ sourcePath) err)
  | Ok info =>
      if fi_IsDir info then
        if match Directory item with Some false => true | _ => false end
        then Err (ErrorString ("expected file but found directory: " +:+ sourcePath))
        else
          let tasks := [MkCopyTask sourcePath destPath true 0] in
          if Recursive item then
            match walk_calls (walkFn sourcePath destPath) (filepath_Walk w sourcePath) tasks with
            | Err err => Err (WrapError ("failed to walk directory " +:+ sourcePath) err)
            | Ok tasks' => Ok tasks'
            end
          else Ok tasks
      else
        if match Directory item with Some true => true | _ => false end
        then Err (ErrorString ("expected directory but found file: " +:+ sourcePath))
        else Ok [MkCopyTask sourcePath destPath false (fi_Size info)]
  end.

(** The loop of [discoverItemTasks] over the matches of a glob. *)
Fixpoint discoverGlobMatches (options : ParallelCopyOptions) (w : World)
    (sourceDir destDir : string) (item : AutoCopyItem)
    (matches : list string) (tasks : list CopyTask) : res (list CopyTask) :=
  match matches with
  | [] => Ok tasks
  | m :: rest =>
      match filepath_Rel sourceDir m with
      | Err _ => discoverGlobMatches options w sourceDir destDir item rest tasks
      | Ok relPath =>
          match discoverSinglePath w sourceDir destDir relPath item with
          | Err err =>
              if ContinueOnError options
              then discoverGlobMatches options w sourceDir destDir item rest tasks
              else Err err
          | Ok itemTasks =>
              discoverGlobMatches options w sourceDir destDir item rest (tasks ++ itemTasks)
          end
      end
  end.

(** [ParallelCopier.discoverItemTasks] *)
Definition discoverItemTasks (options : ParallelCopyOptions) (w : World)
    (sourceDir destDir : string) (item : AutoCopyItem) : res (list CopyTask) :=
  let sourcePath := filepath_Join sourceDir (Path item) in
  if UseGlob item then
    match filepath_Glob w sourcePath with
    | Err err => Err (WrapError ("glob pattern failed for " +:+ Path item) err)
    | Ok matches => discoverGlobMatches options w sourceDir destDir item matches []
    end
  else
    match discoverSinglePath w sourceDir destDir (Path item) item with
    | Err err => Err err
    | Ok itemTasks => Ok ([] ++ itemTasks)
    end.

(** What one iteration of the loop of [discoverTasks] leaves behind. *)
Record Discovery : Type := MkDiscovery {
  d_tasks : list CopyTask;
  d_errors : chan CopyError;
  d_events : list Event
}.

(** One iteration of the loop of [discoverTasks], at time [now]. *)
Definition discoverTasks_item (options : ParallelCopyOptions) (w : World)
    (sourceDir destDir : string) (now : nat) (item : AutoCopyItem)
    (tasks : list CopyTask) (errors : chan CopyError) : res Discovery :=
  match discoverItemTasks options w sourceDir destDir item with
  | Err err =>
      if ContinueOnError options
      then
        let '(errors', evs) := sendError None (MkCopyError (Path item) "" err now) errors in
        Ok (MkDiscovery tasks errors' evs)
      else Err err
  | Ok itemTasks => Ok (MkDiscovery (tasks ++ itemTasks) errors [])
  end.

(** [ParallelCopier.discoverTasks], run without the error handler taking
    anything off the channel meanwhile. *)
Fixpoint discoverTasks_loop (options : ParallelCopyOptions) (w : World)
    (sourceDir destDir : string) (now : nat) (items : list AutoCopyItem)
    (d : Discovery) : res Discovery :=
  match items with
  | [] => Ok d
  | item :: rest =>
      match discoverTasks_item options w sourceDir destDir now item (d_tasks d) (d_errors d) with
      | Err err => Err err
      | Ok d' =>
          discoverTasks_loop options w sourceDir destDir (S now) rest
            (MkDiscovery (d_tasks d') (d_errors d') (d_events d ++ d_events d'))
      end
  end.

Definition discoverTasks (options : ParallelCopyOptions) (w : World)
    (sourceDir destDir : string) (now : nat) (items : list AutoCopyItem)
    (errors : chan CopyError) : res Discovery :=
  discoverTasks_loop options w sourceDir destDir now items (MkDiscovery [] errors []).

(** The tasks the loop of [discoverTasks] ends with, [None] when it
    fails: the loop again, without the error channel. *)
Fixpoint discovered_tasks (options : ParallelCopyOptions) (w : World)
    (sourceDir destDir : string) (items : list AutoCopyItem)
    (tasks : list CopyTask) : option (list CopyTask) :=
  match items with
  | [] => Some tasks
  | item :: rest =>
      match discoverItemTasks options w sourceDir destDir item with
      | Err _ =>
          if ContinueOnError options
          then discovered_tasks options w sourceDir destDir rest tasks
          else None
      | Ok itemTasks => discovered_tasks options w sourceDir destDir rest (tasks ++ itemTasks)
      end
  end.

(** *** The goroutines of a run *)

(** Where a worker stands in [ParallelCopier.worker]. *)
Inductive WorkerPC : Type :=
| WRange
| WProcess (task : CopyTask)
| WFailed (task : CopyTask) (err : error)
| WCount (task : CopyTask)
| WReport (current total copied totalBytes : Z)
| WDone.

(** The goroutine that feeds the task queue. *)
Inductive ProducerPC : Type :=
| PIdle
| PSending (tasks : list CopyTask)
| PClosed.

(** [handleProgress] and [handleErrors]. *)
Inductive HandlerPC : Type :=
| HIdle
| HRunning
| HExited.

(** Where the caller stands in [ParallelCopier.Run]. *)
Inductive CoordPC : Type :=
| CInit
| CDiscover (items : list AutoCopyItem) (tasks : list CopyTask)
| CWait
| CJoin
| CReturned (r : option error).

(** The [ParallelCopier] struct: configuration and options. *)
Record ParallelCopier : Type := MkParallelCopier {
  config_Items : list AutoCopyItem;
  options : ParallelCopyOptions
}.

(** The internal state of a [ParallelCopier] during [Run], with the file
    system, the clock, every goroutine's program counter and the events
    so far. *)
Record State : Type := MkState {
  world : World;
  now : nat;
  startTime : nat;
  taskQueue : chan CopyTask;
  results : chan error;
  progress : chan ProgressUpdate;
  errors : chan CopyError;
  totalTasks : Z;
  completedTasks : Z;
  totalBytes : Z;
  copiedBytes : Z;
  coordinator : CoordPC;
  producer : ProducerPC;
  workers : list WorkerPC;
  progressHandler : HandlerPC;
  errorHandler : HandlerPC;
  trace : list Event
}.

Definition set_world (v : World) (s : State) : State :=
  MkState v (now s) (startTime s) (taskQueue s) (results s) (progress s) (errors s) (totalTasks s) (completedTasks s) (totalBytes s) (copiedBytes s) (coordinator s) (producer s) (workers s) (progressHandler s) (errorHandler s) (trace s).

Definition set_now (v : nat) (s : State) : State :=
  MkState (world s) v (startTime s) (taskQueue s) (results s) (progress s) (errors s) (totalTasks s) (completedTasks s) (totalBytes s) (copiedBytes s) (coordinator s) (producer s) (workers s) (progressHandler s) (errorHandler s) (trace s).

Definition set_startTime (v : nat) (s : State) : State :=
  MkState (world s) (now s) v (taskQueue s) (results s) (progress s) (errors s) (totalTasks s) (completedTasks s) (totalBytes s) (copiedBytes s) (coordinator s) (producer s) (workers s) (progressHandler s) (errorHandler s) (trace s).

Definition set_taskQueue (v : chan CopyTask) (s : State) : State :=
  MkState (world s) (now s) (startTime s) v (results s) (progress s) (errors s) (totalTasks s) (completedTasks s) (totalBytes s) (copiedBytes s) (coordinator s) (producer s) (workers s) (progressHandler s) (errorHandler s) (trace s).

Definition set_results (v : chan error) (s : State) : State :=
  MkState (world s) (now s) (startTime s) (taskQueue s) v (progress s) (errors s) (totalTasks s) (completedTasks s) (totalBytes s) (copiedBytes s) (coordinator s) (producer s) (workers s) (progressHandler s) (errorHandler s) (trace s).

Definition set_progress (v : chan ProgressUpdate) (s : State) : State :=
  MkState (world s) (now s) (startTime s) (taskQueue s) (results s) v (errors s) (totalTasks s) (completedTasks s) (totalBytes s) (copiedBytes s) (coordinator s) (producer s) (workers s) (progressHandler s) (errorHandler s) (trace s).

Definition set_errors (v : chan CopyError) (s : State) : State :=
  MkState (world s) (now s) (startTime s) (taskQueue s) (results s) (progress s) v (totalTasks s) (completedTasks s) (totalBytes s) (copiedBytes s) (coordinator s) (producer s) (workers s) (progressHandler s) (errorHandler s) (trace s).

Definition set_totalTasks (v : Z) (s : State) : State :=
  MkState (world s) (now s) (startTime s) (taskQueue s) (results s) (progress s) (errors s) v (completedTasks s) (totalBytes s) (copiedBytes s) (coordinator s) (producer s) (workers s) (progressHandler s) (errorHandler s) (trace s).

Definition set_completedTasks (v : Z) (s : State) : State :=
  MkState (world s) (now s) (startTime s) (taskQueue s) (results s) (progress s) (errors s) (totalTasks s) v (totalBytes s) (copiedBytes s) (coordinator s) (producer s) (workers s) (progressHandler s) (errorHandler s) (trace s).

Definition set_totalBytes (v : Z) (s : State) : State :=
  MkState (world s) (now s) (startTime s) (taskQueue s) (results s) (progress s) (errors s) (totalTasks s) (completedTasks s) v (copiedBytes s) (coordinator s) (producer s) (workers s) (progressHandler s) (errorHandler s) (trace s).

Definition set_copiedBytes (v : Z) (s : State) : State :=
  MkState (world s) (now s) (startTime s) (taskQueue s) (results s) (progress s) (errors s) (totalTasks s) (completedTasks s) (totalBytes s) v (coordinator s) (producer s) (workers s) (progressHandler s) (errorHandler s) (trace s).

Definition set_coordinator (v : CoordPC) (s : State) : State :=
  MkState (world s) (now s) (startTime s) (taskQueue s) (results s) (progress s) (errors s) (totalTasks s) (completedTasks s) (totalBytes s) (copiedBytes s) v (producer s) (workers s) (progressHandler s) (errorHandler s) (trace s).

Definition set_producer (v : ProducerPC) (s : State) : State :=
  MkState (world s) (now s) (startTime s) (taskQueue s) (results s) (progress s) (errors s) (totalTasks s) (completedTasks s) (totalBytes s) (copiedBytes s) (coordinator s) v (workers s) (progressHandler s) (errorHandler s) (trace s).

Definition set_workers (v : list WorkerPC) (s : State) : State :=
  MkState (world s) (now s) (startTime s) (taskQueue s) (results s) (progress s) (errors s) (totalTasks s) (completedTasks s) (totalBytes s) (copiedBytes s) (coordinator s) (producer s) v (progressHandler s) (errorHandler s) (trace s).

Definition set_progressHandler (v : HandlerPC) (s : State) : State :=
  MkState (world s) (now s) (startTime s) (taskQueue s) (results s) (progress s) (errors s) (totalTasks s) (completedTasks s) (totalBytes s) (copiedBytes s) (coordinator s) (producer s) (workers s) v (errorHandler s) (trace s).

Definition set_errorHandler (v : HandlerPC) (s : State) : State :=
  MkState (world s) (now s) (startTime s) (taskQueue s) (results s) (progress s) (errors s) (totalTasks s) (completedTasks s) (totalBytes s) (copiedBytes s) (coordinator s) (producer s) (workers s) (progressHandler s) v (trace s).

Definition set_trace (v : list Event) (s : State) : State :=
  MkState (world s) (now s) (startTime s) (taskQueue s) (results s) (progress s) (errors s) (totalTasks s) (completedTasks s) (totalBytes s) (copiedBytes s) (coordinator s) (producer s) (workers s) (progressHandler s) (errorHandler s) v.

Definition log (evs : list Event) (s : State) : State :=
  set_trace (trace s ++ evs) s.

Definition set_worker (i : nat) (pc : WorkerPC) (s : State) : State :=
  set_workers (<[i := pc]> (workers s)) s.

(** The state of a freshly made copier, before [Run]. *)
Definition initial_state (w : World) : State :=
  MkState w 0 0 (make_chan 0) (make_chan 0) (make_chan 0) (make_chan 0)
    0 0 0 0 CInit PIdle [] HIdle HIdle [].

(** [for _, task := range tasks { pc.totalBytes += task.Size }] *)
Definition sum_sizes (tasks : list CopyTask) (acc : Z) : Z :=
  fold_left (fun a task => int64_add a (Size task)) tasks acc.

Definition is_done (pc : WorkerPC) : bool :=
  match pc with
  | WDone => true
  | _ => false
  end.

Definition handler_running (h : HandlerPC) : bool :=
  match h with
  | HRunning => true
  | _ => false
  end.

(** The [start] update [Run] sends before it starts the workers. *)
Definition start_update (s : State) : ProgressUpdate :=
  MkProgressUpdate ProgressTypeStart 0 (totalTasks s) 0 0 0 0.

(** The [complete] update [Run] sends once the workers have returned. *)
Definition complete_update (s : State) : ProgressUpdate :=
  MkProgressUpdate ProgressTypeComplete (completedTasks s) (totalTasks s) 100
    (copiedBytes s) (totalBytes s) (now s - startTime s).

(** *** [ParallelCopier.Run] *)

(** The caller's goroutine.  Its steps: making the channels and starting
    the handlers; one iteration of the discovery loop; from the end of
    discovery to [pc.wg.Wait()]; from there, once every worker has
    returned, to the waits for the handlers; the return. *)
Definition coordinator_step (pc : ParallelCopier) (sourceDir destDir : string)
    (s : State) : option State :=
  match coordinator s with
  | CInit =>
      let s := set_startTime (now s) s in
      let s := set_taskQueue (make_chan (Z.to_nat (MaxWorkers (options pc) * 2))) s in
      let s := set_results (make_chan (Z.to_nat (MaxWorkers (options pc)))) s in
      let s := set_progress (make_chan 100) s in
      let s := set_errors (make_chan 100) s in
      let s := set_progressHandler
                 (if ShowProgress (options pc) && ProgressCallback (options pc)
                  then HRunning else progressHandler s) s in
      let s := set_errorHandler
                 (if ErrorCallback (options pc) then HRunning else errorHandler s) s in
      Some (set_coordinator (CDiscover (config_Items pc) []) s)
  | CDiscover (item :: rest) tasks =>
      match discoverTasks_item (options pc) (world s) sourceDir destDir (now s) item tasks (errors s) with
      | Err err =>
          Some (set_coordinator
                  (CReturned (Some (WrapError "failed to discover copy tasks" err))) s)
      | Ok d =>
          Some (set_coordinator (CDiscover rest (d_tasks d))
                  (log (d_events d) (set_errors (d_errors d) s)))
      end
  | CDiscover [] tasks =>
      let s := set_totalTasks (Z.of_nat (length tasks)) s in
      if totalTasks s =? 0 then Some (set_coordinator (CReturned None) s)
      else
        let s := set_totalBytes (sum_sizes tasks (totalBytes s)) s in
        let '(progress', evs) :=
          sendProgressUpdate (options pc) (start_update s) (progress s) in
        let s := log evs (set_progress progress' s) in
        let s := set_workers (replicate (Z.to_nat (MaxWorkers (options pc))) WRange) s in
        let s := set_producer (PSending tasks) s in
        Some (set_coordinator CWait s)
  | CWait =>
      if forallb is_done (workers s) then
        let '(progress', evs) :=
          sendProgressUpdate (options pc) (complete_update s) (progress s) in
        let s := log evs (set_progress progress' s) in
        let s := set_progress (close_chan (progress s)) s in
        let s := set_errors (close_chan (errors s)) s in
        Some (set_coordinator CJoin s)
      else None
  | CJoin =>
      if handler_running (progressHandler s) || handler_running (errorHandler s) then None
      else Some (set_coordinator (CReturned None) s)
  | CReturned _ => None
  end.

(** The goroutine [Run] starts to feed the queue: one blocking send per
    task, then [close(pc.taskQueue)]. *)
Definition producer_step (s : State) : option State :=
  match producer s with
  | PSending (task :: rest) =>
      match send task (taskQueue s) with
      | None => None
      | Some q => Some (set_producer (PSending rest) (set_taskQueue q s))
      end
  | PSending [] => Some (set_producer PClosed (set_taskQueue (close_chan (taskQueue s)) s))
  | _ => None
  end.

(** The progress sample a worker sends after counting a task. *)
Definition progress_sample (s : State) (current total copied totalBytes : Z) : ProgressUpdate :=
  MkProgressUpdate ProgressTypeProgress current total
    (inject_Z current / inject_Z total * 100)%Q copied totalBytes (now s - startTime s).

(** [ParallelCopier.worker], worker number [i].  Its steps: taking a task
    off the queue; [processTask]; reporting a failure (and returning, when
    errors are not to be continued on); updating the counters under the
    mutex; sending the progress sample. *)
Definition worker_step (pc : ParallelCopier) (i : nat) (s : State) : option State :=
  match workers s !! i with
  | None => None
  | Some WRange =>
      match recv (taskQueue s) with
      | Received task q => Some (set_worker i (WProcess task) (set_taskQueue q s))
      | Drained => Some (set_worker i WDone s)
      | WouldBlock => None
      end
  | Some (WProcess task) =>
      let '(w', err) := processTask (options pc) task (world s) in
      let s := log [EvTask i task err] (set_world w' s) in
      match err with
      | Some e => Some (set_worker i (WFailed task e) s)
      | None => Some (set_worker i (WCount task) s)
      end
  | Some (WFailed task err) =>
      let '(errors', evs) :=
        sendError (Some i) (MkCopyError (SourcePath task) (DestPath task) err (now s))
          (errors s) in
      let s := log evs (set_errors errors' s) in
      if negb (ContinueOnError (options pc)) then
        match send err (results s) with
        | None => None
        | Some r => Some (set_worker i WDone (log [EvResult i task err] (set_results r s)))
        end
      else Some (set_worker i (WCount task) s)
  | Some (WCount task) =>
      let s := set_completedTasks (wrap64 (completedTasks s + 1)) s in
      let s := set_copiedBytes (int64_add (copiedBytes s) (Size task)) s in
      let current := completedTasks s in
      let total := totalTasks s in
      let copied := copiedBytes s in
      let totalBytes := totalBytes s in
      Some (set_worker i (WReport current total copied totalBytes)
              (log [EvCounted i task current] s))
  | Some (WReport current total copied totalBytes) =>
      if ShowProgress (options pc) && (go_rem current 10 =? 0) then
        let '(progress', evs) :=
          sendProgressUpdate (options pc)
            (progress_sample s current total copied totalBytes) (progress s) in
        Some (set_worker i WRange (log evs (set_progress progress' s)))
      else Some (set_worker i WRange s)
  | Some WDone => None
  end.

(** [ParallelCopier.handleProgress] *)
Definition progress_handler_step (pc : ParallelCopier) (s : State) : option State :=
  match progressHandler s with
  | HRunning =>
      match recv (progress s) with
      | Received update c =>
          Some (log (if ProgressCallback (options pc) then [EvProgressCallback update] else [])
                  (set_progress c s))
      | Drained => Some (set_progressHandler HExited s)
      | WouldBlock => None
      end
  | _ => None
  end.

(** [ParallelCopier.handleErrors] *)
Definition error_handler_step (pc : ParallelCopier) (s : State) : option State :=
  match errorHandler s with
  | HRunning =>
      match recv (errors s) with
      | Received err c =>
          Some (log (if ErrorCallback (options pc) then [EvErrorCallback err] else [])
                  (set_errors c s))
      | Drained => Some (set_errorHandler HExited s)
      | WouldBlock => None
      end
  | _ => None
  end.

(** Which goroutine the scheduler runs next. *)
Inductive Action : Type :=
| ActCoordinator
| ActProducer
| ActWorker (i : nat)
| ActProgressHandler
| ActErrorHandler.

(** One scheduling step; [None] when the chosen goroutine is blocked or
    has ended.  The clock advances with every step. *)
Definition step (pc : ParallelCopier) (sourceDir destDir : string)
    (a : Action) (s : State) : option State :=
  let r :=
    match a with
    | ActCoordinator => coordinator_step pc sourceDir destDir s
    | ActProducer => producer_step s
    | ActWorker i => worker_step pc i s
    | ActProgressHandler => progress_handler_step pc s
    | ActErrorHandler => error_handler_step pc s
    end in
  match r with
  | Some s' => Some (set_now (S (now s')) s')
  | None => None
  end.

Fixpoint exec (pc : ParallelCopier) (sourceDir destDir : string)
    (sched : list Action) (s : State) : option State :=
  match sched with
  | [] => Some s
  | a :: rest =>
      match step pc sourceDir destDir a s with
      | Some s' => exec pc sourceDir destDir rest s'
      | None => None
      end
  end.

(** [pc.Run(sourceDir, destDir)] on a fresh copier under the schedule
    [sched], started on the file system [w]. *)
Definition Run (pc : ParallelCopier) (sourceDir destDir : string)
    (sched : list Action) (w : World) : option State :=
  exec pc sourceDir destDir sched (initial_state w).

(** What [Run] has returned, if it has. *)
Definition returned (s : State) : option (option error) :=
  match coordinator s with
  | CReturned r => Some r
  | _ => None
  end.

(** *** Reading a trace *)

Definition progress_delivered (tr : list Event) : list ProgressUpdate :=
  omap (fun ev => match ev with EvProgressCallback u => Some u | _ => None end) tr.

Definition progress_queued (tr : list Event) : list ProgressUpdate :=
  omap (fun ev => match ev with EvSendProgress u true => Some u | _ => None end) tr.

Definition errors_delivered (tr : list Event) : list CopyError :=
  omap (fun ev => match ev with EvErrorCallback e => Some e | _ => None end) tr.

Definition errors_sent (tr : list Event) : list CopyError :=
  omap (fun ev => match ev with EvSendError _ e _ => Some e | _ => None end) tr.

Definition errors_queued (tr : list Event) : list CopyError :=
  omap (fun ev => match ev with EvSendError _ e true => Some e | _ => None end) tr.

Definition errors_dropped (tr : list Event) : list CopyError :=
  omap (fun ev => match ev with EvSendError _ e false => Some e | _ => None end) tr.

(** The errors the workers handed to [sendError]. *)
Definition errors_of_workers (tr : list Event) : list CopyError :=
  omap (fun ev => match ev with EvSendError (Some _) e _ => Some e | _ => None end) tr.

(** The tasks a worker found to fail, with the error of each. *)
Definition tasks_failed (tr : list Event) : list (CopyTask * error) :=
  omap (fun ev => match ev with EvTask _ t (Some e) => Some (t, e) | _ => None end) tr.

(** Every task a worker ran [processTask] on. *)
Definition tasks_processed (tr : list Event) : list CopyTask :=
  omap (fun ev => match ev with EvTask _ t _ => Some t | _ => None end) tr.

(** The tasks a worker ran [processTask] on without error. *)
Definition tasks_succeeded (tr : list Event) : list CopyTask :=
  omap (fun ev => match ev with EvTask _ t None => Some t | _ => None end) tr.

(** Every update handed to [sendProgressUpdate] with progress shown. *)
Definition progress_sent (tr : list Event) : list ProgressUpdate :=
  omap (fun ev => match ev with EvSendProgress u _ => Some u | _ => None end) tr.

(** The tasks that were counted into [completedTasks] and [copiedBytes]. *)
Definition tasks_counted (tr : list Event) : list CopyTask :=
  omap (fun ev => match ev with EvCounted _ t _ => Some t | _ => None end) tr.

End Copier.

(** ** A small platform to run the model on *)

Module Sample.

(** Everything before the last slash, if there is one. *)
Fixpoint before_last_slash (s : string) : option string :=
  match s with
  | EmptyString => None
  | String c rest =>
      match before_last_slash rest with
      | Some d => Some (String c d)
      | None => if Ascii.eqb c (Ascii.ascii_of_nat 47) then Some EmptyString else None
      end
  end.

Definition Dir (p : string) : string :=
  match before_last_slash p with
  | Some EmptyString => "/"
  | Some d => d
  | None => "."
  end.

Definition Join (a b : string) : string := a +:+ "/" +:+ b.

Fixpoint strip_prefix (p s : string) : option string :=
  match p, s with
  | EmptyString, _ => Some s
  | String a p', String b s' => if Ascii.eqb a b then strip_prefix p' s' else None
  | _, _ => None
  end.

Definition Rel (base target : string) : res string :=
  if String.eqb base target then Ok "."
  else match strip_prefix (base +:+ "/") target with
       | Some r => Ok r
       | None => Err (ErrorString "Rel: can't make relative")
       end.

Fixpoint assoc {A} (k : string) (l : list (string * A)) : option A :=
  match l with
  | [] => None
  | (k', v) :: rest => if String.eqb k k' then Some v else assoc k rest
  end.

(** A hasher whose digest is the very bytes written: it tells any two
    inputs apart. *)
Definition identity_hash : Hash := MkHash (list byte) [] (fun st p => st ++ p) (fun st => st).

(** A hasher that only counts the bytes, in unary. *)
Definition length_hash : Hash :=
  MkHash nat 0%nat (fun st p => (st + length p)%nat) (fun st => replicate st Byte.x00).

(** A platform whose glob matches and directory walks are looked up in
    two tables. *)
Definition platform (globs : list (string * list string))
    (walks : list (string * list WalkEntry)) : Platform :=
  MkPlatform Join Dir Rel
    (fun _ pattern => Ok (default [] (assoc pattern globs)))
    (fun _ root => default [] (assoc root walks))
    identity_hash.

Definition no_faults : string -> string -> bool := fun _ _ => false.

Definition hello : list byte := [Byte.x68; Byte.x65; Byte.x6c; Byte.x6c; Byte.x6f].

(** A checkout with an executable script, a plain file and a directory;
    the umask is [022]. *)
Definition checkout : World :=
  MkWorld
    (<["/src/run.sh" := FileNode 493 hello]>
       (<["/src/notes.txt" := FileNode 420 hello]>
          (<["/src/docs" := DirNode 493]> ∅)))
    18 no_faults.

(** The same checkout when the destination root is not writable. *)
Definition readonly_dest : World :=
  MkWorld (files checkout) 18 (fun op path => String.eqb op "mkdir" && String.eqb path "/dst").

(** [checkout] once [os.Create] has made the destination of [run.sh]. *)
Definition dest_created : World := fst (os_Create "/dst/run.sh" checkout).

Definition run_sh : OsFile := MkOsFile "/src/run.sh" (Some hello).

Definition dest_run_sh : OsFile := MkOsFile "/dst/run.sh" None.

Definition file_item (path : string) : AutoCopyItem :=
  MkItem path (Some false) false false false false [] [].

Definition autodetect_item (path : string) : AutoCopyItem :=
  MkItem path None false false true false [] [].

Definition glob_file_item (pattern : string) : AutoCopyItem :=
  MkItem pattern (Some false) false false false true [] [].

Definition default_options : ParallelCopyOptions :=
  NewParallelCopier (MkOptions 0 0 false false "" false false false).

(** Errors are continued on and reported to a callback. *)
Definition continue_options : ParallelCopyOptions :=
  NewParallelCopier (MkOptions 0 0 false false "" true false true).

(** The platform on which [/src/*] matches the directory and the note. *)
Definition star_platform : Platform :=
  platform [("/src/*", ["/src/docs"; "/src/notes.txt"])] [].

(** Progress is shown and both callbacks are set; one worker. *)
Definition reporting_options (continue : bool) : ParallelCopyOptions :=
  NewParallelCopier (MkOptions 1 0 true false "" continue true true).

(** *** Schedules *)

(** The caller of [Run] runs up to [pc.wg.Wait()]: the channels and the
    handlers, one iteration of discovery for each of the [items], the
    start of the workers. *)
Definition to_the_workers (items : nat) : list Action :=
  replicate (2 + items) ActCoordinator.

(** The producer queues one task and worker [i] takes [steps] steps. *)
Definition one_task (i steps : nat) : list Action :=
  ActProducer :: replicate steps (ActWorker i).

(** The producer closes the queue, the workers still [running] find it
    drained, [Run] closes the channels, the handlers take their steps
    and [Run] returns. *)
Definition wind_down (running : list nat) (handlers : list Action) : list Action :=
  ActProducer :: map ActWorker running ++ [ActCoordinator] ++ handlers ++ [ActCoordinator].

(** One task, which takes its worker [steps] steps; the handlers run
    only once the channels are closed. *)
Definition single_task_schedule (steps : nat) (running : list nat)
    (handlers : list Action) : list Action :=
  to_the_workers 1 ++ one_task 0 steps ++ wind_down running handlers.

(** [n] tasks one after the other, all on worker [0]. *)
Definition serial_schedule (n steps : nat) (handlers : list Action) : list Action :=
  to_the_workers n ++ concat (replicate n (one_task 0 steps)) ++ wind_down [0%nat] handlers.

End Sample.

(** ** Vocabulary of the properties *)

(** The error [copyWithVerification] returns on a checksum mismatch. *)
Definition integrity_error : error :=
  ErrorString "integrity verification failed: checksums don't match".

(** The item declares a kind ([directory: true] or [false]) and the entry
    found is of the other kind. *)
Definition kind_conflict (item : AutoCopyItem) (info : FileInfo) : bool :=
  match Directory item with
  | Some declared => negb (Bool.eqb declared (fi_IsDir info))
  | None => false
  end.

(** The error [discoverSinglePath] describes such a conflict with. *)
Definition mismatch_error (info : FileInfo) (sourcePath : string) : error :=
  if fi_IsDir info
  then ErrorString ("expected file but found directory: " +:+ sourcePath)
  else ErrorString ("expected directory but found file: " +:+ sourcePath).

(** *** Accounting *)

(** The task a worker holds between taking it and counting it. *)
Definition held (pc : WorkerPC) : list CopyTask :=
  match pc with
  | WProcess t | WFailed t _ | WCount t => [t]
  | _ => []
  end.

Definition unsent (p : ProducerPC) : list CopyTask :=
  match p with
  | PSending tasks => tasks
  | _ => []
  end.

(** The discovered tasks not yet counted: still with the producer, in the
    queue, or held by a worker. *)
Definition pending (s : State) : list CopyTask :=
  unsent (producer s) ++ buf (taskQueue s) ++ flat_map held (workers s).

(** The sum of the sizes, in unbounded integers. *)
Definition total_size (tasks : list CopyTask) : Z :=
  foldr (fun t a => Size t + a) 0 tasks.

(** The sizes are those of files and their sum and number fit [int64]. *)
Definition sizes_fit (tasks : list CopyTask) : Prop :=
  Forall (fun t => 0 <= Size t) tasks /\
  total_size tasks < 2 ^ 63 /\
  Z.of_nat (length tasks) < 2 ^ 63.

(** The events of discovery: errors sent by the caller of [Run], and the
    error handler passing them on. *)
Definition discovery_event (ev : Event) : Prop :=
  match ev with
  | EvSendError None _ _ | EvErrorCallback _ => True
  | _ => False
  end.

(** What identifies the failure a [CopyError] reports. *)
Definition failure_of_error (e : CopyError) : string * string * error :=
  (ErrSourcePath e, ErrDestPath e, ErrError e).

Definition failure_of_task (te : CopyTask * error) : string * string * error :=
  (SourcePath (fst te), DestPath (fst te), snd te).

(** The task a worker holds after [processTask] and before counting it,
    when it is still to be counted: a failed one only if errors are
    continued on. *)
Definition due_held (continue : bool) (pc : WorkerPC) : list CopyTask :=
  match pc with
  | WCount t => [t]
  | WFailed t _ => if continue then [t] else []
  | _ => []
  end.

(** The tasks whose [processTask] has returned and which the worker goes
    on to count. *)
Definition tasks_due (continue : bool) (tr : list Event) : list CopyTask :=
  omap (fun ev => match ev with
                  | EvTask _ t None => Some t
                  | EvTask _ t (Some _) => if continue then Some t else None
                  | _ => None
                  end) tr.

(** The tasks whose failure made a worker return. *)
Definition tasks_aborted (tr : list Event) : list CopyTask :=
  omap (fun ev => match ev with EvResult _ t _ => Some t | _ => None end) tr.

(** The failure a worker has met and not yet handed to [sendError]. *)
Definition failure_held (pc : WorkerPC) : list (string * string * error) :=
  match pc with
  | WFailed t e => [(SourcePath t, DestPath t, e)]
  | _ => []
  end.

Definition is_sample (u : ProgressUpdate) : Prop := UpdType u = ProgressTypeProgress.

(** *** Invariants of a run *)

(** How the phases of [Run] constrain the state: before the workers
    start nothing but discovery has happened; once [pc.wg.Wait()] is
    passed every worker has returned; a handler that has exited left its
    channel empty. *)
Record phase_inv (pc : ParallelCopier) (w0 : World) (s : State) : Prop := MkPhaseInv {
  ph_before : producer s = PIdle ->
    workers s = [] /\ world s = w0 /\ buf (taskQueue s) = [] /\
    totalTasks s = 0 /\ totalBytes s = 0 /\ completedTasks s = 0 /\ copiedBytes s = 0 /\
    buf (progress s) = [] /\ Forall discovery_event (trace s) /\
    match coordinator s with
    | CInit => trace s = [] /\ progressHandler s = HIdle /\ errorHandler s = HIdle
    | CDiscover _ _ | CReturned _ => True
    | CWait | CJoin => False
    end;
  ph_caps : coordinator s <> CInit ->
    cap (progress s) = 100%nat /\ cap (errors s) = 100%nat;
  ph_after : producer s <> PIdle ->
    totalTasks s <> 0 /\
    match coordinator s with
    | CWait => True
    | CJoin => forallb is_done (workers s) = true
    | CReturned r =>
        r = None /\ forallb is_done (workers s) = true /\
        handler_running (progressHandler s) = false /\
        handler_running (errorHandler s) = false
    | _ => False
    end;
  ph_closed :
    closed (progress s) = true \/ closed (errors s) = true ->
    producer s <> PIdle /\ coordinator s <> CWait;
  ph_progress_started :
    coordinator s <> CInit ->
    ShowProgress (options pc) && ProgressCallback (options pc) = true ->
    progressHandler s <> HIdle;
  ph_progress_handler :
    progressHandler s <> HIdle -> ProgressCallback (options pc) = true;
  ph_progress_exited :
    progressHandler s = HExited -> buf (progress s) = [] /\ closed (progress s) = true;
  ph_error_started :
    coordinator s <> CInit -> ErrorCallback (options pc) = true -> errorHandler s <> HIdle;
  ph_error_handler :
    errorHandler s <> HIdle -> ErrorCallback (options pc) = true;
  ph_error_exited :
    errorHandler s = HExited -> buf (errors s) = [] /\ closed (errors s) = true
}.

(** The two output channels are queues: what was queued is what was
    handed to the callback followed by what is still in the buffer. *)
Record fifo_inv (s : State) : Prop := MkFifoInv {
  fifo_progress : progress_queued (trace s) = progress_delivered (trace s) ++ buf (progress s);
  fifo_errors : errors_queued (trace s) = errors_delivered (trace s) ++ buf (errors s)
}.

(** What has been queued on the progress channel: [start], then samples,
    then, once the workers have returned, [complete] unless the buffer
    was full. *)
Definition progress_inv (pc : ParallelCopier) (s : State) : Prop :=
  ShowProgress (options pc) = true -> producer s <> PIdle ->
  exists samples : list ProgressUpdate,
    Forall is_sample samples /\
    match coordinator s with
    | CWait => progress_queued (trace s) = start_update s :: samples
    | _ =>
        (exists elapsed : nat,
           progress_queued (trace s)
           = start_update s :: samples
               ++ [MkProgressUpdate ProgressTypeComplete (completedTasks s) (totalTasks s)
                     100 (copiedBytes s) (totalBytes s) elapsed]) \/
        (progress_queued (trace s) = start_update s :: samples /\
         (99 <= length samples)%nat)
    end.

(** Where the discovered tasks are, and what the counters count. *)
Record account_inv `{Platform} (pc : ParallelCopier) (sourceDir destDir : string)
    (w0 : World) (s : State) : Prop := MkAccountInv {
  acc_discover : forall items tasks,
    coordinator s = CDiscover items tasks ->
    discovered_tasks (options pc) w0 sourceDir destDir items tasks
    = discovered_tasks (options pc) w0 sourceDir destDir (config_Items pc) [];
  acc_started : producer s <> PIdle ->
    exists ts : list CopyTask,
      discovered_tasks (options pc) w0 sourceDir destDir (config_Items pc) [] = Some ts /\
      totalTasks s = Z.of_nat (length ts) /\
      totalBytes s = total_size ts /\
      ts ≡ₚ tasks_counted (trace s) ++ pending s ++ tasks_aborted (trace s) /\
      completedTasks s = Z.of_nat (length (tasks_counted (trace s))) /\
      copiedBytes s = total_size (tasks_counted (trace s));
  acc_due :
    tasks_due (ContinueOnError (options pc)) (trace s)
    ≡ₚ tasks_counted (trace s)
         ++ flat_map (due_held (ContinueOnError (options pc))) (workers s)
}.

(** Every failure of a task is reported by one call of [sendError]; an
    error is dropped only when a hundred are queued already. *)
Record errors_inv (s : State) : Prop := MkErrorsInv {
  err_failed :
    map failure_of_task (tasks_failed (trace s))
    ≡ₚ map failure_of_error (errors_of_workers (trace s))
         ++ flat_map failure_held (workers s);
  err_dropped :
    errors_dropped (trace s) <> [] -> (100 <= length (errors_queued (trace s)))%nat
}.

(** *** Sampling *)

(** The values of the shared counter the workers read, each right after
    its increment, in the order of the increments. *)
Definition counts (tr : list Event) : list Z :=
  omap (fun ev => match ev with EvCounted _ _ current => Some current | _ => None end) tr.

(** The progress samples handed to [sendProgressUpdate]. *)
Definition samples_sent (tr : list Event) : list ProgressUpdate :=
  omap (fun ev => match ev with
                  | EvSendProgress u _ =>
                      match UpdType u with
                      | ProgressTypeProgress => Some u
                      | _ => None
                      end
                  | _ => None
                  end) tr.

(** The counter is at a multiple of ten. *)
Definition tenth (current : Z) : bool := current mod 10 =? 0.

(** The value for which a worker that has counted a task is about to
    send a sample. *)
Definition sample_due (pc : WorkerPC) : list Z :=
  match pc with
  | WReport current _ _ _ => if tenth current then [current] else []
  | _ => []
  end.

(** The shared counter goes up by one with every task counted, whichever
    worker counts it, and a sample is sent for its multiples of ten. *)
Record sample_inv (pc : ParallelCopier) (s : State) : Prop := MkSampleInv {
  si_counts :
    counts (trace s)
    = map (fun k => wrap64 (Z.of_nat k)) (seq 1 (length (counts (trace s))));
  si_counter : completedTasks s = wrap64 (Z.of_nat (length (counts (trace s))));
  si_samples : ShowProgress (options pc) = true ->
    map Current (samples_sent (trace s)) ++ flat_map sample_due (workers s)
    ≡ₚ List.filter tenth (counts (trace s));
  si_silent : ShowProgress (options pc) = false -> progress_sent (trace s) = []
}.

(** ** Strings *)

(** Go's [strings.HasPrefix], [HasSuffix] and [Contains], on strings as
    sequences of bytes. *)
Fixpoint strings_HasPrefix (s prefix : string) {struct prefix} : bool :=
  match prefix, s with
  | EmptyString, _ => true
  | String a prefix', String b s' => Ascii.eqb a b && strings_HasPrefix s' prefix'
  | String _ _, EmptyString => false
  end.

Fixpoint strings_HasSuffix (s suffix : string) : bool :=
  String.eqb s suffix ||
  match s with
  | EmptyString => false
  | String _ s' => strings_HasSuffix s' suffix
  end.

Fixpoint strings_Contains (s substr : string) : bool :=
  strings_HasPrefix s substr ||
  match s with
  | EmptyString => false
  | String _ s' => strings_Contains s' substr
  end.

(** [s] has [substr] somewhere inside. *)
Definition has_substring (s substr : string) : Prop :=
  exists before after : string, s = before +:+ (substr +:+ after).

(** The line feed. *)
Definition LF : string := String (Ascii.ascii_of_nat 10) EmptyString.

(** [fmt]'s [%d]. *)
Definition fmt_d (n : Z) : string := DecimalString.NilZero.string_of_int (Z.to_int n).

(** ** Reading and writing whole files *)

(** [os.ReadFile]; a read that is refused fails before any byte is read. *)
Definition os_ReadFile (w : World) (path : string) : res (list byte) :=
  match os_Open path w with
  | Err e => Err e
  | Ok f =>
      match of_data f with
      | None => Err (PathError "read" path false)
      | Some d =>
          if refuses w "read" path then Err (PathError "read" path false) else Ok d
      end
  end.

(** [os.OpenFile] for writing with [O_CREATE], and with [O_TRUNC] or
    not: an existing file keeps its mode, a new one gets [perm] less the
    umask. *)
Definition os_OpenFile (path : string) (truncate : bool) (perm : Z) (w : World)
    : World * res OsFile :=
  if refuses w "create" path then (w, Err (PathError "open" path false))
  else match files w !! path with
       | Some (DirNode _) => (w, Err (PathError "open" path false))
       | Some (FileNode m d) =>
           (set_files (<[path := FileNode m (if truncate then [] else d)]> (files w)) w,
            Ok (MkOsFile path None))
       | None =>
           (set_files (<[path := FileNode (Z.land perm (Z.lnot (umask w))) []]> (files w)) w,
            Ok (MkOsFile path None))
       end.

(** [os.WriteFile] *)
Definition os_WriteFile (path : string) (data : list byte) (perm : Z) (w : World)
    : World * option error :=
  match os_OpenFile path true perm w with
  | (w1, Err e) => (w1, Some e)
  | (w1, Ok f) => file_writer f data w1
  end.

(** ** The configuration *)

(** [AutoCopyConfig] *)
Record AutoCopyConfig : Type := MkConfig {
  Version : Z;
  Items : list AutoCopyItem;
  Files : list string
}.

(** The loop of [validatePath] over the dangerous patterns. *)
Fixpoint validatePath_loop (path : string) (dangerous : list string) : option error :=
  match dangerous with
  | [] => None
  | pattern :: rest =>
      if strings_Contains path pattern
      then Some (ErrorString ("dangerous path pattern detected: " +:+ pattern))
      else validatePath_loop path rest
  end.

(** [validatePath] *)
Definition validatePath (path : string) : option error :=
  if String.eqb path "" then Some (ErrorString "path cannot be empty")
  else validatePath_loop path [".."; "//"; "\\"].

(** [validateAutoCopyItem] *)
Definition validateAutoCopyItem (item : AutoCopyItem) (index : Z) : option error :=
  match validatePath (Path item) with
  | Some err => Some (WrapError ("item " +:+ fmt_d index) err)
  | None =>
      if match Directory item with Some _ => true | None => false end && AutoDetect item
      then Some (ErrorString ("item " +:+ fmt_d index
                              +:+ ": cannot use both directory and autoDetect options"))
      else None
  end.

Fixpoint validateFiles (files : list string) : option error :=
  match files with
  | [] => None
  | file :: rest =>
      match validatePath file with
      | Some err => Some err
      | None => validateFiles rest
      end
  end.

Fixpoint validateItems (items : list AutoCopyItem) (i : Z) : option error :=
  match items with
  | [] => None
  | item :: rest =>
      match validateAutoCopyItem item i with
      | Some err => Some err
      | None => validateItems rest (i + 1)
      end
  end.

(** [ValidateAutoCopyConfig]; [None] is the [nil] configuration. *)
Definition ValidateAutoCopyConfig (config : option AutoCopyConfig) : option error :=
  match config with
  | None => Some (ErrorString "config cannot be nil")
  | Some config =>
      if (Version config =? 0) && (0 <? length (Files config))%nat
      then validateFiles (Files config)
      else validateItems (Items config) 0
  end.

(** ** The [.gitignore] of the worktree *)

Definition gitignore_marker : string := "# Auto-copied files (added by hatcher)".

(** [for _, file := range files { ... file + "\n" ... }] added to what
    was written before. *)
Definition gitignore_lines (files : list string) (written : string) : string :=
  fold_left (fun acc file => acc +:+ (file +:+ LF)) files written.

Section Gitignore.
Context `{Platform}.

(** [LegacyAutoCopier.UpdateGitignore] *)
Definition legacy_UpdateGitignore (repoDir : string) (files : list string) (w : World)
    : World * option error :=
  if (length files =? 0)%nat then (w, None)
  else
    let gitignorePath := filepath_Join repoDir ".gitignore" in
    let existingContent :=
      match os_ReadFile w gitignorePath with
      | Ok data => String.string_of_list_byte data
      | Err _ => ""
      end in
    if strings_Contains existingContent gitignore_marker then (w, None)
    else
      let newContent :=
        if negb (String.eqb existingContent "") && negb (strings_HasSuffix existingContent LF)
        then "" +:+ LF else "" in
      let newContent := newContent +:+ (LF +:+ gitignore_marker +:+ LF) in
      let newContent := gitignore_lines files newContent in
      match os_OpenFile gitignorePath false 420 w with
      | (w1, Err err) => (w1, Some (WrapError "failed to open .gitignore" err))
      | (w1, Ok file) => file_writer file (String.list_byte_of_string newContent) w1
      end.

(** [AutoCopier.UpdateGitignore] *)
Definition UpdateGitignore (repoRoot : string) (files : list string) (w : World)
    : World * option error :=
  if (length files =? 0)%nat then (w, None)
  else
    let gitignorePath := filepath_Join repoRoot ".gitignore" in
    let existing :=
      match os_Stat w gitignorePath with
      | Ok _ =>
          match os_ReadFile w gitignorePath with
          | Ok data => data
          | Err _ => []
          end
      | Err _ => []
      end in
    let content := String.string_of_list_byte existing in
    let content :=
      if (0 <? String.length content)%nat && negb (strings_HasSuffix content LF)
      then content +:+ LF else content in
    let content := content +:+ (LF +:+ gitignore_marker +:+ LF) in
    let content := gitignore_lines files content in
    os_WriteFile gitignorePath (String.list_byte_of_string content) 420 w.

End Gitignore.

(** ** The copier of the command line *)

(** [AutoCopierOptions] *)
Record AutoCopierOptions : Type := MkAutoCopierOptions {
  NoGitignoreUpdate : bool;
  UseParallel : bool;
  ac_MaxWorkers : Z;
  ac_BufferSize : Z;
  ac_ShowProgress : bool;
  ac_VerifyIntegrity : bool
}.

(** The parallel copier [AutoCopier.runParallel] makes and runs: errors
    are continued on, the error callback is always set, the progress
    callback is set when progress is shown. *)
Definition runParallel_copier (items : list AutoCopyItem) (options : AutoCopierOptions)
    : ParallelCopier :=
  MkParallelCopier items
    (NewParallelCopier
       (MkOptions (ac_MaxWorkers options) (ac_BufferSize options) (ac_ShowProgress options)
          (ac_VerifyIntegrity options) "" true (ac_ShowProgress options) true)).

(** A path [validatePath] has nothing against. *)
Definition safe_path (path : string) : Prop :=
  path <> "" /\
  ~ has_substring path ".." /\ ~ has_substring path "//" /\ ~ has_substring path "\\".

(** The configuration is read as a list of files, not of items. *)
Definition legacy_format (config : AutoCopyConfig) : bool :=
  (Version config =? 0) && (0 <? length (Files config))%nat.

(** *** The task queue and the results channel *)

Definition done_mark (pc : WorkerPC) : list unit :=
  match pc with
  | WDone => [tt]
  | _ => []
  end.

(** The number of workers that have returned. *)
Definition finished (ws : list WorkerPC) : nat := length (flat_map done_mark ws).

(** How the task queue, its producer, the workers and [pc.results] stand
    to each other during [Run]. *)
Record queue_inv (pc : ParallelCopier) (s : State) : Prop := MkQueueInv {
  q_caps : coordinator s <> CInit ->
    cap (taskQueue s) = Z.to_nat (MaxWorkers (options pc) * 2) /\
    cap (results s) = Z.to_nat (MaxWorkers (options pc));
  q_workers : producer s <> PIdle ->
    length (workers s) = Z.to_nat (MaxWorkers (options pc));
  q_closed : closed (taskQueue s) = true <-> producer s = PClosed;
  q_results : (length (buf (results s)) <= finished (workers s))%nat;
  q_drained : ContinueOnError (options pc) = true ->
    (0 < finished (workers s))%nat ->
    producer s = PClosed /\ buf (taskQueue s) = [];
  q_aborted : ContinueOnError (options pc) = true -> tasks_aborted (trace s) = [];
  q_silent : ContinueOnError (options pc) = false -> producer s = PIdle ->
    trace s = [] /\ buf (errors s) = [];
  q_join : coordinator s = CJoin ->
    closed (progress s) = true /\ closed (errors s) = true;
  q_error : forall e, coordinator s = CReturned (Some e) ->
    producer s = PIdle /\ ContinueOnError (options pc) = false /\
    exists cause, e = WrapError "failed to discover copy tasks" cause
}.

(** The task a worker holds once [processTask] has returned. *)
Definition after_process (pc : WorkerPC) : list CopyTask :=
  match pc with
  | WFailed t _ | WCount t => [t]
  | _ => []
  end.

(** The tasks discovery finds for an item; none when it fails for it. *)
Definition item_tasks `{Platform} (options : ParallelCopyOptions) (w : World)
    (sourceDir destDir : string) (item : AutoCopyItem) : list CopyTask :=
  match discoverItemTasks options w sourceDir destDir item with
  | Ok tasks => tasks
  | Err _ => []
  end.

(** What [discoverTasks] reports for an item for which discovery fails. *)
Definition item_failure `{Platform} (options : ParallelCopyOptions) (w : World)
    (sourceDir destDir : string) (item : AutoCopyItem) : option (string * string * error) :=
  match discoverItemTasks options w sourceDir destDir item with
  | Ok _ => None
  | Err e => Some (Path item, "", e)
  end.

(** The error of the first item for which discovery fails. *)
Fixpoint first_failure `{Platform} (options : ParallelCopyOptions) (w : World)
    (sourceDir destDir : string) (items : list AutoCopyItem) : option error :=
  match items with
  | [] => None
  | item :: rest =>
      match discoverItemTasks options w sourceDir destDir item with
      | Err e => Some e
      | Ok _ => first_failure options w sourceDir destDir rest
      end
  end.

(** Where the discovered tasks are, whatever their sizes; which of them
    were processed; and what [Run] knows when it returns before it
    starts a worker. *)
Record placement_inv `{Platform} (pc : ParallelCopier) (sourceDir destDir : string)
    (w0 : World) (s : State) : Prop := MkPlacementInv {
  pl_discover : forall items tasks,
    coordinator s = CDiscover items tasks ->
    discovered_tasks (options pc) w0 sourceDir destDir items tasks
    = discovered_tasks (options pc) w0 sourceDir destDir (config_Items pc) [];
  pl_failure : forall items tasks,
    ContinueOnError (options pc) = false ->
    coordinator s = CDiscover items tasks ->
    first_failure (options pc) w0 sourceDir destDir items
    = first_failure (options pc) w0 sourceDir destDir (config_Items pc);
  pl_nothing : forall r,
    producer s = PIdle -> coordinator s = CReturned r ->
    discovered_tasks (options pc) w0 sourceDir destDir (config_Items pc) []
    = match r with
      | None => Some []
      | Some _ => None
      end;
  pl_error : forall e,
    coordinator s = CReturned (Some e) ->
    exists cause,
      e = WrapError "failed to discover copy tasks" cause /\
      first_failure (options pc) w0 sourceDir destDir (config_Items pc) = Some cause;
  pl_started : producer s <> PIdle ->
    exists ts : list CopyTask,
      discovered_tasks (options pc) w0 sourceDir destDir (config_Items pc) [] = Some ts /\
      ts ≡ₚ tasks_counted (trace s) ++ pending s ++ tasks_aborted (trace s);
  pl_processed :
    tasks_processed (trace s)
    ≡ₚ tasks_counted (trace s) ++ tasks_aborted (trace s)
         ++ flat_map after_process (workers s)
}.

(** *** What a copy leaves alone *)

(** [w'] is [w] but for the entries at the paths [ps]; no entry of [w]
    is missing from [w']; the umask and the faults are those of [w]. *)
Definition changes_only (ps : list string) (w w' : World) : Prop :=
  umask w' = umask w /\
  refuses w' = refuses w /\
  (forall p, p ∉ ps -> files w' !! p = files w !! p) /\
  (forall p, is_Some (files w !! p) -> is_Some (files w' !! p)).

(** [w'] is [w] with directories made at some of the paths [ps], where
    there was no entry, and nothing else. *)
Definition adds_directories (ps : list string) (w w' : World) : Prop :=
  umask w' = umask w /\
  refuses w' = refuses w /\
  forall p,
    files w' !! p = files w !! p \/
    (p ∈ ps /\ files w !! p = None /\ exists m, files w' !! p = Some (DirNode m)).

(** The paths [processTask] may write for a task: the destination and,
    since [os.MkdirAll] makes every directory that is missing, the
    directories above it. *)
Definition task_paths `{Platform} (t : CopyTask) : list string :=
  if IsDir t then DestPath t :: parents (DestPath t)
  else DestPath t :: filepath_Dir (DestPath t) :: parents (filepath_Dir (DestPath t)).

(** The mode [os.Create] leaves a file with. *)
Definition create_mode (w : World) (path : string) : Z :=
  match files w !! path with
  | Some (FileNode m _) => m
  | _ => Z.land 438 (Z.lnot (umask w))
  end.

(** The tasks a glob item gets from one match; none when the match cannot
    be made relative to the source directory or its discovery fails. *)
Definition match_tasks `{Platform} (w : World) (sourceDir destDir : string)
    (item : AutoCopyItem) (m : string) : list CopyTask :=
  match filepath_Rel sourceDir m with
  | Err _ => []
  | Ok relPath =>
      match discoverSinglePath w sourceDir destDir relPath item with
      | Ok tasks => tasks
      | Err _ => []
      end
  end.

(** During [Run] the file system changes at the paths of the tasks that
    were processed, and nowhere else. *)
Definition frame_inv `{Platform} (w0 : World) (s : State) : Prop :=
  changes_only (flat_map task_paths (tasks_processed (trace s))) w0 (world s).

(** *** A bound on the steps of a run *)

(** The steps a worker can still take on what it has in hand, counting
    one more for each update or error these steps may queue. *)
Definition worker_fuel (pc : WorkerPC) : nat :=
  match pc with
  | WDone => 0
  | WRange => 1
  | WReport _ _ _ _ => 3
  | WCount _ => 4
  | WFailed _ _ => 6
  | WProcess _ => 7
  end.

Definition workers_fuel (ws : list WorkerPC) : nat :=
  foldr (fun w n => worker_fuel w + n)%nat 0%nat ws.

Definition producer_fuel (p : ProducerPC) : nat :=
  match p with
  | PSending tasks => 8 * length tasks + 1
  | _ => 0
  end.

Definition handler_fuel (h : HandlerPC) : nat :=
  match h with
  | HRunning => 1
  | _ => 0
  end.

(** What is left of discovery and of all that follows it. *)
Definition discovery_fuel `{Platform} (pc : ParallelCopier) (sourceDir destDir : string)
    (w0 : World) (items : list AutoCopyItem) (tasks : list CopyTask) : nat :=
  6 + Z.to_nat (MaxWorkers (options pc))
  + 8 * (length tasks
         + length (flat_map (item_tasks (options pc) w0 sourceDir destDir) items))
  + 2 * length items.

Definition coordinator_fuel `{Platform} (pc : ParallelCopier) (sourceDir destDir : string)
    (w0 : World) (c : CoordPC) : nat :=
  match c with
  | CInit => discovery_fuel pc sourceDir destDir w0 (config_Items pc) [] + 3
  | CDiscover items tasks => discovery_fuel pc sourceDir destDir w0 items tasks
  | CWait => 3
  | CJoin => 1
  | CReturned _ => 0
  end.

(** A number that every step of every goroutine makes smaller. *)
Definition fuel `{Platform} (pc : ParallelCopier) (sourceDir destDir : string)
    (w0 : World) (s : State) : nat :=
  coordinator_fuel pc sourceDir destDir w0 (coordinator s)
  + producer_fuel (producer s) + workers_fuel (workers s)
  + 7 * length (buf (taskQueue s))
  + length (buf (progress s)) + length (buf (errors s))
  + handler_fuel (progressHandler s) + handler_fuel (errorHandler s).

(** More of the sample checkout. *)
Module Scenario.

(** Verification is on, with the checksum type the comment of the
    option also mentions. *)
Definition md5_options : ParallelCopyOptions :=
  NewParallelCopier (MkOptions 0 0 false true "md5" false false false).

(** Verification is on, with the checksum type of the defaults. *)
Definition verify_options : ParallelCopyOptions :=
  NewParallelCopier (MkOptions 0 0 false true "" false false false).

(** The checkout with an older [run.sh] at the destination. *)
Definition second_run : World :=
  MkWorld
    (<["/dst/run.sh" := FileNode 448 [Byte.x6f; Byte.x6c; Byte.x64]]>
       (<["/dst" := DirNode 493]> (files Sample.checkout)))
    18 Sample.no_faults.

(** A directory copied with what is below it. *)
Definition docs_item : AutoCopyItem := MkItem "docs" (Some true) true false false false [] [].

(** The checkout with two disk images in [docs]. *)
Definition images_checkout : World :=
  MkWorld
    (<["/src/docs/a.img" := FileNode 420 Sample.hello]>
       (<["/src/docs/b.img" := FileNode 420 Sample.hello]> (files Sample.checkout)))
    18 Sample.no_faults.

(** The platform on which the walk of [docs] reports each image with a
    size of four exbibytes, as for a sparse file. *)
Definition images_platform : Platform :=
  Sample.platform []
    [("/src/docs",
      [MkWalkEntry "/src/docs" (MkFileInfo true 4096 493) None;
       MkWalkEntry "/src/docs/a.img" (MkFileInfo false (2 ^ 62) 420) None;
       MkWalkEntry "/src/docs/b.img" (MkFileInfo false (2 ^ 62) 420) None])].

(** A missing file, a directory declared a file, and a file. *)
Definition mixed_items : list AutoCopyItem :=
  [Sample.file_item "nonexistent.txt"; Sample.file_item "docs"; Sample.file_item "notes.txt"].

End Scenario.

Module Worktree.

(** The checkout with a destination that has a [.gitignore] of one
    line, without a line feed at its end. *)
Definition ignoring : World :=
  MkWorld
    (<["/dst/.gitignore" := FileNode 420 (String.list_byte_of_string "build/")]>
       (<["/dst" := DirNode 493]> (files Sample.checkout)))
    18 Sample.no_faults.

(** The options of [hch] for a parallel run with one worker that shows
    its progress. *)
Definition parallel_cli : AutoCopierOptions :=
  MkAutoCopierOptions false true 1 0 true false.

End Worktree.

(** ** Proof automation *)

Ltac head_scrutinee t :=
  lazymatch t with
  | match ?x with _ => _ end => head_scrutinee x
  | _ => t
  end.

Ltac destruct_head Hs :=
  lazymatch type of Hs with
  | ?lhs = Some _ =>
      lazymatch lhs with
      | Some _ => fail
      | None => fail
      | _ => let x := head_scrutinee lhs in destruct x eqn:?
      end
  end.

(** Case analysis on a step: one goal for each way a goroutine can move,
    with the state after the step written out. *)
Ltac step_cases Hs :=
  unfold step in Hs;
  unfold coordinator_step, producer_step, worker_step, progress_handler_step,
    error_handler_step, discoverTasks_item, sendProgressUpdate, sendError, try_send,
    send, recv in Hs;
  repeat (destruct_head Hs; cbn beta iota zeta in Hs; try discriminate Hs);
  injection Hs as <-.

(** Projections of a state built by the setters. *)
Ltac state_simpl :=
  cbn [world now startTime taskQueue results progress errors totalTasks completedTasks
       totalBytes copiedBytes coordinator producer workers progressHandler errorHandler
       trace set_world set_now set_startTime set_taskQueue set_results set_progress
       set_errors set_totalTasks set_completedTasks set_totalBytes set_copiedBytes
       set_coordinator set_producer set_workers set_progressHandler set_errorHandler
       set_trace log set_worker d_tasks d_errors d_events
       buf cap closed make_chan chan_push close_chan] in *.

(** Boolean tests of a step, as propositions. *)
Ltac prep :=
  repeat match goal with
  | H : (_ =? _) = true |- _ => apply Z.eqb_eq in H
  | H : (_ =? _) = false |- _ => apply Z.eqb_neq in H
  | H : _ || _ = false |- _ => apply orb_false_elim in H; destruct H
  | H : _ \/ _ |- _ => destruct H
  | H : _ /\ _ |- _ => destruct H
  end.

(** Forward chaining on the hypotheses of an invariant. *)
Ltac chain :=
  repeat match goal with
  | H : _ /\ _ |- _ => destruct H
  | H : ?A \/ ?B -> _ |- _ =>
      let Hn := fresh in
      first [ assert (Hn : A) by (first [assumption | reflexivity]);
              specialize (H (or_introl Hn))
            | assert (Hn : B) by (first [assumption | reflexivity]);
              specialize (H (or_intror Hn)) ];
      clear Hn
  | H : ?x <> ?y -> _ |- _ =>
      let Hn := fresh in
      assert (Hn : x <> y) by (first [assumption | discriminate | congruence]);
      specialize (H Hn); clear Hn
  | H : ?x = ?y -> _ |- _ =>
      let Hn := fresh in
      assert (Hn : x = y) by (first [assumption | reflexivity]);
      specialize (H Hn); clear Hn
  end.

Ltac close_field :=
  first [ assumption | discriminate | reflexivity | contradiction | congruence
        | apply Forall_app; split; [assumption | repeat constructor; exact I]
        | match goal with
          | H : _ && _ = true |- _ = true => apply andb_prop in H; destruct H; assumption
          end
        | intro; chain; first [contradiction | discriminate | congruence]
        | idtac ].

Create Rewrite HintDb trace.

(** Reading a trace that grew by the events of one step. *)
Ltac trace_simpl :=
  autorewrite with trace;
  cbn [progress_queued progress_delivered progress_sent errors_queued
       errors_delivered errors_sent errors_dropped errors_of_workers tasks_failed
       tasks_processed tasks_succeeded tasks_counted tasks_due tasks_aborted
       omap list_omap negb];
  rewrite ?app_nil_r.

Ltac known :=
  repeat match goal with
    | H : ?x = true |- context [?x] => rewrite H
    | H : ?x = false |- context [?x] => rewrite H
    | H : coordinator ?s = _ |- context [coordinator ?s] => rewrite H
    | H : buf ?c = _ |- context [buf ?c] => rewrite H
    end;
  cbn [andb orb negb].

Ltac solve_field :=
  known; intros; prep;
  repeat match goal with
    | |- context [if ?b then _ else _] => destruct b eqn:?
    | H : context [if ?b then _ else _] |- _ => destruct b eqn:?
    end;
  prep; cbn [handler_running andb] in *;
  try discriminate;
  chain;
  repeat match goal with
    | |- context [match coordinator ?s with _ => _ end] => destruct (coordinator s) eqn:?
    | H : context [match coordinator ?s with _ => _ end] |- _ => destruct (coordinator s) eqn:?
    end;
  cbn [handler_running] in *;
  chain; try contradiction; try discriminate;
  repeat split; close_field.

(** * Properties *)

(** ** Integers, bytes and chunks *)

Lemma wrap64_small (x : Z) : in_int64 x -> wrap64 x = x.
Proof.
  unfold in_int64, wrap64. intros Hx.
  rewrite Z.mod_small by lia. lia.
Qed.

Lemma equalBytes_loop_refl (a : list byte) : equalBytes_loop a a = true.
Proof.
  induction a as [|x a IH]; simpl; [reflexivity|].
  rewrite (Byte.byte_dec_lb (eq_refl x)). exact IH.
Qed.

Lemma equalBytes_loop_eq (a b : list byte) :
  length a = length b -> equalBytes_loop a b = true -> a = b.
Proof.
  revert b. induction a as [|x a IH]; intros [|y b] Hlen Heq; simpl in *; try discriminate.
  - reflexivity.
  - destruct (Byte.eqb x y) eqn:Hxy; [|discriminate].
    apply Byte.byte_dec_bl in Hxy. subst y. f_equal. apply IH; [lia | exact Heq].
Qed.

(** [equalBytes] is equality of the two slices, byte for byte. *)
Lemma equalBytes_spec (a b : list byte) : equalBytes a b = true <-> a = b.
Proof.
  unfold equalBytes. split.
  - destruct (length a =? length b)%nat eqn:Hlen; simpl; [|discriminate].
    apply Nat.eqb_eq in Hlen. apply equalBytes_loop_eq. exact Hlen.
  - intros ->. rewrite Nat.eqb_refl. simpl. apply equalBytes_loop_refl.
Qed.

Lemma chunks_aux_concat {A} (n : nat) (fuel : nat) (l : list A) :
  (0 < n)%nat -> (length l <= fuel)%nat -> concat (chunks_aux fuel n l) = l.
Proof.
  intros Hn. revert l. induction fuel as [|fuel IH]; intros l Hl.
  - destruct l; [reflexivity | simpl in Hl; lia].
  - destruct l as [|x l]; [reflexivity|].
    cbn [chunks_aux concat]. rewrite IH.
    + apply take_drop.
    + rewrite length_drop. simpl in *. lia.
Qed.

(** Read through a buffer that is not empty, a file comes in pieces that
    make up its content. *)
Lemma chunks_concat {A} (n : nat) (l : list A) : (0 < n)%nat -> concat (chunks n l) = l.
Proof. intros Hn. apply chunks_aux_concat; [exact Hn | lia]. Qed.

(** ** Copying with verification *)

(** The streaming pass over the pieces still to be read: when it ends
    without error, both hashers were fed exactly those pieces and the
    destination file grew by them. *)
Lemma hashed_pass_pieces (hs hd : Hash) (src : string) (destFile : OsFile) (m : Z)
    (pieces : list (list byte)) :
  forall (s s' : HashedCopy hs hd) (d0 : list byte),
    files (hc_world s) !! of_path destFile = Some (FileNode m d0) ->
    io_CopyBuffer
      (io_MultiWriter (on_world_writer (file_writer destFile)) dest_hash_writer)
      (io_TeeReader
         (on_world_reader
            (map (fun p w => if refuses w "read" src
                             then (w, ReadFail (PathError "read" src false))
                             else (w, Data p)) pieces))
         source_hash_writer) s = (s', None) ->
    hc_source s' = fold_left (h_write hs) pieces (hc_source s) /\
    hc_dest s' = fold_left (h_write hd) pieces (hc_dest s) /\
    files (hc_world s') !! of_path destFile = Some (FileNode m (d0 ++ concat pieces)).
Proof.
  unfold io_TeeReader, on_world_reader, io_MultiWriter, on_world_writer,
    source_hash_writer, dest_hash_writer, file_writer.
  induction pieces as [|p pieces IH]; intros s s' d0 Hdest Hrun.
  - simpl in Hrun. injection Hrun as <-. simpl. rewrite app_nil_r. auto.
  - cbn [map io_CopyBuffer hc_world hc_source hc_dest] in Hrun.
    destruct (refuses (hc_world s) "read" src) eqn:Hread; [discriminate|].
    cbn [hc_world hc_source hc_dest] in Hrun.
    destruct (refuses (hc_world s) "write" (of_path destFile)); [discriminate|].
    rewrite Hdest in Hrun. cbn [hc_world hc_source hc_dest] in Hrun.
    apply IH with (d0 := d0 ++ p) in Hrun.
    + cbn [hc_world hc_source hc_dest] in Hrun.
      destruct Hrun as (Hs & Hd & Hw). simpl. rewrite Hs, Hd, Hw.
      rewrite <- app_assoc. auto.
    + cbn [hc_world set_files files]. apply lookup_insert_eq.
Qed.

(** The comparison of the digests, for any two hashers.  When the
    streaming pass of a verified copy ends without an I/O error, the copy
    fails with the integrity error exactly when the digest of the pieces
    read from the source differs from the digest of the pieces written to
    the destination, both hashers having been fed during that one pass;
    whatever the verdict, the file system is left as the pass left it,
    the destination file holding the bytes written. *)
Theorem copyWithHashes_integrity (sourceHash destHash : Hash) (bufsize : nat)
    (sourceFile destFile : OsFile) (w : World) (m : Z)
    (s : HashedCopy sourceHash destHash) :
  (0 < bufsize)%nat ->
  files w !! of_path destFile = Some (FileNode m []) ->
  hashedCopyPass sourceHash destHash bufsize sourceFile destFile w = (s, None) ->
  exists read written : list (list byte),
    of_data sourceFile = Some (concat read) /\
    files (hc_world s) !! of_path destFile = Some (FileNode m (concat written)) /\
    h_sum sourceHash (hc_source s) = digest sourceHash read /\
    h_sum destHash (hc_dest s) = digest destHash written /\
    (snd (copyWithHashes sourceHash destHash bufsize sourceFile destFile w)
       = Some integrity_error
     <-> digest sourceHash read <> digest destHash written) /\
    fst (copyWithHashes sourceHash destHash bufsize sourceFile destFile w) = hc_world s.
Proof.
  intros Hbuf Hdest Hpass.
  unfold copyWithHashes. rewrite Hpass.
  unfold hashedCopyPass, file_reader in Hpass.
  destruct (of_data sourceFile) as [d|] eqn:Hdata.
  - apply hashed_pass_pieces with (m := m) (d0 := []) in Hpass; [|exact Hdest].
    cbn [hc_world hc_source hc_dest] in Hpass. destruct Hpass as (Hs & Hd & Hw).
    exists (chunks bufsize d), (chunks bufsize d).
    rewrite chunks_concat by exact Hbuf.
    unfold digest. rewrite <- Hs, <- Hd.
    repeat split; try reflexivity.
    + rewrite Hw. simpl. rewrite chunks_concat by exact Hbuf. reflexivity.
    + destruct (equalBytes _ _) eqn:Heq; simpl; [discriminate|].
      intros _ Habs. apply equalBytes_spec in Habs. congruence.
    + intros Hne. destruct (equalBytes _ _) eqn:Heq; simpl; [|reflexivity].
      apply equalBytes_spec in Heq. contradiction.
    + destruct (negb _); reflexivity.
  - simpl in Hpass. discriminate.
Qed.

(** An instance: [run.sh] read through a two-byte buffer, hashed by two
    different hashers. *)
Lemma copyWithHashes_integrity_witness :
  exists read written : list (list byte),
    of_data Sample.run_sh = Some (concat read) /\
    files (hc_world (fst (hashedCopyPass Sample.identity_hash Sample.length_hash 2
                            Sample.run_sh Sample.dest_run_sh Sample.dest_created)))
      !! of_path Sample.dest_run_sh = Some (FileNode 420 (concat written)) /\
    h_sum Sample.identity_hash
      (hc_source (fst (hashedCopyPass Sample.identity_hash Sample.length_hash 2
                         Sample.run_sh Sample.dest_run_sh Sample.dest_created)))
      = digest Sample.identity_hash read /\
    h_sum Sample.length_hash
      (hc_dest (fst (hashedCopyPass Sample.identity_hash Sample.length_hash 2
                       Sample.run_sh Sample.dest_run_sh Sample.dest_created)))
      = digest Sample.length_hash written /\
    (snd (copyWithHashes Sample.identity_hash Sample.length_hash 2
            Sample.run_sh Sample.dest_run_sh Sample.dest_created) = Some integrity_error
     <-> digest Sample.identity_hash read <> digest Sample.length_hash written) /\
    fst (copyWithHashes Sample.identity_hash Sample.length_hash 2
           Sample.run_sh Sample.dest_run_sh Sample.dest_created)
      = hc_world (fst (hashedCopyPass Sample.identity_hash Sample.length_hash 2
                         Sample.run_sh Sample.dest_run_sh Sample.dest_created)).
Proof.
  apply (copyWithHashes_integrity Sample.identity_hash Sample.length_hash 2
           Sample.run_sh Sample.dest_run_sh Sample.dest_created 420).
  - lia.
  - vm_compute. reflexivity.
  - vm_compute. reflexivity.
Defined.

(** In that instance the digests differ: the copy fails with the
    integrity error and the destination keeps the five bytes written. *)
Example copyWithHashes_mismatch_leaves_file :
  snd (copyWithHashes Sample.identity_hash Sample.length_hash 2
         Sample.run_sh Sample.dest_run_sh Sample.dest_created) = Some integrity_error /\
  files (fst (copyWithHashes Sample.identity_hash Sample.length_hash 2
                Sample.run_sh Sample.dest_run_sh Sample.dest_created)) !! "/dst/run.sh"
    = Some (FileNode 420 Sample.hello).
Proof. split; vm_compute; reflexivity. Qed.

(** With one hasher on both sides, as [copyWithVerification] sets them
    up, the two running hashes stay equal through the pass. *)
Lemma hashed_pass_same_hasher (h : Hash) (destFile : OsFile)
    (r : reader World) :
  forall s s' : HashedCopy h h,
    hc_source s = hc_dest s ->
    io_CopyBuffer
      (io_MultiWriter (on_world_writer (file_writer destFile)) dest_hash_writer)
      (io_TeeReader (on_world_reader r) source_hash_writer) s = (s', None) ->
    hc_source s' = hc_dest s'.
Proof.
  unfold io_TeeReader, on_world_reader, io_MultiWriter, on_world_writer,
    source_hash_writer, dest_hash_writer.
  induction r as [|rd r IH]; intros s s' Hsync Hrun.
  - simpl in Hrun. injection Hrun as <-. exact Hsync.
  - cbn [map io_CopyBuffer] in Hrun.
    destruct (rd (hc_world s)) as [w1 [p|e]]; [|discriminate].
    cbn [hc_world hc_source hc_dest] in Hrun.
    destruct (file_writer destFile p w1) as [w2 [e|]]; [discriminate|].
    apply IH in Hrun; [exact Hrun|].
    cbn [hc_source hc_dest]. rewrite Hsync. reflexivity.
Qed.

(** Hence [copyWithVerification] itself never reports a mismatch: its two
    digests are computed by the same hasher from the same pieces. *)
Lemma copyWithVerification_no_mismatch `{Platform} (options : ParallelCopyOptions)
    (sourceFile destFile : OsFile) (w : World) :
  snd (copyWithVerification options sourceFile destFile w) <> Some integrity_error.
Proof.
  unfold copyWithVerification.
  destruct (String.eqb (ChecksumType options) "sha256"); [|simpl; discriminate].
  unfold copyWithHashes.
  destruct (hashedCopyPass _ _ _ _ _ _) as [s [e|]] eqn:Hpass; [simpl; discriminate|].
  unfold hashedCopyPass in Hpass.
  apply hashed_pass_same_hasher in Hpass; [|reflexivity].
  rewrite Hpass.
  destruct (equalBytes _ _) eqn:Heq; simpl; [discriminate|].
  exfalso. assert (Hrefl := proj2 (equalBytes_spec (h_sum sha256_New (hc_dest s)) _) eq_refl).
  congruence.
Qed.

Section VerifiedCopy.
Context `{Platform}.

(** The pass of a verified copy that ends without an I/O error, in the
    pieces the source is read in. *)
Lemma hashedCopyPass_done (sourceHash destHash : Hash) (bufsize : nat)
    (sourceFile destFile : OsFile) (w : World) (m : Z)
    (s : HashedCopy sourceHash destHash) :
  (0 < bufsize)%nat ->
  files w !! of_path destFile = Some (FileNode m []) ->
  hashedCopyPass sourceHash destHash bufsize sourceFile destFile w = (s, None) ->
  exists d : list byte,
    of_data sourceFile = Some d /\
    files (hc_world s) !! of_path destFile = Some (FileNode m d) /\
    h_sum sourceHash (hc_source s) = digest sourceHash (chunks bufsize d) /\
    h_sum destHash (hc_dest s) = digest destHash (chunks bufsize d).
Proof.
  intros Hbuf Hdest Hpass. unfold hashedCopyPass, file_reader in Hpass.
  destruct (of_data sourceFile) as [d|] eqn:Hdata; [|simpl in Hpass; discriminate].
  apply hashed_pass_pieces with (m := m) (d0 := []) in Hpass; [|exact Hdest].
  cbn [hc_world hc_source hc_dest] in Hpass. destruct Hpass as (Hs & Hd & Hw).
  exists d. rewrite chunks_concat in Hw by exact Hbuf. cbn [app] in Hw.
  unfold digest. rewrite Hs, Hd. auto.
Qed.

(** The pass goes the same way whatever the hashers: they do not touch
    the file system and never fail. *)
Lemma hashed_pass_any (hs hd hs' hd' : Hash) (destFile : OsFile) (r : reader World) :
  forall (s s' : HashedCopy hs hd) (t : HashedCopy hs' hd') (e : option error),
    hc_world s = hc_world t ->
    io_CopyBuffer
      (io_MultiWriter (on_world_writer (file_writer destFile)) dest_hash_writer)
      (io_TeeReader (on_world_reader r) source_hash_writer) s = (s', e) ->
    exists t' : HashedCopy hs' hd',
      io_CopyBuffer
        (io_MultiWriter (on_world_writer (file_writer destFile)) dest_hash_writer)
        (io_TeeReader (on_world_reader r) source_hash_writer) t = (t', e) /\
      hc_world t' = hc_world s'.
Proof.
  unfold io_TeeReader, on_world_reader, io_MultiWriter, on_world_writer,
    source_hash_writer, dest_hash_writer.
  induction r as [|rd r IH]; intros s s' t e Hw Hrun.
  - simpl in Hrun. injection Hrun as <- <-. exists t. split; [reflexivity | congruence].
  - cbn [map io_CopyBuffer] in *. rewrite <- Hw.
    destruct (rd (hc_world s)) as [w1 [p|err]].
    + cbn [hc_world hc_source hc_dest] in *.
      destruct (file_writer destFile p w1) as [w2 [err|]].
      * injection Hrun as <- <-. eexists. split; reflexivity.
      * eapply IH; [|exact Hrun]. reflexivity.
    + injection Hrun as <- <-. eexists. split; reflexivity.
Qed.


End VerifiedCopy.


(** ** Permission bits *)

(** C7, on the parallel copier.  [run.sh] has mode [0755]; copied by
    [ParallelCopier.copyFile] under umask [022], the task succeeds and the
    destination is left with mode [0644]: the source's permission bits are
    not copied, and no [os.Chmod] is attempted. *)
Example copyFile_keeps_create_mode :
  files Sample.checkout !! "/src/run.sh" = Some (FileNode 493 Sample.hello) /\
  snd (copyFile (H := Sample.platform [] []) Sample.default_options
         "/src/run.sh" "/dst/run.sh" Sample.checkout) = None /\
  files (fst (copyFile (H := Sample.platform [] []) Sample.default_options
                "/src/run.sh" "/dst/run.sh" Sample.checkout)) !! "/dst/run.sh"
    = Some (FileNode 420 Sample.hello).
Proof. repeat split; vm_compute; reflexivity. Qed.

(** The sequential copier on the same input does copy them. *)
Example legacy_copyFile_copies_mode :
  snd (legacy_copyFile (H := Sample.platform [] [])
         "/src/run.sh" "/dst/run.sh" Sample.checkout) = None /\
  files (fst (legacy_copyFile (H := Sample.platform [] [])
                "/src/run.sh" "/dst/run.sh" Sample.checkout)) !! "/dst/run.sh"
    = Some (FileNode 493 Sample.hello).
Proof. split; vm_compute; reflexivity. Qed.

(** When the kernel refuses the [chmod], the sequential copier still
    reports success. *)
Example legacy_copyFile_chmod_refused :
  let w := MkWorld (files Sample.checkout) 18
             (fun op path => String.eqb op "chmod") in
  snd (legacy_copyFile (H := Sample.platform [] []) "/src/run.sh" "/dst/run.sh" w) = None /\
  files (fst (legacy_copyFile (H := Sample.platform [] []) "/src/run.sh" "/dst/run.sh" w))
    !! "/dst/run.sh" = Some (FileNode 420 Sample.hello).
Proof. split; vm_compute; reflexivity. Qed.

(** ** Discovery *)

Section Discovery.
Context `{Platform}.

(** C2, as the code has it.  When the source of a path does not exist,
    [discoverSinglePath] yields no task and no error if the item has
    [autoDetect] set, and fails with the wrapped [stat] error otherwise.
    For an item that is not a glob, whose own path this is, one iteration
    of [discoverTasks] then leaves tasks and error channel untouched in
    the first case, and in the second either fails (errors not continued
    on) or offers the error to the error channel and goes on without a
    task.  For a glob item, of which this is the path of a match, the
    loop over the matches goes on to the next match without a task and
    without a report, except that it fails with the error when
    [autoDetect] is not set and errors are not continued on. *)
Theorem discoverSinglePath_missing_source (options : ParallelCopyOptions) (w : World)
    (sourceDir destDir relativePath : string) (item : AutoCopyItem) (err : error)
    (now : nat) (tasks : list CopyTask) (errors : chan CopyError) :
  os_Stat w (filepath_Join sourceDir relativePath) = Err err ->
  os_IsNotExist err = true ->
  let failure := WrapError ("failed to stat " +:+ filepath_Join sourceDir relativePath) err in
  discoverSinglePath w sourceDir destDir relativePath item
    = (if AutoDetect item then Ok [] else Err failure) /\
  (UseGlob item = false -> relativePath = Path item ->
   discoverTasks_item options w sourceDir destDir now item tasks errors
     = if AutoDetect item then Ok (MkDiscovery tasks errors [])
       else if ContinueOnError options
            then Ok (MkDiscovery tasks
                       (fst (try_send (MkCopyError (Path item) "" failure now) errors))
                       [EvSendError None (MkCopyError (Path item) "" failure now)
                          (negb (chan_full errors))])
            else Err failure) /\
  (forall (m : string) (rest : list string),
     filepath_Rel sourceDir m = Ok relativePath ->
     discoverGlobMatches options w sourceDir destDir item (m :: rest) tasks
     = if AutoDetect item || ContinueOnError options
       then discoverGlobMatches options w sourceDir destDir item rest tasks
       else Err failure).
Proof.
  intros Hstat Hne failure.
  assert (Hsingle : discoverSinglePath w sourceDir destDir relativePath item
                    = (if AutoDetect item then Ok [] else Err failure)).
  { unfold discoverSinglePath. rewrite Hstat, Hne. simpl.
    destruct (AutoDetect item); reflexivity. }
  split; [exact Hsingle|]. split.
  - intros Hglob Hpath. unfold discoverTasks_item, discoverItemTasks.
    rewrite Hglob, <- Hpath, Hsingle.
    destruct (AutoDetect item); simpl.
    + rewrite app_nil_r. reflexivity.
    + destruct (ContinueOnError options); reflexivity.
  - intros m rest Hrel. cbn [discoverGlobMatches]. rewrite Hrel, Hsingle.
    destruct (AutoDetect item); cbn [orb].
    + rewrite app_nil_r. reflexivity.
    + destruct (ContinueOnError options); reflexivity.
Qed.

(** C6, as the code has it.  For an item that is not a glob and whose
    declared kind conflicts with the entry found, [discoverSinglePath]
    fails with the error describing the mismatch.  One iteration of
    [discoverTasks] then fails with it when errors are not continued on;
    otherwise it adds no task, offers the error to the error channel
    (queued unless the channel is full) and the loop goes on with the
    remaining items. *)
Theorem discoverTasks_kind_mismatch (options : ParallelCopyOptions) (w : World)
    (sourceDir destDir : string) (item : AutoCopyItem) (info : FileInfo)
    (now : nat) (rest : list AutoCopyItem) (d : Discovery) :
  UseGlob item = false ->
  os_Stat w (filepath_Join sourceDir (Path item)) = Ok info ->
  kind_conflict item info = true ->
  let failure := mismatch_error info (filepath_Join sourceDir (Path item)) in
  let report := MkCopyError (Path item) "" failure now in
  discoverSinglePath w sourceDir destDir (Path item) item = Err failure /\
  (ContinueOnError options = false ->
   discoverTasks_loop options w sourceDir destDir now (item :: rest) d = Err failure) /\
  (ContinueOnError options = true ->
   discoverTasks_loop options w sourceDir destDir now (item :: rest) d
     = discoverTasks_loop options w sourceDir destDir (S now) rest
         (MkDiscovery (d_tasks d)
            (if chan_full (d_errors d) then d_errors d else chan_push report (d_errors d))
            (d_events d ++ [EvSendError None report (negb (chan_full (d_errors d)))]))).
Proof.
  intros Hglob Hstat Hconf failure report.
  assert (Hsingle : discoverSinglePath w sourceDir destDir (Path item) item = Err failure).
  { unfold discoverSinglePath, failure, mismatch_error. rewrite Hstat.
    unfold kind_conflict in Hconf.
    destruct (Directory item) as [[|]|], (fi_IsDir info); simpl in Hconf;
      try discriminate; reflexivity. }
  split; [exact Hsingle|].
  split; intros Hcont; cbn [discoverTasks_loop];
    unfold discoverTasks_item, discoverItemTasks; rewrite Hglob, Hsingle, Hcont.
  - reflexivity.
  - reflexivity.
Qed.

End Discovery.

(** An instance of C2: an auto-detected item whose source is missing. *)
Lemma discoverSinglePath_missing_source_witness :
  discoverSinglePath (H := Sample.platform [] []) Sample.checkout "/src" "/dst"
    "nonexistent.txt" (Sample.autodetect_item "nonexistent.txt") = Ok [].
Proof.
  exact (proj1 (discoverSinglePath_missing_source (H := Sample.platform [] [])
                  Sample.default_options Sample.checkout "/src" "/dst" "nonexistent.txt"
                  (Sample.autodetect_item "nonexistent.txt")
                  (PathError "stat" "/src/nonexistent.txt" true) 0 [] (make_chan 100)
                  eq_refl eq_refl)).
Defined.

(** Against C2 as stated: an item declared a file, without [autoDetect],
    whose source path does not exist; discovery returns an error. *)
Lemma discovery_fails_on_missing_source :
  os_Stat Sample.checkout "/src/nonexistent.txt"
    = Err (PathError "stat" "/src/nonexistent.txt" true) /\
  discoverTasks (H := Sample.platform [] []) Sample.default_options Sample.checkout
    "/src" "/dst" 0 [Sample.file_item "nonexistent.txt"] (make_chan 100)
    = Err (WrapError "failed to stat /src/nonexistent.txt"
             (PathError "stat" "/src/nonexistent.txt" true)).
Proof. split; vm_compute; reflexivity. Qed.

(** An instance of C6: [docs] is a directory and is declared a file. *)
Lemma discoverTasks_kind_mismatch_witness :
  discoverSinglePath (H := Sample.platform [] []) Sample.checkout "/src" "/dst"
    "docs" (Sample.file_item "docs")
    = Err (ErrorString "expected file but found directory: /src/docs").
Proof.
  exact (proj1 (discoverTasks_kind_mismatch (H := Sample.platform [] [])
                  Sample.continue_options Sample.checkout "/src" "/dst"
                  (Sample.file_item "docs") (MkFileInfo true 4096 493) 0
                  [Sample.file_item "notes.txt"] (MkDiscovery [] (make_chan 100) [])
                  eq_refl eq_refl eq_refl)).
Defined.

(** Against C6 as stated: the glob [*], declared to match files, also
    matches the directory [docs].  With errors continued on, the
    conflicting match is passed over, the other match of the same item is
    kept, and nothing is sent to the error channel. *)
Lemma glob_mismatch_is_not_reported :
  discoverSinglePath (H := Sample.star_platform) Sample.checkout "/src" "/dst"
    "docs" (Sample.glob_file_item "*")
    = Err (ErrorString "expected file but found directory: /src/docs") /\
  discoverTasks (H := Sample.star_platform) Sample.continue_options Sample.checkout
    "/src" "/dst" 0 [Sample.glob_file_item "*"] (make_chan 100)
    = Ok (MkDiscovery [MkCopyTask "/src/notes.txt" "/dst/notes.txt" false 5]
            (make_chan 100) []).
Proof. split; vm_compute; reflexivity. Qed.

(** ** The run as a transition system *)

(** Each reading of a trace distributes over the events of a step. *)
Lemma progress_delivered_app (tr1 tr2 : list Event) :
  progress_delivered (tr1 ++ tr2) = progress_delivered tr1 ++ progress_delivered tr2.
Proof. apply omap_app. Qed.

Lemma progress_queued_app (tr1 tr2 : list Event) :
  progress_queued (tr1 ++ tr2) = progress_queued tr1 ++ progress_queued tr2.
Proof. apply omap_app. Qed.

Lemma progress_sent_app (tr1 tr2 : list Event) :
  progress_sent (tr1 ++ tr2) = progress_sent tr1 ++ progress_sent tr2.
Proof. apply omap_app. Qed.

Lemma errors_delivered_app (tr1 tr2 : list Event) :
  errors_delivered (tr1 ++ tr2) = errors_delivered tr1 ++ errors_delivered tr2.
Proof. apply omap_app. Qed.

Lemma errors_sent_app (tr1 tr2 : list Event) :
  errors_sent (tr1 ++ tr2) = errors_sent tr1 ++ errors_sent tr2.
Proof. apply omap_app. Qed.

Lemma errors_queued_app (tr1 tr2 : list Event) :
  errors_queued (tr1 ++ tr2) = errors_queued tr1 ++ errors_queued tr2.
Proof. apply omap_app. Qed.

Lemma errors_dropped_app (tr1 tr2 : list Event) :
  errors_dropped (tr1 ++ tr2) = errors_dropped tr1 ++ errors_dropped tr2.
Proof. apply omap_app. Qed.

Lemma errors_of_workers_app (tr1 tr2 : list Event) :
  errors_of_workers (tr1 ++ tr2) = errors_of_workers tr1 ++ errors_of_workers tr2.
Proof. apply omap_app. Qed.

Lemma tasks_failed_app (tr1 tr2 : list Event) :
  tasks_failed (tr1 ++ tr2) = tasks_failed tr1 ++ tasks_failed tr2.
Proof. apply omap_app. Qed.

Lemma tasks_processed_app (tr1 tr2 : list Event) :
  tasks_processed (tr1 ++ tr2) = tasks_processed tr1 ++ tasks_processed tr2.
Proof. apply omap_app. Qed.

Lemma tasks_succeeded_app (tr1 tr2 : list Event) :
  tasks_succeeded (tr1 ++ tr2) = tasks_succeeded tr1 ++ tasks_succeeded tr2.
Proof. apply omap_app. Qed.

Lemma tasks_counted_app (tr1 tr2 : list Event) :
  tasks_counted (tr1 ++ tr2) = tasks_counted tr1 ++ tasks_counted tr2.
Proof. apply omap_app. Qed.

Lemma tasks_aborted_app (tr1 tr2 : list Event) :
  tasks_aborted (tr1 ++ tr2) = tasks_aborted tr1 ++ tasks_aborted tr2.
Proof. apply omap_app. Qed.

Lemma tasks_due_app (c : bool) (tr1 tr2 : list Event) :
  tasks_due c (tr1 ++ tr2) = tasks_due c tr1 ++ tasks_due c tr2.
Proof. apply omap_app. Qed.

#[local] Hint Rewrite
  progress_delivered_app progress_queued_app progress_sent_app errors_delivered_app
  errors_sent_app errors_queued_app errors_dropped_app errors_of_workers_app
  tasks_failed_app tasks_processed_app tasks_succeeded_app tasks_counted_app
  tasks_aborted_app tasks_due_app : trace.

Lemma all_done_lookup (ws : list WorkerPC) (i : nat) (w : WorkerPC) :
  forallb is_done ws = true -> ws !! i = Some w -> w = WDone.
Proof.
  intros Hall Hi. rewrite forallb_forall in Hall.
  assert (Hin : In w ws) by (apply list_elem_of_In; eapply list_elem_of_lookup_2; eauto).
  apply Hall in Hin. destruct w; try discriminate. reflexivity.
Qed.

Lemma producer_idle_dec (s : State) : producer s = PIdle \/ producer s <> PIdle.
Proof. destruct (producer s); [left | right | right]; congruence. Qed.

Lemma discovery_events_app (l1 l2 : list Event) :
  Forall discovery_event l1 -> Forall discovery_event l2 -> Forall discovery_event (l1 ++ l2).
Proof. intros. apply Forall_app; auto. Qed.


(** *** Lists of workers and sums of sizes *)

(** Replacing worker [i] changes a per-worker collection only by what
    that worker contributes. *)
Lemma flat_map_insert {A} (f : WorkerPC -> list A) (ws : list WorkerPC) (i : nat)
    (w w' : WorkerPC) :
  ws !! i = Some w ->
  exists R : list A,
    flat_map f ws ≡ₚ f w ++ R /\ flat_map f (<[i := w']> ws) ≡ₚ f w' ++ R.
Proof.
  intros Hi. exists (flat_map f (take i ws) ++ flat_map f (drop (S i) ws)).
  assert (Hlt : (i < length ws)%nat) by (eapply lookup_lt_Some; eauto).
  split.
  - rewrite <- (take_drop_middle ws i w Hi) at 1.
    rewrite flat_map_app. simpl. rewrite !app_assoc.
    apply Permutation_app_tail, Permutation_app_comm.
  - rewrite insert_take_drop by exact Hlt.
    rewrite flat_map_app. simpl. rewrite !app_assoc.
    apply Permutation_app_tail, Permutation_app_comm.
Qed.

Lemma flat_map_insert_same {A} (f : WorkerPC -> list A) (ws : list WorkerPC) (i : nat)
    (w w' : WorkerPC) :
  ws !! i = Some w -> f w' = f w -> flat_map f (<[i := w']> ws) ≡ₚ flat_map f ws.
Proof.
  intros Hi Hf. destruct (flat_map_insert f ws i w w' Hi) as (R & H1 & H2).
  rewrite H1, H2, Hf. reflexivity.
Qed.

Lemma flat_map_insert_take {A} (f : WorkerPC -> list A) (ws : list WorkerPC) (i : nat)
    (w w' : WorkerPC) (x : A) :
  ws !! i = Some w -> f w = [] -> f w' = [x] ->
  flat_map f (<[i := w']> ws) ≡ₚ x :: flat_map f ws.
Proof.
  intros Hi Hf Hf'. destruct (flat_map_insert f ws i w w' Hi) as (R & H1 & H2).
  rewrite H1, H2, Hf, Hf'. reflexivity.
Qed.

Lemma flat_map_insert_drop {A} (f : WorkerPC -> list A) (ws : list WorkerPC) (i : nat)
    (w w' : WorkerPC) (x : A) :
  ws !! i = Some w -> f w = [x] -> f w' = [] ->
  flat_map f ws ≡ₚ x :: flat_map f (<[i := w']> ws).
Proof.
  intros Hi Hf Hf'. destruct (flat_map_insert f ws i w w' Hi) as (R & H1 & H2).
  rewrite H1, H2, Hf, Hf'. reflexivity.
Qed.

Lemma flat_map_replicate_nil {A} (f : WorkerPC -> list A) (n : nat) (w : WorkerPC) :
  f w = [] -> flat_map f (replicate n w) = [].
Proof. intros Hf. induction n as [|n IH]; simpl; [reflexivity|]. rewrite Hf, IH. reflexivity. Qed.

Lemma total_size_app (a b : list CopyTask) :
  total_size (a ++ b) = total_size a + total_size b.
Proof. induction a as [|t a IH]; simpl; [reflexivity|]. rewrite IH. lia. Qed.

Lemma total_size_perm (a b : list CopyTask) : a ≡ₚ b -> total_size a = total_size b.
Proof. induction 1; simpl; lia. Qed.

Lemma total_size_nonneg (a : list CopyTask) :
  Forall (fun t => 0 <= Size t) a -> 0 <= total_size a.
Proof. induction 1; simpl; lia. Qed.

Lemma sum_sizes_total (tasks : list CopyTask) (acc : Z) :
  Forall (fun t => 0 <= Size t) tasks -> 0 <= acc -> acc + total_size tasks < 2 ^ 63 ->
  sum_sizes tasks acc = acc + total_size tasks.
Proof.
  unfold sum_sizes. intros Hall. revert acc.
  induction Hall as [|t tasks Ht Hall IH]; intros acc Hacc Hfit; simpl in *; [lia|].
  pose proof (total_size_nonneg _ Hall) as Hnn.
  unfold int64_add. rewrite wrap64_small by (unfold in_int64; lia).
  rewrite IH by lia. lia.
Qed.

(** During discovery no task is touched and no progress is sent. *)
Lemma discovery_quiet (tr : list Event) :
  Forall discovery_event tr ->
  progress_queued tr = [] /\ progress_sent tr = [] /\ tasks_processed tr = [] /\
  tasks_failed tr = [] /\ tasks_counted tr = [] /\ tasks_aborted tr = [] /\
  errors_of_workers tr = [] /\ forall c, tasks_due c tr = [].
Proof.
  induction 1 as [|ev tr Hev _ IH]; [repeat split; reflexivity|].
  destruct IH as (H1 & H2 & H3 & H4 & H5 & H6 & H7 & H8).
  change (ev :: tr) with ([ev] ++ tr). autorewrite with trace.
  rewrite H1, H2, H3, H4, H5, H6, H7.
  destruct ev as [[?|] ? ?| | | | | |]; try contradiction; repeat split; try reflexivity.
  - intros c. rewrite tasks_due_app, H8. reflexivity.
  - intros c. rewrite tasks_due_app, H8. reflexivity.
Qed.

Section Engine.
Context `{Platform}.
Variable pc : ParallelCopier.
Variables sourceDir destDir : string.
Variable w0 : World.

(** An invariant of the steps holds after every schedule. *)
Lemma exec_invariant (Inv : State -> Prop) :
  (forall a s s', Inv s -> step pc sourceDir destDir a s = Some s' -> Inv s') ->
  forall sched s s', Inv s -> exec pc sourceDir destDir sched s = Some s' -> Inv s'.
Proof.
  intros Hstep. induction sched as [|a sched IH]; intros s s' Hs Hexec; simpl in Hexec.
  - injection Hexec as <-. exact Hs.
  - destruct (step pc sourceDir destDir a s) as [s1|] eqn:Ha; [|discriminate].
    eapply IH; [|exact Hexec]. eapply Hstep; eauto.
Qed.

Lemma phase_inv_initial : phase_inv pc w0 (initial_state w0).
Proof.
  constructor; cbn; intros; repeat split;
    solve [ tauto | congruence | constructor | intuition discriminate ].
Qed.

(** A worker that has not returned is a worker of a run that waits for
    its workers: the channels are open and the handlers have not
    exited. *)
Lemma worker_running (s : State) (i : nat) (w : WorkerPC) :
  phase_inv pc w0 s -> workers s !! i = Some w -> w <> WDone ->
  producer s <> PIdle /\ coordinator s = CWait /\
  closed (progress s) = false /\ closed (errors s) = false /\
  progressHandler s <> HExited /\ errorHandler s <> HExited.
Proof.
  intros [Hbefore _ Hafter Hclosed _ _ Hpe _ _ Hee] Hi Hw.
  assert (Hst : producer s <> PIdle).
  { intros Hidle. destruct (Hbefore Hidle) as (Hws & _). rewrite Hws in Hi. discriminate. }
  destruct (Hafter Hst) as [_ Hco].
  assert (Hwait : coordinator s = CWait).
  { destruct (coordinator s); try contradiction; try reflexivity.
    - exfalso. apply Hw. eapply all_done_lookup; eauto.
    - exfalso. apply Hw. destruct Hco as (_ & Hall & _). eapply all_done_lookup; eauto. }
  assert (Hp : closed (progress s) = false).
  { destruct (closed (progress s)) eqn:Hc; [|reflexivity].
    exfalso. destruct Hclosed as [_ Hne]; [left; reflexivity | congruence]. }
  assert (He : closed (errors s) = false).
  { destruct (closed (errors s)) eqn:Hc; [|reflexivity].
    exfalso. destruct Hclosed as [_ Hne]; [right; reflexivity | congruence]. }
  repeat split; auto.
  - intros Hx. destruct (Hpe Hx). congruence.
  - intros Hx. destruct (Hee Hx). congruence.
Qed.

Lemma before_start (s : State) :
  phase_inv pc w0 s ->
  match coordinator s with CInit | CDiscover _ _ => True | _ => False end ->
  producer s = PIdle.
Proof.
  intros [_ _ Hafter _ _ _ _ _ _ _] Hco.
  destruct (producer_idle_dec s) as [Hidle|Hst]; [exact Hidle|].
  destruct (Hafter Hst) as [_ Hx]. destruct (coordinator s); contradiction.
Qed.

Lemma phase_inv_step a s s' :
  phase_inv pc w0 s -> step pc sourceDir destDir a s = Some s' -> phase_inv pc w0 s'.
Proof.
  intros Hinv Hs.
  pose proof Hinv as [Hbefore Hcaps Hafter Hclosed Hps Hph Hpe Hes Heh Hee].
  step_cases Hs.
  all: try match goal with
       | Hw : workers _ !! _ = Some _ |- _ =>
           destruct (worker_running _ _ _ Hinv Hw ltac:(discriminate))
             as (Hst & Hwait & Hcp & Hce & Hpx & Hex);
           rewrite Hwait in *
       end.
  all: try match goal with
       | Hc : coordinator _ = CInit |- _ =>
           pose proof (before_start _ Hinv ltac:(rewrite Hc; exact I)) as Hidle
       | Hc : coordinator _ = CDiscover _ _ |- _ =>
           pose proof (before_start _ Hinv ltac:(rewrite Hc; exact I)) as Hidle
       end.
  all: clear Hinv.
  all: constructor; state_simpl.
  all: repeat match goal with |- context [chan_full ?c] => destruct (chan_full c) eqn:? end; state_simpl.
  all: solve_field.
Qed.

Lemma fifo_inv_initial : fifo_inv (initial_state w0).
Proof. constructor; reflexivity. Qed.

Lemma fifo_inv_step a s s' :
  phase_inv pc w0 s -> fifo_inv s ->
  step pc sourceDir destDir a s = Some s' -> fifo_inv s'.
Proof.
  intros Hinv [Hp He] Hs.
  pose proof Hinv as [Hbefore Hcaps Hafter Hclosed Hps Hph Hpe Hes Heh Hee].
  step_cases Hs.
  all: try match goal with
       | Hc : coordinator _ = CInit |- _ =>
           pose proof (before_start _ Hinv ltac:(rewrite Hc; exact I)) as Hidle
       end.
  all: clear Hinv.
  all: constructor; state_simpl.
  all: repeat match goal with |- context [chan_full ?c] => destruct (chan_full c) eqn:? end; state_simpl.
  all: chain; known.
  all: repeat match goal with |- context [if ?b then _ else _] => destruct b end.
  all: trace_simpl.
  all: try match goal with Ht : trace _ = [] |- _ => rewrite Ht end.
  all: rewrite ?Hp, ?He, <- ?app_assoc, ?app_nil_r; reflexivity.
Qed.

Lemma progress_inv_initial : progress_inv pc (initial_state w0).
Proof. intros _ Hp. exfalso. apply Hp. reflexivity. Qed.

Lemma progress_inv_step a s s' :
  phase_inv pc w0 s -> fifo_inv s -> progress_inv pc s ->
  step pc sourceDir destDir a s = Some s' -> progress_inv pc s'.
Proof.
  intros Hinv [Hfp Hfe] Hpi Hs. unfold progress_inv in *.
  intros HSP. specialize (Hpi HSP).
  pose proof Hinv as [Hbefore Hcaps Hafter Hclosed Hps Hph Hpe Hes Heh Hee].
  step_cases Hs.
  all: try match goal with
       | Hw : workers _ !! _ = Some _ |- _ =>
           destruct (worker_running _ _ _ Hinv Hw ltac:(discriminate))
             as (Hst & Hwait & Hcp & Hce & Hpx & Hex);
           rewrite Hwait in *
       end.
  all: try match goal with
       | Hc : coordinator _ = CInit |- _ =>
           pose proof (before_start _ Hinv ltac:(rewrite Hc; exact I)) as Hidle
       | Hc : coordinator _ = CDiscover _ _ |- _ =>
           pose proof (before_start _ Hinv ltac:(rewrite Hc; exact I)) as Hidle
       end.
  all: clear Hinv.
  all: unfold start_update, complete_update in *; state_simpl; known.
  all: repeat match goal with
         | |- context [chan_full ?c] => destruct (chan_full c) eqn:?
         | |- context [if ?b then _ else _] => destruct b
         end; state_simpl.
  all: trace_simpl.
  all: intros Hprod; try contradiction; try congruence.
  all: chain.
  all: try match type of Hpi with
           | ex _ => destruct Hpi as (samples & Hall & Hq)
           end.
  (* nothing was queued by the step *)
  all: try solve [exists samples; split; [exact Hall | exact Hq]].
  (* a sample was queued *)
  all: try solve [
    match goal with
    | |- context [progress_queued (trace _) ++ [?x]] =>
        exists (samples ++ [x]); split;
        [ apply Forall_app; split; [exact Hall | repeat constructor]
        | rewrite Hq; reflexivity ]
    end ].
  - (* start, with the buffer full: it is empty *)
    exfalso. unfold chan_full in *.
    match goal with
    | Hb : buf (progress s) = [], Hc : cap (progress s) = _ |- _ =>
        rewrite Hb, Hc in Heqb1
    end.
    vm_compute in Heqb1. discriminate.
  - (* start *)
    exists []. split; [constructor|].
    match goal with
    | Hd : Forall discovery_event (trace s) |- _ =>
        rewrite (proj1 (discovery_quiet _ Hd))
    end.
    reflexivity.
  - (* complete, dropped: the buffer is full *)
    exists samples. split; [exact Hall|]. right. split; [exact Hq|].
    unfold chan_full in *. apply Nat.leb_le in Heqb1.
    match goal with Hc : cap (progress s) = _ |- _ => rewrite Hc in Heqb1 end.
    apply (f_equal length) in Hfp. rewrite Hq, length_app in Hfp. simpl in Hfp. lia.
  - (* complete *)
    exists samples. split; [exact Hall|]. left. exists (now s - startTime s)%nat.
    rewrite Hq. reflexivity.
Qed.

End Engine.

(** ** Where the tasks are and what the counters count *)

Section Accounting.
Context `{Platform}.
Variable pc : ParallelCopier.
Variables sourceDir destDir : string.
Variable w0 : World.

(** Whatever discovery finds on [w0] has sizes that fit [int64]. *)
Hypothesis discovered_fit : forall ts,
  discovered_tasks (options pc) w0 sourceDir destDir (config_Items pc) [] = Some ts ->
  sizes_fit ts.

Lemma account_inv_initial : account_inv pc sourceDir destDir w0 (initial_state w0).
Proof.
  constructor; cbn.
  - intros items tasks Hc. discriminate.
  - intros Hp. exfalso. apply Hp. reflexivity.
  - reflexivity.
Qed.

Lemma account_discover_step a s s' :
  phase_inv pc w0 s -> account_inv pc sourceDir destDir w0 s ->
  step pc sourceDir destDir a s = Some s' ->
  forall items tasks,
    coordinator s' = CDiscover items tasks ->
    discovered_tasks (options pc) w0 sourceDir destDir items tasks
    = discovered_tasks (options pc) w0 sourceDir destDir (config_Items pc) [].
Proof.
  intros Hinv [Hdisc _ _] Hs.
  pose proof Hinv as [Hbefore _ _ _ _ _ _ _ _ _].
  step_cases Hs.
  all: try match goal with
       | Hc : coordinator _ = CDiscover _ _ |- _ =>
           pose proof (before_start _ _ _ Hinv ltac:(rewrite Hc; exact I)) as Hidle;
           destruct (Hbefore Hidle) as (_ & Hworld & _)
       end.
  all: clear Hinv Hbefore.
  all: state_simpl; intros items' tasks' Hc; try discriminate Hc.
  all: try solve [eapply Hdisc; eauto].
  all: injection Hc as <- <-; try reflexivity.
  all: rewrite <- (Hdisc _ _ eq_refl); cbn [discovered_tasks].
  all: rewrite Hworld in *.
  all: match goal with Hd : discoverItemTasks _ _ _ _ _ = _ |- _ => rewrite Hd end.
  all: try match goal with Hd : ContinueOnError _ = _ |- _ => rewrite Hd end.
  all: reflexivity.
Qed.

Lemma account_due_step a s s' :
  phase_inv pc w0 s ->
  tasks_due (ContinueOnError (options pc)) (trace s)
  ≡ₚ tasks_counted (trace s)
       ++ flat_map (due_held (ContinueOnError (options pc))) (workers s) ->
  step pc sourceDir destDir a s = Some s' ->
  tasks_due (ContinueOnError (options pc)) (trace s')
  ≡ₚ tasks_counted (trace s')
       ++ flat_map (due_held (ContinueOnError (options pc))) (workers s').
Proof.
  intros Hinv Hdue Hs.
  pose proof Hinv as [Hbefore _ _ _ _ _ _ _ _ _].
  step_cases Hs.
  all: try match goal with
       | Hc : coordinator _ = CDiscover _ _ |- _ =>
           pose proof (before_start _ _ _ Hinv ltac:(rewrite Hc; exact I)) as Hidle;
           destruct (Hbefore Hidle) as (Hws & _); rewrite Hws in Hdue
       end.
  all: clear Hinv Hbefore.
  all: state_simpl; trace_simpl.
  all: rewrite ?flat_map_replicate_nil by reflexivity.
  all: try exact Hdue.
  all: try match goal with
       | Hw : workers ?s0 !! ?i = Some ?w |- context [<[?i := ?w']> (workers ?s0)] =>
           destruct (flat_map_insert (due_held (ContinueOnError (options pc)))
                       (workers s0) i w w' Hw) as (R & HR1 & HR2);
           rewrite HR2; rewrite HR1 in Hdue
       end.
  all: destruct (ContinueOnError (options pc)); cbn [negb due_held] in *;
       try discriminate; trace_simpl.
  all: repeat match goal with
         | |- context [if ?b then _ else _] => destruct b
         end; trace_simpl.
  all: try match goal with Hw : workers _ = [] |- _ => rewrite Hw end.
  all: first [exact Hdue | rewrite Hdue; solve_Permutation].
Qed.

Lemma parts_nonneg (ts a b : list CopyTask) :
  Forall (fun t => 0 <= Size t) ts -> ts ≡ₚ a ++ b ->
  0 <= total_size a /\ 0 <= total_size b /\ total_size ts = total_size a + total_size b.
Proof.
  intros Hall Hperm. rewrite Hperm in Hall. apply Forall_app in Hall as [Ha Hb].
  rewrite (total_size_perm _ _ Hperm), total_size_app.
  repeat split; auto using total_size_nonneg.
Qed.

Lemma account_started_step a s s' :
  phase_inv pc w0 s -> account_inv pc sourceDir destDir w0 s ->
  step pc sourceDir destDir a s = Some s' ->
  producer s' <> PIdle ->
  exists ts : list CopyTask,
    discovered_tasks (options pc) w0 sourceDir destDir (config_Items pc) [] = Some ts /\
    totalTasks s' = Z.of_nat (length ts) /\
    totalBytes s' = total_size ts /\
    ts ≡ₚ tasks_counted (trace s') ++ pending s' ++ tasks_aborted (trace s') /\
    completedTasks s' = Z.of_nat (length (tasks_counted (trace s'))) /\
    copiedBytes s' = total_size (tasks_counted (trace s')).
Proof.
  intros Hinv [Hdisc Hst _] Hs.
  pose proof Hinv as [Hbefore _ _ _ _ _ _ _ _ _].
  unfold pending in *.
  step_cases Hs.
  all: try match goal with
       | Hw : workers _ !! _ = Some _ |- _ =>
           destruct (worker_running _ _ _ _ _ Hinv Hw ltac:(discriminate))
             as (Hrun & _)
       end.
  all: try match goal with
       | Hc : coordinator _ = CInit |- _ =>
           pose proof (before_start _ _ _ Hinv ltac:(rewrite Hc; exact I)) as Hidle
       | Hc : coordinator _ = CDiscover _ _ |- _ =>
           pose proof (before_start _ _ _ Hinv ltac:(rewrite Hc; exact I)) as Hidle
       end.
  all: clear Hinv.
  all: state_simpl; trace_simpl.
  all: intros Hprod; try contradiction.
  all: repeat match goal with
         | |- context [if ?b then _ else _] => destruct b
         end; trace_simpl.
  all: try solve [exact (Hst Hprod)].
  (* the tasks are known: every case but the start of the workers *)
  all: try (
    let Hp := fresh in
    match type of Hst with
    | ?P -> _ => assert (Hp : P) by (first [assumption | discriminate | congruence])
    end;
    destruct (Hst Hp) as (ts & HD & Htt & Htb & Hperm & Hc & Hb); clear Hp Hst;
    exists ts; split; [exact HD|]; split; [exact Htt|]; split; [exact Htb|];
    pose proof (discovered_fit ts HD) as (Hnn & Hsum & Hlen)).
  all: try match goal with
       | Hw : workers ?s0 !! ?i = Some ?w |- context [<[?i := ?w']> (workers ?s0)] =>
           destruct (flat_map_insert held (workers s0) i w w' Hw) as (R & HR1 & HR2);
           rewrite HR2; rewrite HR1 in Hperm
       end.
  all: cbn [held unsent] in *; known.
  all: try solve [split; [rewrite Hperm; solve_Permutation | split; assumption]].
  all: try solve [split; [exact Hperm | split; assumption]].
  (* the workers start *)
  1, 2: destruct (Hbefore Hidle) as (_ & _ & Hq & _ & Htb & Hct & Hcb & _ & Htr & _);
    destruct (discovery_quiet _ Htr) as (_ & _ & _ & _ & Hcounted & Haborted & _);
    pose proof (Hdisc _ _ eq_refl) as HD; cbn [discovered_tasks] in HD;
    symmetry in HD; destruct (discovered_fit _ HD) as (Hnn & Hsum & Hlen);
    exists tasks; rewrite Hcounted, Haborted, Hq, Htb, Hct, Hcb;
    rewrite flat_map_replicate_nil by reflexivity;
    rewrite sum_sizes_total by (first [assumption | lia]);
    cbn [app length total_size foldr]; rewrite !app_nil_r;
    repeat split; first [assumption | reflexivity | lia].
  (* a task is counted *)
  assert (Hparts : ts ≡ₚ (tasks_counted (trace s) ++ [task])
                         ++ (unsent (producer s) ++ buf (taskQueue s) ++ R
                             ++ tasks_aborted (trace s)))
    by (rewrite Hperm; solve_Permutation).
  remember (unsent (producer s) ++ buf (taskQueue s) ++ R
            ++ tasks_aborted (trace s)) as rest eqn:Erest in Hparts.
  destruct (parts_nonneg _ _ _ Hnn Hparts) as (Hdone & Hrest & Hsplit).
  apply Permutation_length in Hparts as Hcount.
  rewrite length_app in Hcount. rewrite total_size_app in Hdone, Hsplit.
  rewrite length_app in Hcount.
  cbn [length total_size foldr] in Hcount, Hdone, Hsplit.
  split; [rewrite Hperm; solve_Permutation|].
  rewrite length_app, total_size_app, Hc, Hb. cbn [length total_size foldr].
  unfold int64_add.
  rewrite !wrap64_small by (unfold in_int64; lia).
  split; lia.
Qed.

(** The accounting invariant is kept by every step. *)
Lemma account_inv_step a s s' :
  phase_inv pc w0 s -> account_inv pc sourceDir destDir w0 s ->
  step pc sourceDir destDir a s = Some s' ->
  account_inv pc sourceDir destDir w0 s'.
Proof.
  intros Hinv Hacc Hs. constructor.
  - eapply account_discover_step; eauto.
  - eapply account_started_step; eauto.
  - eapply account_due_step; eauto. apply Hacc.
Qed.

End Accounting.

(** ** Every failure is handed to [sendError] once *)

Section Errors.
Context `{Platform}.
Variable pc : ParallelCopier.
Variables sourceDir destDir : string.
Variable w0 : World.

Lemma errors_inv_initial : errors_inv (initial_state w0).
Proof. constructor; cbn; [reflexivity | congruence]. Qed.

Lemma errors_failed_step a s s' :
  phase_inv pc w0 s -> errors_inv s ->
  step pc sourceDir destDir a s = Some s' ->
  map failure_of_task (tasks_failed (trace s'))
  ≡ₚ map failure_of_error (errors_of_workers (trace s'))
       ++ flat_map failure_held (workers s').
Proof.
  intros Hinv [Hfail _] Hs.
  pose proof Hinv as [Hbefore _ _ _ _ _ _ _ _ _].
  step_cases Hs.
  all: try match goal with
       | Hc : coordinator _ = CDiscover _ _ |- _ =>
           pose proof (before_start _ _ _ Hinv ltac:(rewrite Hc; exact I)) as Hidle;
           destruct (Hbefore Hidle) as (Hws & _); rewrite Hws in Hfail
       end.
  all: clear Hinv Hbefore.
  all: state_simpl; trace_simpl.
  all: rewrite ?flat_map_replicate_nil by reflexivity.
  all: try exact Hfail.
  all: try match goal with
       | Hw : workers ?s0 !! ?i = Some ?w |- context [<[?i := ?w']> (workers ?s0)] =>
           destruct (flat_map_insert failure_held (workers s0) i w w' Hw)
             as (R & HR1 & HR2);
           rewrite HR2; rewrite HR1 in Hfail
       end.
  all: repeat match goal with
         | |- context [if ?b then _ else _] => destruct b
         end; trace_simpl.
  all: rewrite ?map_app; cbn [map failure_of_task failure_of_error failure_held fst snd
                              ErrSourcePath ErrDestPath ErrError] in *.
  all: try match goal with Hw : workers _ = [] |- _ => rewrite Hw end.
  all: first [exact Hfail | rewrite Hfail; solve_Permutation].
Qed.

Lemma errors_dropped_step a s s' :
  phase_inv pc w0 s -> fifo_inv s -> errors_inv s ->
  step pc sourceDir destDir a s = Some s' ->
  errors_dropped (trace s') <> [] -> (100 <= length (errors_queued (trace s')))%nat.
Proof.
  intros Hinv [_ Hfifo] [_ Hdrop] Hs.
  pose proof Hinv as [_ Hcaps _ _ _ _ _ _ _ _].
  step_cases Hs.
  all: try match goal with
       | Hw : workers _ !! _ = Some _ |- _ =>
           destruct (worker_running _ _ _ _ _ Hinv Hw ltac:(discriminate))
             as (_ & Hwait & _)
       end.
  all: clear Hinv.
  all: state_simpl; trace_simpl.
  all: repeat match goal with
         | |- context [if ?b then _ else _] => destruct b eqn:?
         end; trace_simpl.
  all: try exact Hdrop.
  all: rewrite ?length_app; cbn [length].
  all: try solve [intros Hd; specialize (Hdrop Hd); lia].
  all: intros _; rewrite Hfifo, length_app.
  all: destruct Hcaps as [_ Hcap]; [congruence|].
  all: unfold chan_full in *; rewrite Hcap in *.
  all: match goal with Hf : negb _ = false |- _ =>
         apply negb_false_iff, Nat.leb_le in Hf end.
  all: lia.
Qed.

Lemma errors_inv_step a s s' :
  phase_inv pc w0 s -> fifo_inv s -> errors_inv s ->
  step pc sourceDir destDir a s = Some s' -> errors_inv s'.
Proof.
  intros Hinv Hfifo Herr Hs. constructor.
  - eapply errors_failed_step; eauto.
  - eapply errors_dropped_step; eauto.
Qed.

End Errors.

(** ** What holds of every run *)

Lemma all_done_flat_map {A} (f : WorkerPC -> list A) (ws : list WorkerPC) :
  f WDone = [] -> forallb is_done ws = true -> flat_map f ws = [].
Proof.
  intros Hf. induction ws as [|w ws IH]; simpl; [reflexivity|].
  intros Hall. apply andb_prop in Hall as [Hw Hws].
  destruct w; try discriminate. rewrite Hf, (IH Hws). reflexivity.
Qed.

Lemma tasks_due_continue (tr : list Event) : tasks_due true tr = tasks_processed tr.
Proof.
  induction tr as [|ev tr IH]; [reflexivity|].
  change (ev :: tr) with ([ev] ++ tr). rewrite tasks_due_app, tasks_processed_app, IH.
  destruct ev as [| | ? ? [|] | | | |]; reflexivity.
Qed.

Lemma tasks_due_stop (tr : list Event) : tasks_due false tr = tasks_succeeded tr.
Proof.
  induction tr as [|ev tr IH]; [reflexivity|].
  change (ev :: tr) with ([ev] ++ tr). rewrite tasks_due_app, tasks_succeeded_app, IH.
  destruct ev as [| | ? ? [|] | | | |]; reflexivity.
Qed.

(** As long as nothing is dropped, what was sent is what was queued. *)
Lemma errors_sent_queued (tr : list Event) :
  errors_dropped tr = [] -> errors_queued tr = errors_sent tr.
Proof.
  induction tr as [|ev tr IH]; [reflexivity|].
  change (ev :: tr) with ([ev] ++ tr).
  rewrite errors_dropped_app, errors_queued_app, errors_sent_app.
  destruct ev as [? ? [|] | | | | | |]; cbn; intros Hd; try discriminate;
    rewrite (IH Hd); reflexivity.
Qed.

Lemma go_rem_multiple (x : Z) : (go_rem x 10 =? 0) = (x mod 10 =? 0).
Proof.
  unfold go_rem.
  destruct (Z.eqb_spec (Z.rem x 10) 0) as [Hr|Hr], (Z.eqb_spec (x mod 10) 0) as [Hm|Hm];
    try reflexivity; exfalso.
  - apply Hm, Z.mod_divide; [lia|]. apply Z.rem_divide in Hr; [exact Hr | lia].
  - apply Hr, Z.rem_divide; [lia|]. apply Z.mod_divide in Hm; [exact Hm | lia].
Qed.

Section Runs.
Context `{Platform}.
Variable pc : ParallelCopier.
Variables sourceDir destDir : string.
Variable w0 : World.

(** The invariants hold in every state a run goes through. *)
Lemma Run_invariants (sched : list Action) (s : State) :
  Run pc sourceDir destDir sched w0 = Some s ->
  phase_inv pc w0 s /\ fifo_inv s /\ progress_inv pc s /\ errors_inv s.
Proof.
  unfold Run.
  apply (exec_invariant pc sourceDir destDir
           (fun s => phase_inv pc w0 s /\ fifo_inv s /\ progress_inv pc s /\ errors_inv s)).
  - intros a s0 s1 (Hp & Hf & Hpr & He) Hs. split; [|split; [|split]].
    + eapply phase_inv_step; eauto.
    + eapply fifo_inv_step; eauto.
    + eapply progress_inv_step; eauto.
    + eapply errors_inv_step; eauto.
  - split; [|split; [|split]].
    + apply phase_inv_initial.
    + apply fifo_inv_initial.
    + apply progress_inv_initial.
    + apply errors_inv_initial.
Qed.

Lemma Run_due (sched : list Action) (s : State) :
  Run pc sourceDir destDir sched w0 = Some s ->
  tasks_due (ContinueOnError (options pc)) (trace s)
  ≡ₚ tasks_counted (trace s)
       ++ flat_map (due_held (ContinueOnError (options pc))) (workers s).
Proof.
  unfold Run.
  apply (exec_invariant pc sourceDir destDir
           (fun s => phase_inv pc w0 s /\
                     tasks_due (ContinueOnError (options pc)) (trace s)
                     ≡ₚ tasks_counted (trace s)
                          ++ flat_map (due_held (ContinueOnError (options pc))) (workers s))).
  - intros a s0 s1 (Hp & Hd) Hs. split.
    + eapply phase_inv_step; eauto.
    + eapply account_due_step; eauto.
  - split; [apply phase_inv_initial | reflexivity].
Qed.

(** Once [Run] has returned no worker holds anything. *)
Lemma returned_workers_done {A} (f : WorkerPC -> list A) (s : State) (r : option error) :
  phase_inv pc w0 s -> returned s = Some r -> f WDone = [] ->
  flat_map f (workers s) = [].
Proof.
  intros [Hbefore _ Hafter _ _ _ _ _ _ _] Hr Hf. unfold returned in Hr.
  destruct (producer_idle_dec s) as [Hidle|Hst].
  - destruct (Hbefore Hidle) as (Hws & _). rewrite Hws. reflexivity.
  - destruct (Hafter Hst) as [_ Hco].
    destruct (coordinator s); try discriminate.
    destruct Hco as (_ & Hall & _). apply all_done_flat_map; assumption.
Qed.

(** A run that found tasks returns only after the workers and the
    handlers, and returns [nil]. *)
Lemma returned_after_the_workers (s : State) (r : option error) :
  phase_inv pc w0 s -> returned s = Some r -> totalTasks s <> 0 ->
  producer s <> PIdle /\ r = None /\ forallb is_done (workers s) = true /\
  handler_running (progressHandler s) = false /\
  handler_running (errorHandler s) = false.
Proof.
  intros [Hbefore _ Hafter _ _ _ _ _ _ _] Hr Htot. unfold returned in Hr.
  destruct (producer_idle_dec s) as [Hidle|Hst].
  - destruct (Hbefore Hidle) as (_ & _ & _ & Hz & _). contradiction.
  - destruct (Hafter Hst) as [_ Hco].
    destruct (coordinator s); try discriminate.
    injection Hr as <-. destruct Hco as (-> & Hall & Hp & He). auto.
Qed.

(** Whatever the failures of its tasks, once the workers have run [Run]
    returns [nil]. *)
Lemma Run_returns_nil (sched : list Action) (s : State) (r : option error) :
  Run pc sourceDir destDir sched w0 = Some s ->
  returned s = Some r -> totalTasks s <> 0 -> r = None.
Proof.
  intros Hrun Hr Htot. destruct (Run_invariants _ _ Hrun) as (Hp & _).
  destruct (returned_after_the_workers _ _ Hp Hr Htot) as (_ & Hnil & _). exact Hnil.
Qed.

Lemma step_producer_started a s s' :
  phase_inv pc w0 s -> step pc sourceDir destDir a s = Some s' ->
  producer s <> PIdle -> producer s' <> PIdle.
Proof.
  intros Hinv Hs Hst. step_cases Hs; state_simpl; first [exact Hst | discriminate].
Qed.

Lemma step_trace_grows a s s' :
  step pc sourceDir destDir a s = Some s' -> exists evs, trace s' = trace s ++ evs.
Proof.
  intros Hs. step_cases Hs; state_simpl; rewrite <- ?app_assoc;
    first [eexists; reflexivity | exists []; rewrite app_nil_r; reflexivity].
Qed.

Section Counters.

Hypothesis discovered_fit : forall ts,
  discovered_tasks (options pc) w0 sourceDir destDir (config_Items pc) [] = Some ts ->
  sizes_fit ts.

Lemma Run_accounting (sched : list Action) (s : State) :
  Run pc sourceDir destDir sched w0 = Some s ->
  phase_inv pc w0 s /\ account_inv pc sourceDir destDir w0 s.
Proof.
  unfold Run.
  apply (exec_invariant pc sourceDir destDir
           (fun s => phase_inv pc w0 s /\ account_inv pc sourceDir destDir w0 s)).
  - intros a s0 s1 (Hp & Ha) Hs. split.
    + eapply phase_inv_step; eauto.
    + eapply account_inv_step; eauto.
  - split; [apply phase_inv_initial | apply account_inv_initial].
Qed.

Lemma counters_bounded (s : State) :
  phase_inv pc w0 s -> account_inv pc sourceDir destDir w0 s ->
  0 <= completedTasks s <= totalTasks s /\ 0 <= copiedBytes s <= totalBytes s.
Proof.
  intros [Hbefore _ _ _ _ _ _ _ _ _] [_ Hst _].
  destruct (producer_idle_dec s) as [Hidle|Hstarted].
  - destruct (Hbefore Hidle) as (_ & _ & _ & -> & -> & -> & -> & _). lia.
  - destruct (Hst Hstarted) as (ts & HD & -> & -> & Hperm & -> & ->).
    destruct (discovered_fit ts HD) as (Hnn & _ & _).
    destruct (parts_nonneg _ _ _ Hnn Hperm) as (Hdone & Hrest & Hsplit).
    apply Permutation_length in Hperm. rewrite length_app in Hperm. lia.
Qed.

Lemma counters_step a s s' :
  phase_inv pc w0 s -> account_inv pc sourceDir destDir w0 s ->
  step pc sourceDir destDir a s = Some s' ->
  completedTasks s <= completedTasks s' /\
  (producer s <> PIdle -> totalTasks s' = totalTasks s /\ totalBytes s' = totalBytes s).
Proof.
  intros Hp Ha Hs.
  pose proof (phase_inv_step _ _ _ _ _ _ _ Hp Hs) as Hp'.
  pose proof (account_inv_step _ _ _ _ discovered_fit _ _ _ Hp Ha Hs) as Ha'.
  destruct (counters_bounded s' Hp' Ha') as ((Hc0 & _) & _).
  destruct (producer_idle_dec s) as [Hidle|Hst].
  - destruct Hp as [Hbefore _ _ _ _ _ _ _ _ _].
    destruct (Hbefore Hidle) as (_ & _ & _ & _ & _ & -> & _).
    split; [exact Hc0 | contradiction].
  - pose proof (step_producer_started _ _ _ Hp Hs Hst) as Hst'.
    destruct Ha as [_ Hacc _]. destruct Ha' as [_ Hacc' _].
    destruct (Hacc Hst) as (ts & HD & -> & -> & _ & -> & _).
    destruct (Hacc' Hst') as (ts' & HD' & -> & -> & _ & -> & _).
    rewrite HD in HD'. injection HD' as <-.
    destruct (step_trace_grows _ _ _ Hs) as (evs & ->).
    rewrite tasks_counted_app, length_app. split; [lia | auto].
Qed.

End Counters.
End Runs.

(** ** The claims about a run *)

Section Claims.
Context `{Platform}.
Variable pc : ParallelCopier.
Variables sourceDir destDir : string.
Variable w0 : World.



(** The worker's decision to send a progress sample, step by step.
    Counting a task increments the shared counter and hands its new
    value, read under the same lock, to the report; the report sends a
    sample, with that value as [Current], exactly when progress is shown
    and the value is a multiple of the constant 10; no other step of a
    worker sends an update. *)
Theorem progress_sample_every_tenth (i : nat) (s : State) :
  (forall task, workers s !! i = Some (WCount task) ->
     exists s', worker_step pc i s = Some s' /\
       completedTasks s' = wrap64 (completedTasks s + 1) /\
       tasks_counted (trace s') = tasks_counted (trace s) ++ [task] /\
       progress_sent (trace s') = progress_sent (trace s) /\
       workers s' !! i
       = Some (WReport (completedTasks s') (totalTasks s') (copiedBytes s') (totalBytes s'))) /\
  (forall current total copied totalBytes,
     workers s !! i = Some (WReport current total copied totalBytes) ->
     exists s', worker_step pc i s = Some s' /\
       workers s' !! i = Some WRange /\
       completedTasks s' = completedTasks s /\
       progress_sent (trace s')
       = progress_sent (trace s)
           ++ (if ShowProgress (options pc) && (current mod 10 =? 0)
               then [progress_sample s current total copied totalBytes]
               else [])) /\
  (forall w s', workers s !! i = Some w ->
     (forall task, w <> WCount task) ->
     (forall current total copied totalBytes, w <> WReport current total copied totalBytes) ->
     worker_step pc i s = Some s' ->
     completedTasks s' = completedTasks s /\
     progress_sent (trace s') = progress_sent (trace s)).
Proof.
  split; [|split].
  - intros task Hw. unfold worker_step. rewrite Hw.
    eexists. split; [reflexivity|]. state_simpl. trace_simpl.
    repeat split.
    apply list_lookup_insert_eq. eapply lookup_lt_Some; eauto.
  - intros current total copied totalBytes Hw. unfold worker_step. rewrite Hw.
    rewrite go_rem_multiple. unfold sendProgressUpdate, try_send.
    assert (Hi : (i < length (workers s))%nat) by (eapply lookup_lt_Some; eauto).
    destruct (ShowProgress (options pc)); cbn [andb].
    + destruct (current mod 10 =? 0); eexists; (split; [reflexivity|]);
        state_simpl; trace_simpl;
        (split; [apply list_lookup_insert_eq; exact Hi | split; reflexivity]).
    + eexists. split; [reflexivity|]. state_simpl. rewrite app_nil_r.
      split; [apply list_lookup_insert_eq; exact Hi | split; reflexivity].
  - intros w s' Hw Hcount Hreport Hs. unfold worker_step in Hs. rewrite Hw in Hs.
    unfold sendError, try_send, send, recv in Hs.
    destruct w; try discriminate Hs.
    + destruct (buf (taskQueue s)); [destruct (closed (taskQueue s))|];
        try discriminate Hs; injection Hs as <-; state_simpl; split; reflexivity.
    + destruct (processTask (options pc) task (world s)) as [w' [e|]];
        cbn beta iota zeta in Hs; injection Hs as <-; state_simpl; trace_simpl; split; reflexivity.
    + cbn beta iota zeta in Hs. state_simpl.
      destruct (negb (ContinueOnError (options pc)));
        [destruct (chan_full (results s)); try discriminate Hs|];
        injection Hs as <-; state_simpl; trace_simpl; split; reflexivity.
    + exfalso. eapply Hcount. reflexivity.
    + exfalso. eapply Hreport. reflexivity.
Qed.

Section Sizes.

Hypothesis discovered_fit : forall ts,
  discovered_tasks (options pc) w0 sourceDir destDir (config_Items pc) [] = Some ts ->
  sizes_fit ts.



End Sizes.
End Claims.

(** ** A sample for every tenth task *)

Lemma counts_app (a b : list Event) : counts (a ++ b) = counts a ++ counts b.
Proof. apply omap_app. Qed.

Lemma samples_sent_app (a b : list Event) :
  samples_sent (a ++ b) = samples_sent a ++ samples_sent b.
Proof. apply omap_app. Qed.

Lemma counts_length (tr : list Event) : length (counts tr) = length (tasks_counted tr).
Proof.
  unfold counts, tasks_counted.
  induction tr as [|ev tr IH]; [reflexivity|].
  destruct ev; cbn; try exact IH. f_equal. exact IH.
Qed.

Lemma wrap64_succ (x : Z) : wrap64 (wrap64 x + 1) = wrap64 (x + 1).
Proof.
  unfold wrap64.
  replace ((x + 2 ^ 63) mod 2 ^ 64 - 2 ^ 63 + 1 + 2 ^ 63)
    with ((x + 2 ^ 63) mod 2 ^ 64 + 1) by lia.
  rewrite Zplus_mod_idemp_l. f_equal. f_equal. lia.
Qed.

Ltac sample_simpl :=
  rewrite ?counts_app, ?samples_sent_app, ?progress_sent_app;
  cbn [counts samples_sent progress_sent omap list_omap UpdType start_update
       complete_update progress_sample Current];
  rewrite ?app_nil_r.

Section Sampling.
Context `{Platform}.
Variable pc : ParallelCopier.
Variables sourceDir destDir : string.
Variable w0 : World.

Lemma sample_inv_initial : sample_inv pc (initial_state w0).
Proof. constructor; cbn; reflexivity. Qed.

Lemma sample_counter_step a s s' :
  sample_inv pc s -> step pc sourceDir destDir a s = Some s' ->
  counts (trace s')
  = map (fun k => wrap64 (Z.of_nat k)) (seq 1 (length (counts (trace s')))) /\
  completedTasks s' = wrap64 (Z.of_nat (length (counts (trace s')))).
Proof.
  intros [Hcounts Hcounter _ _] Hs.
  step_cases Hs.
  all: state_simpl; sample_simpl.
  all: repeat match goal with
         | |- context [if ?b then _ else _] => destruct b
         end; sample_simpl.
  all: try (split; assumption).
  rewrite length_app, Nat.add_1_r, seq_S, map_app. cbn [length map].
  rewrite <- Hcounts, Hcounter, wrap64_succ.
  replace (Z.of_nat (1 + length (counts (trace s))))
    with (Z.of_nat (length (counts (trace s))) + 1) by lia.
  replace (Z.of_nat (S (length (counts (trace s)))))
    with (Z.of_nat (length (counts (trace s))) + 1) by lia.
  split; reflexivity.
Qed.

Lemma tenth_rem (x : Z) : (go_rem x 10 =? 0) = tenth x.
Proof. apply go_rem_multiple. Qed.

Lemma sample_samples_step a s s' :
  phase_inv pc w0 s -> sample_inv pc s ->
  step pc sourceDir destDir a s = Some s' ->
  ShowProgress (options pc) = true ->
  map Current (samples_sent (trace s')) ++ flat_map sample_due (workers s')
  ≡ₚ List.filter tenth (counts (trace s')).
Proof.
  intros Hinv [_ _ Hsamples _] Hs Hshow. specialize (Hsamples Hshow).
  pose proof Hinv as [Hbefore _ _ _ _ _ _ _ _ _].
  step_cases Hs.
  all: try match goal with
       | Hc : coordinator _ = CDiscover _ _ |- _ =>
           pose proof (before_start _ _ _ Hinv ltac:(rewrite Hc; exact I)) as Hidle;
           destruct (Hbefore Hidle) as (Hws & _); rewrite Hws in Hsamples
       end.
  all: clear Hinv Hbefore.
  all: try rewrite tenth_rem in *.
  all: state_simpl; sample_simpl.
  all: rewrite ?flat_map_replicate_nil by reflexivity.
  all: try exact Hsamples.
  all: try match goal with
       | Hw : workers ?s0 !! ?i = Some ?w |- context [<[?i := ?w']> (workers ?s0)] =>
           destruct (flat_map_insert sample_due (workers s0) i w w' Hw)
             as (R & HR1 & HR2);
           rewrite HR2; rewrite HR1 in Hsamples
       end.
  all: cbn [sample_due] in *.
  all: rewrite ?List.filter_app, ?map_app;
    cbn [List.filter map Current progress_sample flat_map] in *.
  all: repeat match goal with
         | Hb : ShowProgress (options pc) && _ = _ |- _ =>
             rewrite Hshow in Hb; cbn [andb] in Hb
         | Hb : true && _ = _ |- _ => cbn [andb] in Hb
         | H : tenth ?c = _ |- context [tenth ?c] => rewrite H
         | H : tenth ?c = _, H' : context [tenth ?c] |- _ => rewrite H in H'
         end.
  all: repeat match goal with
         | |- context [if ?b then _ else _] => destruct b eqn:?
         | H : context [if ?b then _ else _] |- _ => destruct b eqn:?
         end; sample_simpl.
  all: try discriminate.
  all: rewrite ?app_nil_r in *; cbn [app] in *.
  all: try match goal with Hw : workers _ = [] |- _ => rewrite Hw end.
  all: cbn [flat_map] in *; rewrite ?app_nil_r in *.
  all: first [exact Hsamples | rewrite <- Hsamples; solve_Permutation].
Qed.

Lemma sample_silent_step a s s' :
  sample_inv pc s -> step pc sourceDir destDir a s = Some s' ->
  ShowProgress (options pc) = false -> progress_sent (trace s') = [].
Proof.
  intros [_ _ _ Hsilent] Hs Hshow. specialize (Hsilent Hshow).
  step_cases Hs.
  all: state_simpl; trace_simpl.
  all: repeat match goal with
         | Hb : ShowProgress (options pc) = true |- _ => congruence
         | Hb : ShowProgress (options pc) && _ = true |- _ =>
             rewrite Hshow in Hb; discriminate Hb
         | |- context [if ?b then _ else _] => destruct b eqn:?
         end; trace_simpl.
  all: rewrite ?Hsilent; try reflexivity.
Qed.

Lemma sample_inv_step a s s' :
  phase_inv pc w0 s -> sample_inv pc s ->
  step pc sourceDir destDir a s = Some s' -> sample_inv pc s'.
Proof.
  intros Hinv Hsample Hs.
  destruct (sample_counter_step _ _ _ Hsample Hs) as (Hcounts & Hcounter).
  constructor; [exact Hcounts | exact Hcounter | |].
  - eapply sample_samples_step; eauto.
  - eapply sample_silent_step; eauto.
Qed.

(** What a call of [sendProgressUpdate] does to the progress channel:
    the update is queued behind what is waiting there, unless a hundred
    updates are waiting already. *)
Lemma send_progress_step a s s' (evs : list Event) (u : ProgressUpdate) (queued : bool) :
  phase_inv pc w0 s ->
  step pc sourceDir destDir a s = Some s' ->
  trace s' = trace s ++ evs ->
  EvSendProgress u queued ∈ evs ->
  queued = negb (100 <=? length (buf (progress s)))%nat /\
  buf (progress s') = buf (progress s) ++ (if queued then [u] else []).
Proof.
  intros Hinv Hs Htrace Hin.
  pose proof Hinv as [_ Hcaps _ _ _ _ _ _ _ _].
  step_cases Hs.
  all: try match goal with
       | Hw : workers _ !! _ = Some _ |- _ =>
           destruct (worker_running _ _ _ _ _ Hinv Hw ltac:(discriminate))
             as (_ & Hwait & _)
       end.
  all: clear Hinv.
  all: state_simpl.
  all: rewrite <- ?app_assoc in Htrace.
  all: first [ apply app_inv_head in Htrace
             | rewrite <- (app_nil_r (trace s)) in Htrace at 1;
               apply app_inv_head in Htrace ];
       subst evs.
  all: repeat match goal with
         | Hb : context [if ?b then _ else _] |- _ => destruct b eqn:?
         end.
  all: cbn [app] in Hin.
  all: repeat match goal with
         | Hx : _ ∈ [] |- _ => apply elem_of_nil in Hx; contradiction
         | Hx : _ ∈ _ :: _ |- _ => apply elem_of_cons in Hx; destruct Hx as [Hx|Hx]
         | Hx : EvSendProgress _ _ = _ |- _ => first [discriminate Hx | injection Hx as -> ->]
         end.
  all: destruct Hcaps as [Hcap _]; [congruence|].
  all: unfold chan_full in *; rewrite Hcap in *.
  all: repeat match goal with
         | |- context [if ?b then _ else _] => destruct b eqn:?
         end; state_simpl.
  all: try discriminate.
  all: split; [reflexivity | rewrite ?app_nil_r; reflexivity].
Qed.

Lemma Run_sampling (sched : list Action) (s : State) :
  Run pc sourceDir destDir sched w0 = Some s ->
  phase_inv pc w0 s /\ sample_inv pc s.
Proof.
  unfold Run.
  apply (exec_invariant pc sourceDir destDir
           (fun s => phase_inv pc w0 s /\ sample_inv pc s)).
  - intros a s0 s1 (Hp & Hsample) Hs. split.
    + eapply phase_inv_step; eauto.
    + eapply sample_inv_step; eauto.
  - split; [apply phase_inv_initial | apply sample_inv_initial].
Qed.

(** C9.  In every state a run goes through.  The shared counter goes up
    by one with every task counted, whichever worker counts it: the
    values the workers read right after their increments are 1, 2, 3 and
    so on.  With progress shown, a sample was handed to
    [sendProgressUpdate] for each of these values that is a multiple of
    the constant 10, with that value as [Current], and for no other; a
    worker that has counted such a value and not yet reported it is
    about to.  So once [Run] has returned the samples are those of the
    tenth, twentieth, ... task counted.  With progress not shown no
    update is sent at all.  A sample that is sent is queued on the
    progress channel behind the updates waiting there, and is dropped
    only when a hundred are waiting; whatever was queued has been handed
    to the callback, in the order of the queue, or is still waiting. *)
Theorem samples_of_a_run (sched : list Action) (s : State) :
  Run pc sourceDir destDir sched w0 = Some s ->
  counts (trace s)
  = map (fun k => wrap64 (Z.of_nat k)) (seq 1 (length (tasks_counted (trace s)))) /\
  completedTasks s = wrap64 (Z.of_nat (length (tasks_counted (trace s)))) /\
  (ShowProgress (options pc) = true ->
   map Current (samples_sent (trace s)) ++ flat_map sample_due (workers s)
   ≡ₚ List.filter tenth (counts (trace s))) /\
  (ShowProgress (options pc) = true -> returned s <> None ->
   map Current (samples_sent (trace s)) ≡ₚ List.filter tenth (counts (trace s))) /\
  (ShowProgress (options pc) = false -> progress_sent (trace s) = []) /\
  (forall (a : Action) (s' : State) (evs : list Event) (u : ProgressUpdate)
          (queued : bool),
     step pc sourceDir destDir a s = Some s' ->
     trace s' = trace s ++ evs ->
     EvSendProgress u queued ∈ evs ->
     queued = negb (100 <=? length (buf (progress s)))%nat /\
     buf (progress s') = buf (progress s) ++ (if queued then [u] else [])) /\
  progress_queued (trace s) = progress_delivered (trace s) ++ buf (progress s).
Proof.
  intros Hrun.
  destruct (Run_sampling _ _ Hrun) as (Hphase & [Hcounts Hcounter Hsamples Hsilent]).
  destruct (Run_invariants _ _ _ _ _ _ Hrun) as (_ & [Hfifo _] & _).
  rewrite counts_length in Hcounts, Hcounter.
  split; [exact Hcounts|]. split; [exact Hcounter|]. split; [exact Hsamples|].
  split; [|split; [exact Hsilent|split; [|exact Hfifo]]].
  - intros Hshow Hret. destruct (returned s) as [r|] eqn:Hr; [|contradiction].
    specialize (Hsamples Hshow).
    rewrite (returned_workers_done _ _ sample_due _ _ Hphase Hr eq_refl), app_nil_r
      in Hsamples.
    exact Hsamples.
  - intros a s' evs u queued Hs Htrace Hin. eapply send_progress_step; eauto.
Qed.

End Sampling.

(** An instance of C9: ten directories made by one worker. *)
Lemma samples_of_a_run_witness :
  exists s : State,
    Run (H := Sample.platform [] [])
      (MkParallelCopier (replicate 10 (Sample.autodetect_item "docs"))
         (Sample.reporting_options false))
      "/src" "/dst"
      (Sample.to_the_workers 10 ++ concat (replicate 10 (Sample.one_task 0 4)))
      Sample.checkout = Some s /\
    counts (trace s) = [1; 2; 3; 4; 5; 6; 7; 8; 9; 10] /\
    map Current (samples_sent (trace s)) = [10] /\
    buf (progress s) = progress_queued (trace s) /\
    completedTasks s = wrap64 (Z.of_nat (length (tasks_counted (trace s)))) /\
    map Current (samples_sent (trace s)) ++ flat_map sample_due (workers s)
    ≡ₚ List.filter tenth (counts (trace s)).
Proof.
  eexists. split; [vm_compute; reflexivity|].
  split; [vm_compute; reflexivity|]. split; [vm_compute; reflexivity|].
  split; [vm_compute; reflexivity|].
  pose proof (samples_of_a_run (H := Sample.platform [] [])
                (MkParallelCopier (replicate 10 (Sample.autodetect_item "docs"))
                   (Sample.reporting_options false))
                "/src" "/dst" Sample.checkout
                (Sample.to_the_workers 10 ++ concat (replicate 10 (Sample.one_task 0 4)))
                _ ltac:(vm_compute; reflexivity))
    as (_ & Hcounter & Hsamples & _).
  split; [exact Hcounter | exact (Hsamples eq_refl)].
Defined.

(** ** Runs on the sample checkout *)

(** C1, on one failing task.  [run.sh] is to be copied into a
    destination that cannot be created, errors are not continued on.  The
    worker that takes the task finds it to fail, sends the error on
    [pc.results] and returns; the other workers find the queue drained;
    [Run] returns [nil], and the error is still in the buffer of
    [pc.results], which nothing reads. *)
Example Run_returns_nil_after_fatal_error :
  let failure := WrapError "failed to create destination directory"
                   (PathError "mkdir" "/dst" false) in
  match Run (H := Sample.platform [] [])
          (MkParallelCopier [Sample.file_item "run.sh"] Sample.default_options)
          "/src" "/dst" (Sample.single_task_schedule 3 [1; 2; 3]%nat []) Sample.readonly_dest
  with
  | Some s =>
      ContinueOnError Sample.default_options = false /\
      tasks_failed (trace s)
      = [(MkCopyTask "/src/run.sh" "/dst/run.sh" false 5, failure)] /\
      workers s = [WDone; WDone; WDone; WDone] /\
      buf (results s) = [failure] /\
      returned s = Some None
  | None => False
  end.
Proof. vm_compute. repeat split. Qed.



(** With 990 files copied before the progress handler takes its first
    update, [start] and the 99 samples fill the progress channel and
    [complete] is dropped: the last update handed to the callback is the
    sample of the 990th file. *)
Example complete_dropped_when_buffer_full :
  match Run (H := Sample.platform [] [])
          (MkParallelCopier (replicate 990 (Sample.file_item "run.sh"))
             (Sample.reporting_options false))
          "/src" "/dst"
          (Sample.serial_schedule 990 4 (replicate 101 ActProgressHandler ++ [ActErrorHandler]))
          Sample.checkout
  with
  | Some s =>
      returned s = Some None /\
      length (progress_delivered (trace s)) = 100%nat /\
      option_map UpdType (last (progress_delivered (trace s))) = Some ProgressTypeProgress /\
      option_map Current (last (progress_delivered (trace s))) = Some 990 /\
      progressHandler s = HExited
  | None => False
  end.
Proof. vm_compute. repeat split. Qed.





(** Ten directories made by one worker: the one sample is sent when the
    counter reaches ten. *)
Example sample_at_the_tenth_task :
  match Run (H := Sample.platform [] [])
          (MkParallelCopier (replicate 10 (Sample.autodetect_item "docs"))
             (Sample.reporting_options false))
          "/src" "/dst"
          (Sample.to_the_workers 10 ++ concat (replicate 10 (Sample.one_task 0 4)))
          Sample.checkout
  with
  | Some s =>
      completedTasks s = 10 /\
      map (fun u => (UpdType u, Current u)) (progress_sent (trace s))
      = [(ProgressTypeStart, 0); (ProgressTypeProgress, 10)]
  | None => False
  end.
Proof. vm_compute. repeat split. Qed.



(** ** Byte slices *)

(** X1: [equalBytes] decides equality.  It answers [true] exactly when
    the two slices have the same length and the same byte at every
    index. *)
Theorem equalBytes_decides_equality (a b : list byte) :
  equalBytes a b = true
  <-> length a = length b /\ forall i : nat, a !! i = b !! i.
Proof.
  rewrite equalBytes_spec. split.
  - intros ->. auto.
  - intros (_ & Hall). apply list_eq. exact Hall.
Qed.

(** ** The task queue and the results channel *)

Lemma finished_insert (ws : list WorkerPC) (i : nat) (w w' : WorkerPC) :
  ws !! i = Some w ->
  (finished (<[i := w']> ws) + length (done_mark w)
   = finished ws + length (done_mark w'))%nat.
Proof.
  intros Hi. unfold finished.
  destruct (flat_map_insert done_mark ws i w w' Hi) as (R & H1 & H2).
  rewrite (Permutation_length H1), (Permutation_length H2), !length_app. lia.
Qed.

Lemma finished_replicate (n : nat) : finished (replicate n WRange) = 0%nat.
Proof. unfold finished. rewrite flat_map_replicate_nil; reflexivity. Qed.

Lemma finished_le (ws : list WorkerPC) : (finished ws <= length ws)%nat.
Proof.
  unfold finished. induction ws as [|w ws IH]; simpl; [lia|].
  rewrite length_app. destruct w; simpl; lia.
Qed.

Lemma finished_lt (ws : list WorkerPC) (i : nat) (w : WorkerPC) :
  ws !! i = Some w -> w <> WDone -> (finished ws < length ws)%nat.
Proof.
  unfold finished. revert i. induction ws as [|x ws IH]; intros i Hi Hw; [discriminate|].
  simpl. rewrite length_app. destruct i as [|i]; simpl in Hi.
  - injection Hi as ->. pose proof (finished_le ws) as Hle. unfold finished in Hle.
    destruct w; simpl; try lia. contradiction.
  - specialize (IH i Hi Hw). destruct x; simpl; lia.
Qed.

Lemma finished_all (ws : list WorkerPC) :
  forallb is_done ws = true -> finished ws = length ws.
Proof.
  unfold finished. induction ws as [|w ws IH]; simpl; [reflexivity|].
  intros Hall. apply andb_prop in Hall as [Hw Hws]. rewrite length_app, (IH Hws).
  destruct w; try discriminate. reflexivity.
Qed.

Lemma not_all_done (ws : list WorkerPC) :
  forallb is_done ws = false -> exists i w, ws !! i = Some w /\ w <> WDone.
Proof.
  induction ws as [|x ws IH]; simpl; [discriminate|].
  destruct (is_done x) eqn:Hx; simpl.
  - intros Hws. destruct (IH Hws) as (i & w & Hi & Hw). exists (S i), w. auto.
  - intros _. exists 0%nat, x. split; [reflexivity|]. intros ->. discriminate.
Qed.

Section Queue.
Context `{Platform}.
Variable pc : ParallelCopier.
Variables sourceDir destDir : string.
Variable w0 : World.

Lemma queue_inv_initial : queue_inv pc (initial_state w0).
Proof.
  constructor; cbn; intros; try discriminate; try contradiction; try reflexivity;
    try lia; try (split; reflexivity).
  split; discriminate.
Qed.

Lemma queue_inv_step a s s' :
  phase_inv pc w0 s -> queue_inv pc s ->
  step pc sourceDir destDir a s = Some s' -> queue_inv pc s'.
Proof.
  intros Hinv Hq Hs.
  pose proof Hinv as [Hbefore Hcaps Hafter Hclosed Hps Hph Hpe Hes Heh Hee].
  pose proof Hq as [Qcaps Qworkers Qclosed Qresults Qdrained Qaborted Qsilent Qjoin Qerror].
  step_cases Hs.
  all: try match goal with
       | Hw : workers _ !! _ = Some _ |- _ =>
           destruct (worker_running _ _ _ _ _ Hinv Hw ltac:(discriminate))
             as (Hst & Hwait & Hcp & Hce & Hpx & Hex);
           pose proof (finished_insert _ _ _ WRange Hw) as Hfin
       end.
  all: try match goal with
       | Hc : coordinator _ = CInit |- _ =>
           pose proof (before_start _ _ _ Hinv ltac:(rewrite Hc; exact I)) as Hidle
       | Hc : coordinator _ = CDiscover _ _ |- _ =>
           pose proof (before_start _ _ _ Hinv ltac:(rewrite Hc; exact I)) as Hidle
       end.
  all: clear Hinv Hq.
  all: try match goal with
       | Hidle : producer _ = PIdle |- _ =>
           destruct (Hbefore Hidle) as (Hws & _); rewrite Hws in *; clear Hbefore
       end.
  all: constructor; state_simpl; trace_simpl.
  all: rewrite ?length_insert, ?finished_replicate, ?length_replicate.
  all: try match goal with
       | Hw : workers ?s0 !! ?i = Some ?w |- context [finished (<[?i := ?w']> (workers ?s0))] =>
           let Hf := fresh "Hf" in
           pose proof (finished_insert _ _ _ w' Hw) as Hf; cbn [done_mark length] in Hf
       end.
  all: cbv [finished] in Qresults, Qdrained; cbn [flat_map length] in Qresults, Qdrained;
       fold (finished (workers s)) in Qresults, Qdrained.
  all: intros.
  all: repeat match goal with
         | |- context [if ?b then _ else _] => destruct b
         end; trace_simpl.
  all: rewrite ?length_app; cbn [length].
  all: try match goal with
       | Hn : negb ?b = true, Hb : ?b = true |- _ => rewrite Hb in Hn; discriminate Hn
       end.
  all: try solve [assumption | lia | discriminate | congruence | auto
                 | chain; first [assumption | lia | congruence | discriminate | contradiction]
                 | split; intros Hx; [apply Qclosed in Hx; congruence | discriminate]
                 | destruct Qdrained as [Hp Hb]; [assumption | lia | congruence]
                 | destruct Qdrained as [Hp Hb]; [assumption | lia | split; assumption] ].
  all: try match goal with
       | Hws : workers _ = [], Hpos : (0 < finished (workers _))%nat |- _ =>
           rewrite Hws in Hpos; cbv in Hpos; lia
       end.
  all: try solve [split; [discriminate | congruence]
                 | split; reflexivity
                 | apply Qjoin; assumption
                 | split; [apply Qclosed; assumption | assumption]
                 | match goal with
                   | Hc : coordinator _ = CReturned (Some _) |- _ =>
                       destruct (Qerror _ Hc) as (Hp & _); congruence
                   end
                 | match goal with
                   | Hc : CReturned _ = CReturned _ |- _ =>
                       injection Hc as <-; split; [assumption | split; [assumption|]];
                       eexists; reflexivity
                   end ].
  all: try solve [split; [apply Qclosed; reflexivity | assumption]].
  all: try match goal with
       | Hc : coordinator _ = CJoin |- _ => destruct (Qjoin Hc); split; assumption
       end.
  destruct Qsilent as [Ht _]; [assumption | assumption |].
  split; [exact Ht | reflexivity].
Qed.
End Queue.

Section Placement.
Context `{Platform}.
Variable pc : ParallelCopier.
Variables sourceDir destDir : string.
Variable w0 : World.

Lemma placement_inv_initial : placement_inv pc sourceDir destDir w0 (initial_state w0).
Proof.
  constructor; cbn.
  - intros items tasks Hc. discriminate.
  - intros items tasks _ Hc. discriminate.
  - intros r _ Hc. discriminate.
  - intros e Hc. discriminate.
  - intros Hp. exfalso. apply Hp. reflexivity.
  - reflexivity.
Qed.

Lemma placement_discover_step a s s' :
  phase_inv pc w0 s -> placement_inv pc sourceDir destDir w0 s ->
  step pc sourceDir destDir a s = Some s' ->
  (forall items tasks,
     coordinator s' = CDiscover items tasks ->
     discovered_tasks (options pc) w0 sourceDir destDir items tasks
     = discovered_tasks (options pc) w0 sourceDir destDir (config_Items pc) []) /\
  (forall r,
     producer s' = PIdle -> coordinator s' = CReturned r ->
     discovered_tasks (options pc) w0 sourceDir destDir (config_Items pc) []
     = match r with
       | None => Some []
       | Some _ => None
       end).
Proof.
  intros Hinv [Hdisc _ Hnothing _ _ _] Hs.
  pose proof Hinv as [Hbefore _ _ _ _ _ _ _ _ _].
  step_cases Hs.
  all: try match goal with
       | Hw : workers _ !! _ = Some _ |- _ =>
           destruct (worker_running _ _ _ _ _ Hinv Hw ltac:(discriminate))
             as (Hst & Hwait & _)
       end.
  all: try match goal with
       | Hc : coordinator _ = CDiscover _ _ |- _ =>
           pose proof (before_start _ _ _ Hinv ltac:(rewrite Hc; exact I)) as Hidle;
           destruct (Hbefore Hidle) as (_ & Hworld & _)
       end.
  all: clear Hinv.
  all: state_simpl; split; [intros items' tasks' Hc | intros r Hp Hc]; try discriminate Hc;
       try congruence.
  all: try match goal with
       | Hp : producer ?s0 = PIdle, Hj : coordinator ?s0 = CJoin |- _ =>
           destruct (Hbefore Hp) as (_ & _ & _ & _ & _ & _ & _ & _ & _ & Hco);
           try rewrite Hj in Hco; contradiction
       end.
  all: try solve [eapply Hdisc; eauto | eapply Hnothing; eauto].
  all: try (injection Hc as <- <-); try (injection Hc as <-); try reflexivity.
  all: try rewrite <- (Hdisc _ _ eq_refl); cbn [discovered_tasks].
  all: try rewrite Hworld in *.
  all: try match goal with Hd : discoverItemTasks _ _ _ _ _ = _ |- _ => rewrite Hd end.
  all: try match goal with Hd : ContinueOnError _ = _ |- _ => rewrite Hd end.
  all: try reflexivity.
  all: match goal with
       | Hz : (Z.of_nat (length ?tasks) =? 0) = true |- _ =>
           apply Z.eqb_eq in Hz; destruct tasks; [reflexivity | simpl in Hz; lia]
       end.
Qed.

Lemma placement_failure_step a s s' :
  phase_inv pc w0 s -> placement_inv pc sourceDir destDir w0 s ->
  step pc sourceDir destDir a s = Some s' ->
  (forall items tasks,
     ContinueOnError (options pc) = false ->
     coordinator s' = CDiscover items tasks ->
     first_failure (options pc) w0 sourceDir destDir items
     = first_failure (options pc) w0 sourceDir destDir (config_Items pc)) /\
  (forall e,
     coordinator s' = CReturned (Some e) ->
     exists cause,
       e = WrapError "failed to discover copy tasks" cause /\
       first_failure (options pc) w0 sourceDir destDir (config_Items pc) = Some cause).
Proof.
  intros Hinv [_ Hfail _ Herror _ _] Hs.
  pose proof Hinv as [Hbefore _ _ _ _ _ _ _ _ _].
  step_cases Hs.
  all: try match goal with
       | Hc : coordinator _ = CDiscover _ _ |- _ =>
           pose proof (before_start _ _ _ Hinv ltac:(rewrite Hc; exact I)) as Hidle;
           destruct (Hbefore Hidle) as (_ & Hworld & _)
       end.
  all: clear Hinv Hbefore.
  all: state_simpl; split; [intros items' tasks' Hcont Hc | intros e' Hc];
       try discriminate Hc; try congruence.
  all: try solve [eapply Hfail; eauto | eapply Herror; eauto].
  all: try (injection Hc as <- <-); try (injection Hc as <-); try reflexivity.
  all: try match goal with
       | Hcont : ContinueOnError _ = false |- _ => rewrite <- (Hfail _ _ Hcont eq_refl)
       | Hcont : ContinueOnError _ = false |- _ => rewrite <- (Hfail _ _ Hcont eq_refl)
       end; cbn [first_failure].
  all: try rewrite Hworld in *.
  all: try match goal with Hd : discoverItemTasks _ _ _ _ _ = _ |- _ => rewrite Hd end.
  all: try reflexivity.
  all: eexists; split; [reflexivity|].
  all: rewrite <- (Hfail _ _ eq_refl eq_refl); cbn [first_failure].
  all: match goal with Hd : discoverItemTasks _ _ _ _ _ = _ |- _ => rewrite Hd end.
  all: reflexivity.
Qed.

Lemma placement_started_step a s s' :
  phase_inv pc w0 s -> placement_inv pc sourceDir destDir w0 s ->
  step pc sourceDir destDir a s = Some s' ->
  producer s' <> PIdle ->
  exists ts : list CopyTask,
    discovered_tasks (options pc) w0 sourceDir destDir (config_Items pc) [] = Some ts /\
    ts ≡ₚ tasks_counted (trace s') ++ pending s' ++ tasks_aborted (trace s').
Proof.
  intros Hinv [Hdisc _ _ _ Hst _] Hs.
  pose proof Hinv as [Hbefore _ _ _ _ _ _ _ _ _].
  unfold pending in *.
  step_cases Hs.
  all: try match goal with
       | Hw : workers _ !! _ = Some _ |- _ =>
           destruct (worker_running _ _ _ _ _ Hinv Hw ltac:(discriminate))
             as (Hrun & _)
       end.
  all: try match goal with
       | Hc : coordinator _ = CInit |- _ =>
           pose proof (before_start _ _ _ Hinv ltac:(rewrite Hc; exact I)) as Hidle
       | Hc : coordinator _ = CDiscover _ _ |- _ =>
           pose proof (before_start _ _ _ Hinv ltac:(rewrite Hc; exact I)) as Hidle
       end.
  all: clear Hinv.
  all: state_simpl; trace_simpl.
  all: intros Hprod; try contradiction.
  all: repeat match goal with
         | |- context [if ?b then _ else _] => destruct b
         end; trace_simpl.
  all: try solve [exact (Hst Hprod)].
  all: try (
    let Hp := fresh in
    match type of Hst with
    | ?P -> _ => assert (Hp : P) by (first [assumption | discriminate | congruence])
    end;
    destruct (Hst Hp) as (ts & HD & Hperm); clear Hp Hst;
    exists ts; split; [exact HD|]).
  all: try match goal with
       | Hw : workers ?s0 !! ?i = Some ?w |- context [<[?i := ?w']> (workers ?s0)] =>
           destruct (flat_map_insert held (workers s0) i w w' Hw) as (R & HR1 & HR2);
           rewrite HR2; rewrite HR1 in Hperm
       end.
  all: cbn [held unsent] in *; known.
  all: try solve [rewrite Hperm; solve_Permutation].
  all: try solve [exact Hperm].
  (* the workers start *)
  all: destruct (Hbefore Hidle) as (_ & _ & Hq & _ & _ & _ & _ & _ & Htr & _);
    destruct (discovery_quiet _ Htr) as (_ & _ & _ & _ & Hcounted & Haborted & _);
    pose proof (Hdisc _ _ eq_refl) as HD; cbn [discovered_tasks] in HD;
    symmetry in HD; exists tasks; rewrite Hcounted, Haborted, Hq;
    rewrite flat_map_replicate_nil by reflexivity;
    cbn [app]; rewrite !app_nil_r; split; [exact HD | reflexivity].
Qed.

Lemma placement_processed_step a s s' :
  phase_inv pc w0 s ->
  tasks_processed (trace s)
  ≡ₚ tasks_counted (trace s) ++ tasks_aborted (trace s)
       ++ flat_map after_process (workers s) ->
  step pc sourceDir destDir a s = Some s' ->
  tasks_processed (trace s')
  ≡ₚ tasks_counted (trace s') ++ tasks_aborted (trace s')
       ++ flat_map after_process (workers s').
Proof.
  intros Hinv Hproc Hs.
  pose proof Hinv as [Hbefore _ _ _ _ _ _ _ _ _].
  step_cases Hs.
  all: try match goal with
       | Hc : coordinator _ = CDiscover _ _ |- _ =>
           pose proof (before_start _ _ _ Hinv ltac:(rewrite Hc; exact I)) as Hidle;
           destruct (Hbefore Hidle) as (Hws & _); rewrite Hws in Hproc
       end.
  all: clear Hinv Hbefore.
  all: state_simpl; trace_simpl.
  all: rewrite ?flat_map_replicate_nil by reflexivity.
  all: try exact Hproc.
  all: try match goal with
       | Hw : workers ?s0 !! ?i = Some ?w |- context [<[?i := ?w']> (workers ?s0)] =>
           destruct (flat_map_insert after_process (workers s0) i w w' Hw)
             as (R & HR1 & HR2);
           rewrite HR2; rewrite HR1 in Hproc
       end.
  all: cbn [after_process] in *.
  all: repeat match goal with
         | |- context [if ?b then _ else _] => destruct b
         end; trace_simpl.
  all: try match goal with Hw : workers _ = [] |- _ => rewrite Hw end.
  all: first [exact Hproc | rewrite Hproc; solve_Permutation].
Qed.

Lemma placement_inv_step a s s' :
  phase_inv pc w0 s -> placement_inv pc sourceDir destDir w0 s ->
  step pc sourceDir destDir a s = Some s' ->
  placement_inv pc sourceDir destDir w0 s'.
Proof.
  intros Hinv Hpl Hs.
  destruct (placement_discover_step _ _ _ Hinv Hpl Hs) as (Hd & Hn).
  destruct (placement_failure_step _ _ _ Hinv Hpl Hs) as (Hf & He).
  constructor.
  - exact Hd.
  - exact Hf.
  - exact Hn.
  - exact He.
  - eapply placement_started_step; eauto.
  - eapply placement_processed_step; eauto. apply Hpl.
Qed.

End Placement.

(** ** What a copy leaves alone *)

(** Membership in a short list of paths. *)
Ltac path_solver :=
  repeat intro;
  repeat match goal with
    | H : _ ∈ _ |- _ => rewrite ?elem_of_app, ?elem_of_cons, ?elem_of_nil in H
    end;
  rewrite ?elem_of_app, ?elem_of_cons, ?elem_of_nil;
  intuition congruence.

Lemma changes_only_refl (ps : list string) (w : World) : changes_only ps w w.
Proof. repeat split; auto. Qed.

Lemma changes_only_trans (ps qs : list string) (w1 w2 w3 : World) :
  changes_only ps w1 w2 -> changes_only qs w2 w3 -> changes_only (ps ++ qs) w1 w3.
Proof.
  intros (Hu1 & Hr1 & Hf1 & He1) (Hu2 & Hr2 & Hf2 & He2).
  repeat split; try congruence.
  - intros p Hp. rewrite not_elem_of_app in Hp. destruct Hp as [Hp Hq].
    rewrite Hf2, Hf1 by assumption. reflexivity.
  - intros p Hp. auto.
Qed.

Lemma changes_only_mono (ps qs : list string) (w w' : World) :
  (forall p, p ∈ ps -> p ∈ qs) -> changes_only ps w w' -> changes_only qs w w'.
Proof.
  intros Hsub (Hu & Hr & Hf & He). repeat split; auto.
Qed.

Lemma changes_only_insert (w : World) (path : string) (n : node) :
  changes_only [path] w (set_files (<[path := n]> (files w)) w).
Proof.
  repeat split; cbn.
  - intros p Hp. apply lookup_insert_ne. intros ->. apply Hp. left.
  - intros p Hp. destruct (decide (path = p)) as [->|Hne].
    + rewrite lookup_insert_eq. eauto.
    + rewrite lookup_insert_ne by exact Hne. exact Hp.
Qed.

Lemma adds_directories_refl (ps : list string) (w : World) : adds_directories ps w w.
Proof. repeat split; auto. Qed.

Lemma adds_directories_trans (ps qs : list string) (w1 w2 w3 : World) :
  adds_directories ps w1 w2 -> adds_directories qs w2 w3 ->
  adds_directories (ps ++ qs) w1 w3.
Proof.
  intros (Hu1 & Hr1 & Hf1) (Hu2 & Hr2 & Hf2).
  split; [congruence|]. split; [congruence|].
  intros p. destruct (Hf2 p) as [H23|(Hq & Hnone & m & Hdir)], (Hf1 p) as [H12|(Hp & Hnone1 & m1 & Hdir1)].
  - left. congruence.
  - right. split; [apply elem_of_app; auto|]. split; [exact Hnone1|]. exists m1. congruence.
  - right. split; [apply elem_of_app; auto|]. split; [congruence|]. eauto.
  - congruence.
Qed.

Lemma adds_directories_mono (ps qs : list string) (w w' : World) :
  (forall p, p ∈ ps -> p ∈ qs) -> adds_directories ps w w' -> adds_directories qs w w'.
Proof.
  intros Hsub (Hu & Hr & Hf). split; [exact Hu|]. split; [exact Hr|].
  intros p. destruct (Hf p) as [Hsame|(Hp & Hrest)]; auto.
Qed.

(** Making directories changes nothing but the paths they are made at. *)
Lemma adds_directories_changes (ps : list string) (w w' : World) :
  adds_directories ps w w' -> changes_only ps w w'.
Proof.
  intros (Hu & Hr & Hf). split; [exact Hu|]. split; [exact Hr|]. split.
  - intros p Hp. destruct (Hf p) as [Hsame|(Hin & _)]; [exact Hsame | contradiction].
  - intros p Hsome. destruct (Hf p) as [Hsame|(_ & Hnone & _)].
    + rewrite Hsame. exact Hsome.
    + rewrite Hnone in Hsome. destruct Hsome as [n Hn]. discriminate.
Qed.

(** An entry that was there is left as it was. *)
Lemma adds_directories_keeps (ps : list string) (w w' : World) (p : string) (n : node) :
  adds_directories ps w w' -> files w !! p = Some n -> files w' !! p = Some n.
Proof.
  intros (_ & _ & Hf) Hp. destruct (Hf p) as [Hsame|(_ & Hnone & _)]; congruence.
Qed.

(** A regular file that is there was there before. *)
Lemma adds_directories_file (ps : list string) (w w' : World) (p : string)
    (m : Z) (d : list byte) :
  adds_directories ps w w' -> files w' !! p = Some (FileNode m d) ->
  files w !! p = Some (FileNode m d).
Proof.
  intros (_ & _ & Hf) Hp. destruct (Hf p) as [Hsame|(_ & _ & m' & Hdir)]; congruence.
Qed.

Lemma os_Mkdir_adds (path : string) (perm : Z) (w : World) :
  adds_directories [path] w (fst (os_Mkdir path perm w)).
Proof.
  unfold os_Mkdir.
  destruct (refuses w "mkdir" path); cbn; [apply adds_directories_refl|].
  destruct (files w !! path) as [n|] eqn:Hpath; cbn; [apply adds_directories_refl|].
  split; [reflexivity|]. split; [reflexivity|]. intros p. cbn.
  destruct (decide (path = p)) as [<-|Hne].
  - right. rewrite lookup_insert_eq. split; [left|]. eauto.
  - left. apply lookup_insert_ne. exact Hne.
Qed.

Section MakingDirectories.
Context `{Platform}.

(** [os.MkdirAll] makes directories at the path and above it, where
    there was none, and changes nothing else. *)
Lemma os_MkdirAll_from_adds (perm : Z) (fuel : nat) :
  forall (path : string) (w : World),
    adds_directories (path :: parents_upto fuel path) w
      (fst (os_MkdirAll_from fuel path perm w)).
Proof.
  assert (Hlast : forall path w1 (ps : list string),
            adds_directories (path :: ps) w1
              (fst (match os_Mkdir path perm w1 with
                    | (w2, Some e) =>
                        match files w2 !! path with
                        | Some (DirNode _) => (w2, None)
                        | _ => (w2, Some e)
                        end
                    | (w2, None) => (w2, None)
                    end))).
  { intros path w1 ps. pose proof (os_Mkdir_adds path perm w1) as Hmk.
    destruct (os_Mkdir path perm w1) as [w2 [e|]]; cbn [fst] in *.
    - destruct (files w2 !! path) as [[m d|m]|]; cbn [fst];
        (eapply adds_directories_mono; [|exact Hmk]); path_solver.
    - eapply adds_directories_mono; [|exact Hmk]. path_solver. }
  induction fuel as [|fuel IH]; intros path w; cbn [os_MkdirAll_from parents_upto].
  - destruct (files w !! path) as [[m d|m]|]; cbn [fst]; try apply adds_directories_refl.
    destruct (String.eqb (filepath_Dir path) path); cbn [fst];
      [apply adds_directories_refl | apply Hlast].
  - destruct (files w !! path) as [[m d|m]|]; cbn [fst]; try apply adds_directories_refl.
    destruct (String.eqb (filepath_Dir path) path); cbn [fst];
      [apply adds_directories_refl|].
    specialize (IH (filepath_Dir path) w).
    destruct (os_MkdirAll_from fuel (filepath_Dir path) perm w) as [w1 [e|]];
      cbn [fst] in *.
    + eapply adds_directories_mono; [|exact IH]. path_solver.
    + eapply adds_directories_mono;
        [|eapply adds_directories_trans; [exact IH | apply (Hlast path w1 [])]].
      path_solver.
Qed.

Lemma os_MkdirAll_adds (path : string) (perm : Z) (w : World) :
  adds_directories (path :: parents path) w (fst (os_MkdirAll path perm w)).
Proof. apply os_MkdirAll_from_adds. Qed.

Lemma os_MkdirAll_frame (path : string) (perm : Z) (w : World) :
  changes_only (path :: parents path) w (fst (os_MkdirAll path perm w)).
Proof. apply adds_directories_changes, os_MkdirAll_adds. Qed.

(** Nothing is done for a directory that is there. *)
Lemma os_MkdirAll_there (path : string) (perm m : Z) (w : World) :
  files w !! path = Some (DirNode m) -> os_MkdirAll path perm w = (w, None).
Proof.
  intros Hdir. unfold os_MkdirAll.
  destruct (String.length path); cbn [os_MkdirAll_from]; rewrite Hdir; reflexivity.
Qed.

End MakingDirectories.

Lemma os_Create_frame (path : string) (w : World) :
  changes_only [path] w (fst (os_Create path w)).
Proof.
  unfold os_Create.
  destruct (refuses w "create" path); cbn; [apply changes_only_refl|].
  destruct (files w !! path) as [[m d|m]|]; cbn;
    first [apply changes_only_refl | apply changes_only_insert].
Qed.

Lemma os_Chmod_frame (path : string) (mode : Z) (w : World) :
  changes_only [path] w (fst (os_Chmod path mode w)).
Proof.
  unfold os_Chmod.
  destruct (refuses w "chmod" path); cbn; [apply changes_only_refl|].
  destruct (files w !! path) as [[m d|m]|]; cbn;
    first [apply changes_only_refl | apply changes_only_insert].
Qed.

Lemma file_writer_frame (f : OsFile) (p : list byte) (w : World) :
  changes_only [of_path f] w (fst (file_writer f p w)).
Proof.
  unfold file_writer.
  destruct (refuses w "write" (of_path f)); cbn; [apply changes_only_refl|].
  destruct (files w !! of_path f) as [[m d|m]|]; cbn;
    first [apply changes_only_refl | apply changes_only_insert].
Qed.

Lemma changes_only_same (path : string) (w1 w2 w3 : World) :
  changes_only [path] w1 w2 -> changes_only [path] w2 w3 -> changes_only [path] w1 w3.
Proof.
  intros H12 H23. eapply changes_only_mono; [|eapply changes_only_trans; eauto].
  intros p Hp. rewrite elem_of_app in Hp. tauto.
Qed.

(** The plain copy loop over the pieces of a file: only the destination
    file changes, and when the loop ends without error the destination
    has grown by the pieces. *)
Lemma copy_pieces (src : string) (destFile : OsFile) (pieces : list (list byte)) :
  forall (w w' : World) (e : option error),
    io_CopyBuffer (file_writer destFile)
      (map (fun p w => if refuses w "read" src
                       then (w, ReadFail (PathError "read" src false))
                       else (w, Data p)) pieces) w = (w', e) ->
    changes_only [of_path destFile] w w' /\
    (e = None -> forall m d0,
       files w !! of_path destFile = Some (FileNode m d0) ->
       files w' !! of_path destFile = Some (FileNode m (d0 ++ concat pieces))).
Proof.
  induction pieces as [|p pieces IH]; intros w w' e Hrun.
  - simpl in Hrun. injection Hrun as <- <-. split; [apply changes_only_refl|].
    intros _ m d0 Hd. simpl. rewrite app_nil_r. exact Hd.
  - cbn [map io_CopyBuffer] in Hrun.
    destruct (refuses w "read" src) eqn:Hread.
    { injection Hrun as <- <-. split; [apply changes_only_refl | discriminate]. }
    pose proof (file_writer_frame destFile p w) as Hframe.
    destruct (file_writer destFile p w) as [w1 [err|]] eqn:Hwr; cbn [fst] in Hframe.
    { injection Hrun as <- <-. split; [exact Hframe | discriminate]. }
    destruct (IH _ _ _ Hrun) as (Hrest & Hcontent).
    split; [eapply changes_only_same; eauto|].
    intros He m d0 Hd. unfold file_writer in Hwr.
    destruct (refuses w "write" (of_path destFile)); [discriminate|].
    rewrite Hd in Hwr. injection Hwr as <-.
    rewrite (Hcontent He m (d0 ++ p)).
    + simpl. rewrite <- app_assoc. reflexivity.
    + cbn. apply lookup_insert_eq.
Qed.

(** The same for the loop of a verified copy. *)
Lemma hashed_pieces_frame (hs hd : Hash) (src : string) (destFile : OsFile)
    (pieces : list (list byte)) :
  forall (s s' : HashedCopy hs hd) (e : option error),
    io_CopyBuffer
      (io_MultiWriter (on_world_writer (file_writer destFile)) dest_hash_writer)
      (io_TeeReader
         (on_world_reader
            (map (fun p w => if refuses w "read" src
                             then (w, ReadFail (PathError "read" src false))
                             else (w, Data p)) pieces))
         source_hash_writer) s = (s', e) ->
    changes_only [of_path destFile] (hc_world s) (hc_world s').
Proof.
  unfold io_TeeReader, on_world_reader, io_MultiWriter, on_world_writer,
    source_hash_writer, dest_hash_writer.
  induction pieces as [|p pieces IH]; intros s s' e Hrun.
  - simpl in Hrun. injection Hrun as <- <-. apply changes_only_refl.
  - cbn [map io_CopyBuffer hc_world hc_source hc_dest] in Hrun.
    destruct (refuses (hc_world s) "read" src) eqn:Hread.
    { injection Hrun as <- <-. apply changes_only_refl. }
    cbn [hc_world hc_source hc_dest] in Hrun.
    pose proof (file_writer_frame destFile p (hc_world s)) as Hframe.
    destruct (file_writer destFile p (hc_world s)) as [w1 [err|]] eqn:Hwr;
      cbn [fst hc_world hc_source hc_dest] in *.
    { injection Hrun as <- <-. exact Hframe. }
    apply IH in Hrun. cbn [hc_world] in Hrun.
    eapply changes_only_same; eauto.
Qed.

Lemma os_Open_ok (path : string) (w : World) (f : OsFile) :
  os_Open path w = Ok f ->
  of_path f = path /\
  ((exists m d, files w !! path = Some (FileNode m d) /\ of_data f = Some d) \/
   (exists m, files w !! path = Some (DirNode m) /\ of_data f = None)).
Proof.
  unfold os_Open. destruct (refuses w "open" path); [discriminate|].
  destruct (files w !! path) as [[m d|m]|]; try discriminate; intros [= <-]; cbn; eauto 8.
Qed.

Lemma os_Create_ok (path : string) (w w2 : World) (f : OsFile) :
  os_Create path w = (w2, Ok f) ->
  f = MkOsFile path None /\
  files w2 !! path = Some (FileNode (create_mode w path) []) /\
  (forall m, files w !! path <> Some (DirNode m)).
Proof.
  unfold os_Create, create_mode. destruct (refuses w "create" path); [discriminate|].
  destruct (files w !! path) as [[m d|m]|]; try discriminate; intros [= <- <-]; cbn;
    rewrite lookup_insert_eq; repeat split; congruence.
Qed.

Section CopyFile.
Context `{Platform}.

Lemma copyWithVerification_frame (options : ParallelCopyOptions)
    (sourceFile destFile : OsFile) (w : World) :
  changes_only [of_path destFile] w
    (fst (copyWithVerification options sourceFile destFile w)).
Proof.
  unfold copyWithVerification.
  destruct (String.eqb (ChecksumType options) "sha256"); [|apply changes_only_refl].
  unfold copyWithHashes, hashedCopyPass, file_reader.
  destruct (of_data sourceFile) as [d|].
  - destruct (io_CopyBuffer _ _ _) as [s e] eqn:Hpass.
    apply hashed_pieces_frame in Hpass. cbn [hc_world] in Hpass.
    destruct e; [exact Hpass|]. destruct (negb _); exact Hpass.
  - cbn. apply changes_only_refl.
Qed.

(** The stages of [copyFile]: [os.MkdirAll] makes directories above the
    destination, then nothing but the destination changes. *)
Lemma copyFile_stages (options : ParallelCopyOptions) (sourcePath destPath : string)
    (w : World) :
  exists w1 : World,
    adds_directories (filepath_Dir destPath :: parents (filepath_Dir destPath)) w w1 /\
    changes_only [destPath] w1 (fst (copyFile options sourcePath destPath w)).
Proof.
  unfold copyFile.
  pose proof (os_MkdirAll_adds (filepath_Dir destPath) 493 w) as Hmk.
  destruct (os_MkdirAll (filepath_Dir destPath) 493 w) as [w1 [e|]]; cbn [fst] in Hmk;
    exists w1; (split; [exact Hmk|]); [apply changes_only_refl|].
  destruct (os_Open sourcePath w1) as [sourceFile|e] eqn:Hop; [|apply changes_only_refl].
  pose proof (os_Create_frame destPath w1) as Hcr.
  destruct (os_Create destPath w1) as [w2 [destFile|e]] eqn:Hcreate; cbn [fst] in Hcr;
    [|exact Hcr].
  apply os_Create_ok in Hcreate as (-> & _).
  assert (Htail : forall w3, changes_only [destPath] w2 w3 -> changes_only [destPath] w1 w3).
  { intros w3 H3. eapply changes_only_same; eauto. }
  destruct (VerifyIntegrity options).
  - apply Htail. apply (copyWithVerification_frame options sourceFile (MkOsFile destPath None)).
  - unfold file_reader. destruct (of_data sourceFile) as [d|].
    + destruct (io_CopyBuffer _ _ w2) as [w3 e] eqn:Hcopy.
      apply copy_pieces in Hcopy as (Hframe & _). cbn [of_path] in Hframe.
      destruct e; apply Htail; exact Hframe.
    + cbn. apply Htail, changes_only_refl.
Qed.

Lemma copyFile_frame (options : ParallelCopyOptions) (sourcePath destPath : string)
    (w : World) :
  changes_only (destPath :: filepath_Dir destPath :: parents (filepath_Dir destPath)) w
    (fst (copyFile options sourcePath destPath w)).
Proof.
  destruct (copyFile_stages options sourcePath destPath w) as (w1 & Hmk & Hrest).
  eapply changes_only_mono;
    [|eapply changes_only_trans; [apply adds_directories_changes; exact Hmk | exact Hrest]].
  path_solver.
Qed.

(** Whatever its outcome, [processTask] changes nothing but the task's
    destination and the directories above it. *)
Lemma processTask_frame (options : ParallelCopyOptions) (task : CopyTask) (w : World) :
  changes_only (task_paths task) w (fst (processTask options task w)).
Proof.
  unfold processTask, task_paths. destruct (IsDir task).
  - apply os_MkdirAll_frame.
  - apply copyFile_frame.
Qed.


(** X3: a checksum type [copyWithVerification] does not know.  With
    verification on and a checksum type other than [sha256], [copyFile]
    never succeeds; and when it gets as far as the copy (the source can
    be opened and the destination created) it fails with the error that
    names the type, after [os.Create] has emptied the destination. *)
Theorem copyFile_unsupported_checksum (options : ParallelCopyOptions)
    (sourcePath destPath : string) (w : World) :
  VerifyIntegrity options = true ->
  ChecksumType options <> "sha256" ->
  snd (copyFile options sourcePath destPath w) <> None /\
  (forall m d m0 d0 md,
     files w !! sourcePath = Some (FileNode m d) ->
     files w !! destPath = Some (FileNode m0 d0) ->
     files w !! filepath_Dir destPath = Some (DirNode md) ->
     refuses w "open" sourcePath = false ->
     refuses w "create" destPath = false ->
     snd (copyFile options sourcePath destPath w)
     = Some (ErrorString ("unsupported checksum type: " +:+ ChecksumType options)) /\
     files (fst (copyFile options sourcePath destPath w)) !! destPath
     = Some (FileNode m0 [])).
Proof.
  intros Hverify Htype.
  assert (Heqb : String.eqb (ChecksumType options) "sha256" = false).
  { apply String.eqb_neq. exact Htype. }
  split.
  - unfold copyFile.
    destruct (os_MkdirAll _ _ _) as [w1 [e|]]; [discriminate|].
    destruct (os_Open _ _) as [sf|e]; [|discriminate].
    destruct (os_Create _ _) as [w2 [df|e]]; [|discriminate].
    rewrite Hverify. unfold copyWithVerification. rewrite Heqb. discriminate.
  - intros m d m0 d0 md Hsrc Hdst Hdir Hopen Hcreate.
    unfold copyFile. rewrite (os_MkdirAll_there _ _ _ _ Hdir).
    unfold os_Open. rewrite Hopen, Hsrc.
    unfold os_Create. rewrite Hcreate, Hdst.
    rewrite Hverify. unfold copyWithVerification. rewrite Heqb. cbn.
    split; [reflexivity | apply lookup_insert_eq].
Qed.

End CopyFile.

(** ** The loops of discovery *)

Section DiscoveryLoops.
Context `{Platform}.
Variable options : ParallelCopyOptions.
Variable w : World.
Variables sourceDir destDir : string.

Lemma discovered_tasks_spec (items : list AutoCopyItem) (tasks : list CopyTask) :
  discovered_tasks options w sourceDir destDir items tasks
  = if ContinueOnError options
    then Some (tasks ++ flat_map (item_tasks options w sourceDir destDir) items)
    else match first_failure options w sourceDir destDir items with
         | Some _ => None
         | None => Some (tasks ++ flat_map (item_tasks options w sourceDir destDir) items)
         end.
Proof.
  revert tasks. induction items as [|item items IH]; intros tasks; cbn.
  - rewrite app_nil_r. destruct (ContinueOnError options); reflexivity.
  - unfold item_tasks at 1 3.
    destruct (discoverItemTasks options w sourceDir destDir item) as [ts|e].
    + rewrite IH, app_assoc. reflexivity.
    + destruct (ContinueOnError options); [|reflexivity]. rewrite IH. reflexivity.
Qed.

Lemma discoverTasks_loop_stop (now : nat) (items : list AutoCopyItem) (d : Discovery) :
  ContinueOnError options = false ->
  discoverTasks_loop options w sourceDir destDir now items d
  = match first_failure options w sourceDir destDir items with
    | Some e => Err e
    | None =>
        Ok (MkDiscovery
              (d_tasks d ++ flat_map (item_tasks options w sourceDir destDir) items)
              (d_errors d) (d_events d))
    end.
Proof.
  intros Hstop. revert now d. induction items as [|item items IH]; intros now d; cbn.
  - rewrite app_nil_r. destruct d; reflexivity.
  - unfold discoverTasks_item, item_tasks at 1.
    destruct (discoverItemTasks options w sourceDir destDir item) as [ts|e].
    + rewrite IH. cbn. rewrite app_nil_r, app_assoc. reflexivity.
    + rewrite Hstop. reflexivity.
Qed.

Lemma discoverTasks_loop_continue (now : nat) (items : list AutoCopyItem) (d : Discovery) :
  ContinueOnError options = true ->
  exists d' : Discovery,
    discoverTasks_loop options w sourceDir destDir now items d = Ok d' /\
    d_tasks d' = d_tasks d ++ flat_map (item_tasks options w sourceDir destDir) items /\
    map failure_of_error (errors_sent (d_events d'))
    = map failure_of_error (errors_sent (d_events d))
        ++ omap (item_failure options w sourceDir destDir) items /\
    (exists queued : list CopyError,
       errors_queued (d_events d') = errors_queued (d_events d) ++ queued /\
       buf (d_errors d') = buf (d_errors d) ++ queued) /\
    cap (d_errors d') = cap (d_errors d).
Proof.
  intros Hcont. revert now d. induction items as [|item items IH]; intros now d; cbn.
  - exists d. rewrite !app_nil_r. repeat split. exists []. rewrite !app_nil_r. auto.
  - unfold discoverTasks_item, item_tasks at 1, item_failure at 1.
    destruct (discoverItemTasks options w sourceDir destDir item) as [ts|e].
    + destruct (IH (S now) (MkDiscovery (d_tasks d ++ ts) (d_errors d) (d_events d ++ [])))
        as (d' & Hrun & Htasks & Hsent & (queued & Hq & Hbuf) & Hcap).
      cbn in *. rewrite app_nil_r in *.
      exists d'. rewrite Hrun, Htasks, Hsent, <- app_assoc.
      repeat split; eauto.
    + rewrite Hcont. unfold sendError, try_send. cbn.
      match goal with
      | |- context [discoverTasks_loop _ _ _ _ _ _ ?d0] =>
          destruct (IH (S now) d0)
            as (d' & Hrun & Htasks & Hsent & (queued & Hq & Hbuf) & Hcap)
      end.
      cbn in *. autorewrite with trace in *. cbn in *.
      exists d'. rewrite Hrun, Htasks, Hsent. rewrite map_app, <- app_assoc. cbn.
      split; [reflexivity|]. split; [reflexivity|]. split; [reflexivity|].
      split.
      * destruct (chan_full (d_errors d)); cbn in *.
        -- exists queued. rewrite app_nil_r in Hq. auto.
        -- eexists. rewrite Hq, Hbuf, <- !app_assoc. split; reflexivity.
      * rewrite Hcap. destruct (chan_full (d_errors d)); reflexivity.
Qed.

(** X4: discovery that continues.  With errors continued on,
    [discoverTasks] never fails.  It returns the tasks of the items whose
    discovery succeeds, in the order of the items; it hands one error to
    [sendError] for each item whose discovery fails, in order, carrying
    the item's path and that error; and the error channel has grown by
    exactly the errors it had room for. *)
Theorem discoverTasks_continues (now : nat) (items : list AutoCopyItem)
    (errors : chan CopyError) :
  ContinueOnError options = true ->
  exists d : Discovery,
    discoverTasks options w sourceDir destDir now items errors = Ok d /\
    d_tasks d = flat_map (item_tasks options w sourceDir destDir) items /\
    map failure_of_error (errors_sent (d_events d))
    = omap (item_failure options w sourceDir destDir) items /\
    buf (d_errors d) = buf errors ++ errors_queued (d_events d) /\
    cap (d_errors d) = cap errors.
Proof.
  intros Hcont. unfold discoverTasks.
  destruct (discoverTasks_loop_continue now items (MkDiscovery [] errors []) Hcont)
    as (d & Hrun & Htasks & Hsent & (queued & Hq & Hbuf) & Hcap).
  cbn in *. exists d. rewrite Hq, Hbuf. auto.
Qed.

(** X5: discovery that stops.  With errors not continued on,
    [discoverTasks] fails exactly when discovery fails for some item, and
    then with the error of the first such item, unwrapped; otherwise it
    returns the tasks of all items in order.  Either way nothing is sent
    to the error channel. *)
Theorem discoverTasks_stops_at_first_failure (now : nat) (items : list AutoCopyItem)
    (errors : chan CopyError) :
  ContinueOnError options = false ->
  discoverTasks options w sourceDir destDir now items errors
  = match first_failure options w sourceDir destDir items with
    | Some e => Err e
    | None =>
        Ok (MkDiscovery (flat_map (item_tasks options w sourceDir destDir) items) errors [])
    end.
Proof.
  intros Hstop. unfold discoverTasks. rewrite discoverTasks_loop_stop by exact Hstop.
  reflexivity.
Qed.

Lemma discoverGlobMatches_continue (item : AutoCopyItem) (matches : list string)
    (tasks : list CopyTask) :
  ContinueOnError options = true ->
  discoverGlobMatches options w sourceDir destDir item matches tasks
  = Ok (tasks ++ flat_map (match_tasks w sourceDir destDir item) matches).
Proof.
  intros Hcont. revert tasks. induction matches as [|m matches IH]; intros tasks; cbn.
  - rewrite app_nil_r. reflexivity.
  - unfold match_tasks at 1. destruct (filepath_Rel sourceDir m) as [rel|e]; [|apply IH].
    destruct (discoverSinglePath w sourceDir destDir rel item) as [ts|e].
    + rewrite IH, app_assoc. reflexivity.
    + rewrite Hcont. apply IH.
Qed.

(** X6: a glob item under continue-on-error.  Discovery fails for it only
    when [filepath.Glob] rejects the pattern.  Otherwise it yields the
    tasks of the matches that can be discovered, in the order of the
    matches; a match that cannot be made relative to the source directory
    or whose discovery fails (a missing entry, a kind that conflicts with
    the item's [directory] value, a walk error) is passed over, and no
    error reaches the caller for it. *)
Theorem discoverItemTasks_glob_continues (item : AutoCopyItem) :
  ContinueOnError options = true ->
  UseGlob item = true ->
  discoverItemTasks options w sourceDir destDir item
  = match filepath_Glob w (filepath_Join sourceDir (Path item)) with
    | Err err => Err (WrapError ("glob pattern failed for " +:+ Path item) err)
    | Ok matches => Ok (flat_map (match_tasks w sourceDir destDir item) matches)
    end.
Proof.
  intros Hcont Hglob. unfold discoverItemTasks. rewrite Hglob.
  destruct (filepath_Glob w (filepath_Join sourceDir (Path item))) as [matches|err];
    [|reflexivity].
  rewrite discoverGlobMatches_continue by exact Hcont. reflexivity.
Qed.

End DiscoveryLoops.

(** ** More of what holds of every run *)

Section Structure.
Context `{Platform}.
Variable pc : ParallelCopier.
Variables sourceDir destDir : string.
Variable w0 : World.

Lemma frame_inv_initial : frame_inv w0 (initial_state w0).
Proof. apply changes_only_refl. Qed.

Lemma frame_inv_step a s s' :
  frame_inv w0 s -> step pc sourceDir destDir a s = Some s' -> frame_inv w0 s'.
Proof.
  unfold frame_inv. intros Hfr Hs.
  step_cases Hs.
  all: state_simpl; trace_simpl.
  all: repeat match goal with
         | |- context [if ?b then _ else _] => destruct b
         end; trace_simpl.
  all: try exact Hfr.
  all: rewrite flat_map_app; cbn [flat_map]; rewrite app_nil_r.
  all: match goal with
       | Hp : processTask ?o ?t ?w = (?w', _) |- _ =>
           pose proof (processTask_frame o t w) as Hstep;
           rewrite Hp in Hstep; cbn [fst] in Hstep
       end.
  all: eapply changes_only_trans; eauto.
Qed.

(** The invariants of the queue, of the placement of the tasks and of
    the file system hold in every state a run goes through. *)
Lemma Run_structure (sched : list Action) (s : State) :
  Run pc sourceDir destDir sched w0 = Some s ->
  phase_inv pc w0 s /\ queue_inv pc s /\
  placement_inv pc sourceDir destDir w0 s /\ frame_inv w0 s.
Proof.
  unfold Run.
  apply (exec_invariant pc sourceDir destDir
           (fun s => phase_inv pc w0 s /\ queue_inv pc s /\
                     placement_inv pc sourceDir destDir w0 s /\ frame_inv w0 s)).
  - intros a s0 s1 (Hp & Hq & Hpl & Hfr) Hs. split; [|split; [|split]].
    + eapply phase_inv_step; eauto.
    + eapply queue_inv_step; eauto.
    + eapply placement_inv_step; eauto.
    + eapply frame_inv_step; eauto.
  - split; [|split; [|split]].
    + apply phase_inv_initial.
    + apply queue_inv_initial.
    + apply placement_inv_initial.
    + apply frame_inv_initial.
Qed.

(** X7: the error of [Run].  When [Run] returns an error it is the error
    of discovery, wrapped: errors are not continued on, the cause is the
    error of the first item for which discovery fails, and [Run] has
    returned before it started a worker: the file system is untouched
    and nothing was sent to a channel or handed to a callback. *)
Theorem Run_fails_only_in_discovery (sched : list Action) (s : State) (e : error) :
  Run pc sourceDir destDir sched w0 = Some s ->
  returned s = Some (Some e) ->
  ContinueOnError (options pc) = false /\
  (exists cause : error,
     first_failure (options pc) w0 sourceDir destDir (config_Items pc) = Some cause /\
     e = WrapError "failed to discover copy tasks" cause) /\
  world s = w0 /\ workers s = [] /\ trace s = [].
Proof.
  intros Hrun Hret.
  destruct (Run_structure _ _ Hrun) as (Hp & Hq & Hpl & _).
  unfold returned in Hret.
  destruct (coordinator s) as [| | | |r] eqn:Hco; try discriminate.
  injection Hret as ->.
  destruct (q_error _ _ Hq _ Hco) as (Hidle & Hstop & _).
  destruct (pl_error _ _ _ _ _ Hpl _ Hco) as (cause & -> & Hfirst).
  destruct (ph_before _ _ _ Hp Hidle) as (Hws & Hworld & _).
  destruct (q_silent _ _ Hq Hstop Hidle) as (Htrace & _).
  split; [exact Hstop|]. split; [exists cause; auto|]. auto.
Qed.

(** What is processed, and what is left, when [Run] returns [nil]. *)
Lemma processed_once (sched : list Action) (s : State) :
  Run pc sourceDir destDir sched w0 = Some s ->
  returned s = Some None ->
  flat_map (item_tasks (options pc) w0 sourceDir destDir) (config_Items pc)
  ≡ₚ tasks_processed (trace s) ++ unsent (producer s) ++ buf (taskQueue s) /\
  (ContinueOnError (options pc) = true -> 0 < MaxWorkers (options pc) ->
   unsent (producer s) ++ buf (taskQueue s) = []).
Proof.
  intros Hrun Hret.
  destruct (Run_structure _ _ Hrun) as (Hp & Hq & Hpl & _).
  pose proof (discovered_tasks_spec (options pc) w0 sourceDir destDir (config_Items pc) [])
    as Hspec.
  assert (Hsome : forall ts,
            discovered_tasks (options pc) w0 sourceDir destDir (config_Items pc) [] = Some ts ->
            ts = flat_map (item_tasks (options pc) w0 sourceDir destDir) (config_Items pc)).
  { intros ts Hts. rewrite Hts in Hspec. cbn [app] in Hspec.
    destruct (ContinueOnError (options pc)); [congruence|].
    destruct (first_failure _ _ _ _ _); congruence. }
  destruct (producer_idle_dec s) as [Hidle|Hst].
  - unfold returned in Hret. destruct (coordinator s) eqn:Hco; try discriminate.
    injection Hret as ->.
    pose proof (pl_nothing _ _ _ _ _ Hpl _ Hidle Hco) as Hnone. cbn in Hnone.
    rewrite <- (Hsome _ Hnone).
    destruct (ph_before _ _ _ Hp Hidle) as (_ & _ & Hbuf & _ & _ & _ & _ & _ & Hquiet & _).
    destruct (discovery_quiet _ Hquiet) as (_ & _ & Hproc & _).
    rewrite Hproc, Hidle, Hbuf. split; reflexivity.
  - destruct (pl_started _ _ _ _ _ Hpl Hst) as (ts & Hts & Hperm).
    rewrite <- (Hsome _ Hts).
    pose proof (pl_processed _ _ _ _ _ Hpl) as Hproc.
    rewrite (returned_workers_done _ _ after_process _ _ Hp Hret eq_refl) in Hproc.
    unfold pending in Hperm.
    rewrite (returned_workers_done _ _ held _ _ Hp Hret eq_refl) in Hperm.
    rewrite !app_nil_r in *.
    split; [rewrite Hperm, Hproc; solve_Permutation|].
    intros Hcont Hmw.
    assert (Htot : totalTasks s <> 0) by (apply (ph_after _ _ _ Hp Hst)).
    destruct (returned_after_the_workers _ _ _ _ Hp Hret Htot) as (_ & _ & Hdone & _).
    destruct (q_drained _ _ Hq Hcont) as (Hclosed & Hbuf).
    { rewrite (finished_all _ Hdone), (q_workers _ _ Hq Hst). lia. }
    rewrite Hclosed, Hbuf. reflexivity.
Qed.

(** X8: each task once.  When [Run] returns [nil], the tasks a worker ran
    [processTask] on are tasks of discovery, each taken at most once:
    what discovery found is what was processed together with what was
    left with the producer and in the queue.  With errors continued on
    and at least one worker nothing is left: every task was processed
    exactly once. *)
Theorem Run_processes_each_task_once (sched : list Action) (s : State) :
  Run pc sourceDir destDir sched w0 = Some s ->
  returned s = Some None ->
  flat_map (item_tasks (options pc) w0 sourceDir destDir) (config_Items pc)
  ≡ₚ tasks_processed (trace s) ++ unsent (producer s) ++ buf (taskQueue s) /\
  (ContinueOnError (options pc) = true -> 0 < MaxWorkers (options pc) ->
   unsent (producer s) ++ buf (taskQueue s) = []).
Proof. apply processed_once. Qed.

(** Who can take a step while [Run] has not returned. *)
Lemma enabled_step (sched : list Action) (s : State) :
  0 < MaxWorkers (options pc) ->
  Run pc sourceDir destDir sched w0 = Some s ->
  returned s = None ->
  exists (a : Action) (s' : State), step pc sourceDir destDir a s = Some s'.
Proof.
  intros Hmw Hrun Hret.
  destruct (Run_structure _ _ Hrun) as (Hp & Hq & _).
  assert (Hstep : forall a s1,
            match a with
            | ActCoordinator => coordinator_step pc sourceDir destDir s
            | ActProducer => producer_step s
            | ActWorker i => worker_step pc i s
            | ActProgressHandler => progress_handler_step pc s
            | ActErrorHandler => error_handler_step pc s
            end = Some s1 ->
            exists (a' : Action) (s' : State), step pc sourceDir destDir a' s = Some s').
  { intros a s1 Ha. exists a. unfold step. rewrite Ha. eauto. }
  unfold returned in Hret.
  destruct (coordinator s) as [|items tasks| | |r] eqn:Hco; try discriminate.
  - (* the channels are to be made *)
    eapply (Hstep ActCoordinator). unfold coordinator_step. rewrite Hco. reflexivity.
  - (* discovery *)
    destruct items as [|item items].
    + destruct (Z.of_nat (length tasks) =? 0) eqn:Hz.
      * eapply (Hstep ActCoordinator). unfold coordinator_step. rewrite Hco.
        state_simpl. rewrite Hz. reflexivity.
      * destruct (sendProgressUpdate (options pc)
                    (start_update
                       (set_totalBytes (sum_sizes tasks (totalBytes s))
                          (set_totalTasks (Z.of_nat (length tasks)) s)))
                    (progress s)) as [progress' evs] eqn:Hsend.
        eapply (Hstep ActCoordinator). unfold coordinator_step. rewrite Hco.
        state_simpl. rewrite Hz. state_simpl. rewrite Hsend. reflexivity.
    + destruct (discoverTasks_item (options pc) (world s) sourceDir destDir (now s)
                  item tasks (errors s)) as [d|err] eqn:Hd.
      * eapply (Hstep ActCoordinator). unfold coordinator_step. rewrite Hco, Hd.
        reflexivity.
      * eapply (Hstep ActCoordinator). unfold coordinator_step. rewrite Hco, Hd.
        reflexivity.
  - (* the workers run *)
    assert (Hst : producer s <> PIdle).
    { intros Hidle. destruct (ph_before _ _ _ Hp Hidle) as (_ & _ & _ & _ & _ & _ & _ & _ & _ & Hx).
      rewrite Hco in Hx. exact Hx. }
    destruct (forallb is_done (workers s)) eqn:Hall.
    { destruct (sendProgressUpdate (options pc) (complete_update s) (progress s))
        as [progress' evs] eqn:Hsend.
      eapply (Hstep ActCoordinator). unfold coordinator_step. rewrite Hco, Hall, Hsend.
      reflexivity. }
    destruct (not_all_done _ Hall) as (i & wpc & Hi & Hnot).
    destruct (q_caps _ _ Hq ltac:(congruence)) as (Hcq & Hcr).
    destruct wpc as [|task|task err|task|current total copied tb|]; try contradiction.
    + (* a worker waits for a task *)
      destruct (buf (taskQueue s)) as [|task queue] eqn:Hbuf.
      * destruct (closed (taskQueue s)) eqn:Hclosed.
        -- eapply (Hstep (ActWorker i)). unfold worker_step, recv.
           rewrite Hi, Hbuf, Hclosed. reflexivity.
        -- destruct (producer s) as [|[|task rest]|] eqn:Hprod; try contradiction.
           ++ eapply (Hstep ActProducer). unfold producer_step. rewrite Hprod. reflexivity.
           ++ eapply (Hstep ActProducer). unfold producer_step, send, chan_full.
              rewrite Hprod, Hbuf, Hcq.
              replace (Z.to_nat (MaxWorkers (options pc) * 2) <=? length [])%nat
                with false by (symmetry; apply Nat.leb_gt; cbn; lia).
              reflexivity.
           ++ exfalso. apply (q_closed _ _ Hq) in Hprod. congruence.
      * eapply (Hstep (ActWorker i)). unfold worker_step, recv. rewrite Hi, Hbuf.
        reflexivity.
    + (* a worker has a task to process *)
      destruct (processTask (options pc) task (world s)) as [w' [e|]] eqn:Hproc;
        eapply (Hstep (ActWorker i)); unfold worker_step; rewrite Hi, Hproc; reflexivity.
    + (* a worker has a failure to report *)
      destruct (ContinueOnError (options pc)) eqn:Hcont.
      * eapply (Hstep (ActWorker i)). unfold worker_step, sendError, try_send.
        rewrite Hi, Hcont. reflexivity.
      * eapply (Hstep (ActWorker i)). unfold worker_step, sendError, try_send, send, chan_full.
        rewrite Hi, Hcont. state_simpl. rewrite Hcr.
        replace (Z.to_nat (MaxWorkers (options pc)) <=? length (buf (results s)))%nat
          with false.
        -- reflexivity.
        -- symmetry. apply Nat.leb_gt.
           pose proof (q_results _ _ Hq) as Hres.
           pose proof (finished_lt _ _ _ Hi ltac:(discriminate)) as Hlt.
           rewrite (q_workers _ _ Hq Hst) in Hlt. lia.
    + eapply (Hstep (ActWorker i)). unfold worker_step. rewrite Hi. reflexivity.
    + destruct (ShowProgress (options pc) && (go_rem current 10 =? 0)) eqn:Hsample.
      * destruct (sendProgressUpdate (options pc)
                    (progress_sample s current total copied tb) (progress s))
          as [progress' evs] eqn:Hsend.
        eapply (Hstep (ActWorker i)). unfold worker_step.
        rewrite Hi, Hsample, Hsend. reflexivity.
      * eapply (Hstep (ActWorker i)). unfold worker_step. rewrite Hi, Hsample.
        reflexivity.
  - (* the handlers drain their channels *)
    destruct (q_join _ _ Hq Hco) as (Hcp & Hce).
    destruct (progressHandler s) eqn:Hph.
    + destruct (errorHandler s) eqn:Heh.
      * eapply (Hstep ActCoordinator). unfold coordinator_step. rewrite Hco, Hph, Heh.
        reflexivity.
      * destruct (buf (errors s)) eqn:Hbuf;
          eapply (Hstep ActErrorHandler); unfold error_handler_step, recv;
          rewrite Heh, Hbuf, ?Hce; reflexivity.
      * eapply (Hstep ActCoordinator). unfold coordinator_step. rewrite Hco, Hph, Heh.
        reflexivity.
    + destruct (buf (progress s)) eqn:Hbuf;
        eapply (Hstep ActProgressHandler); unfold progress_handler_step, recv;
        rewrite Hph, Hbuf, ?Hcp; reflexivity.
    + destruct (errorHandler s) eqn:Heh.
      * eapply (Hstep ActCoordinator). unfold coordinator_step. rewrite Hco, Hph, Heh.
        reflexivity.
      * destruct (buf (errors s)) eqn:Hbuf;
          eapply (Hstep ActErrorHandler); unfold error_handler_step, recv;
          rewrite Heh, Hbuf, ?Hce; reflexivity.
      * eapply (Hstep ActCoordinator). unfold coordinator_step. rewrite Hco, Hph, Heh.
        reflexivity.
Qed.

(** X9: no deadlock.  With at least one worker, in every state a run
    goes through in which [Run] has not returned, some goroutine can take
    a step: the caller of [Run], the producer, a worker or a handler. *)
Theorem Run_never_deadlocks (sched : list Action) (s : State) :
  0 < MaxWorkers (options pc) ->
  Run pc sourceDir destDir sched w0 = Some s ->
  returned s = None ->
  exists (a : Action) (s' : State), step pc sourceDir destDir a s = Some s'.
Proof. apply enabled_step. Qed.

(** X10: what [Run] writes.  In every state a run goes through, the file
    system differs from the one [Run] started on only at the
    destinations of the tasks processed so far and at the directories
    above those destinations, which [os.MkdirAll] makes where they are
    missing; no entry has been removed. *)
Theorem Run_changes_only_destinations (sched : list Action) (s : State) :
  Run pc sourceDir destDir sched w0 = Some s ->
  changes_only (flat_map task_paths (tasks_processed (trace s))) w0 (world s).
Proof.
  intros Hrun. destruct (Run_structure _ _ Hrun) as (_ & _ & _ & Hfr). exact Hfr.
Qed.

End Structure.

(** ** Strings *)

Lemma string_app_cons (x : Ascii.ascii) (a b : string) :
  String x a +:+ b = String x (a +:+ b).
Proof. reflexivity. Qed.

Lemma string_app_nil_l (b : string) : "" +:+ b = b.
Proof. reflexivity. Qed.

Ltac string_simpl := rewrite ?string_app_cons, ?string_app_nil_l in *.

Lemma string_app_assoc (a b c : string) : (a +:+ b) +:+ c = a +:+ (b +:+ c).
Proof.
  induction a as [|x a IH]; string_simpl; [reflexivity|]. rewrite IH. reflexivity.
Qed.

Lemma string_app_nil_r (a : string) : a +:+ "" = a.
Proof.
  induction a as [|x a IH]; string_simpl; [reflexivity|]. rewrite IH. reflexivity.
Qed.

Lemma string_app_length (a b : string) :
  String.length (a +:+ b) = (String.length a + String.length b)%nat.
Proof.
  induction a as [|x a IH]; string_simpl; cbn; [reflexivity|]. rewrite IH. reflexivity.
Qed.

Lemma strings_HasPrefix_spec (s prefix : string) :
  strings_HasPrefix s prefix = true <-> exists rest, s = prefix +:+ rest.
Proof.
  revert s. induction prefix as [|a prefix IH]; intros s; cbn.
  - split; [eauto | reflexivity].
  - destruct s as [|b s].
    { split; [discriminate | intros (rest & Hr); string_simpl; discriminate]. }
    rewrite andb_true_iff, Ascii.eqb_eq, IH. split.
    + intros (-> & rest & ->). eauto.
    + intros (rest & Hr). string_simpl. injection Hr as -> ->. eauto.
Qed.

Lemma strings_Contains_spec (s substr : string) :
  strings_Contains s substr = true <-> has_substring s substr.
Proof.
  unfold has_substring. induction s as [|c s IH].
  - cbn. rewrite orb_false_r, strings_HasPrefix_spec. split.
    + intros (rest & Hr). exists "", rest. exact Hr.
    + intros ([|x before] & after & Hr); string_simpl; [eauto | discriminate].
  - cbn [strings_Contains]. rewrite orb_true_iff, strings_HasPrefix_spec, IH. split.
    + intros [(rest & Hr)|(before & after & ->)].
      * exists "", rest. exact Hr.
      * exists (String c before), after. reflexivity.
    + intros ([|x before] & after & Hr); string_simpl.
      * left. eauto.
      * right. injection Hr as -> ->. eauto.
Qed.

Lemma strings_HasSuffix_spec (s suffix : string) :
  strings_HasSuffix s suffix = true <-> exists before, s = before +:+ suffix.
Proof.
  induction s as [|c s IH].
  - cbn [strings_HasSuffix]. rewrite orb_false_r, String.eqb_eq. split.
    + intros <-. exists "". reflexivity.
    + intros ([|x before] & Hr); string_simpl; [exact Hr|].
      destruct suffix; discriminate.
  - cbn [strings_HasSuffix]. rewrite orb_true_iff, String.eqb_eq, IH. split.
    + intros [<-|(before & ->)].
      * exists "". reflexivity.
      * exists (String c before). reflexivity.
    + intros ([|x before] & Hr); string_simpl.
      * left. exact Hr.
      * right. injection Hr as -> ->. eauto.
Qed.

Lemma string_of_list_byte_app (a b : list byte) :
  String.string_of_list_byte (a ++ b)
  = String.string_of_list_byte a +:+ String.string_of_list_byte b.
Proof.
  unfold String.string_of_list_byte. induction a as [|x a IH]; cbn; [reflexivity|].
  rewrite IH. reflexivity.
Qed.

Lemma list_byte_of_string_app (a b : string) :
  String.list_byte_of_string (a +:+ b)
  = String.list_byte_of_string a ++ String.list_byte_of_string b.
Proof.
  unfold String.list_byte_of_string. induction a as [|x a IH]; string_simpl; cbn;
    [reflexivity|].
  rewrite IH. reflexivity.
Qed.

Lemma gitignore_lines_app (files : list string) (written : string) :
  gitignore_lines files written = written +:+ gitignore_lines files "".
Proof.
  unfold gitignore_lines. revert written.
  induction files as [|f files IH]; intros written; cbn.
  - rewrite string_app_nil_r. reflexivity.
  - rewrite IH, (IH ("" +:+ (f +:+ LF))), string_app_nil_l, string_app_assoc. reflexivity.
Qed.

Lemma gitignore_lines_suffix (files : list string) (written : string) :
  strings_HasSuffix written LF = true ->
  strings_HasSuffix (gitignore_lines files written) LF = true.
Proof.
  unfold gitignore_lines. revert written.
  induction files as [|f files IH]; intros written Hw; cbn; [exact Hw|].
  apply IH. apply strings_HasSuffix_spec. exists (written +:+ f).
  rewrite string_app_assoc. reflexivity.
Qed.

(** ** Validation of the configuration *)

Lemma validatePath_spec (path : string) : validatePath path = None <-> safe_path path.
Proof.
  unfold validatePath, safe_path. destruct (String.eqb_spec path "") as [->|Hne].
  - split; [discriminate | intros (Hx & _); contradiction].
  - cbn [validatePath_loop].
    destruct (strings_Contains path "..") eqn:H1;
      [|destruct (strings_Contains path "//") eqn:H2;
        [|destruct (strings_Contains path "\\") eqn:H3]].
    all: repeat match goal with
           | Hc : strings_Contains _ _ = true |- _ => apply strings_Contains_spec in Hc
           | Hc : strings_Contains ?p ?x = false |- _ =>
               assert (~ has_substring p x)
                 by (rewrite <- strings_Contains_spec, Hc; discriminate);
               clear Hc
           end.
    all: split; [try discriminate | intros (_ & Ha & Hb & Hc); try contradiction].
    all: auto.
Qed.

Lemma validateFiles_spec (files : list string) :
  validateFiles files = None <-> Forall safe_path files.
Proof.
  induction files as [|f files IH]; cbn.
  - split; auto.
  - rewrite Forall_cons, <- IH, <- validatePath_spec.
    destruct (validatePath f); split; intros; try discriminate;
      intuition (try discriminate; auto).
Qed.

Lemma validateItems_spec (items : list AutoCopyItem) (i : Z) :
  validateItems items i = None
  <-> Forall (fun item => safe_path (Path item) /\
                          (Directory item = None \/ AutoDetect item = false)) items.
Proof.
  revert i. induction items as [|item items IH]; intros i; cbn.
  - split; auto.
  - rewrite Forall_cons, <- (IH (i + 1)), <- validatePath_spec.
    unfold validateAutoCopyItem.
    destruct (validatePath (Path item)).
    { split; [discriminate | intros ((Hx & _) & _); discriminate]. }
    destruct (Directory item) as [b|], (AutoDetect item); cbn; split;
      intros; try discriminate; intuition (try discriminate; auto).
Qed.

(** X11: what validation accepts.  [ValidateAutoCopyConfig] rejects the
    [nil] configuration.  It accepts a configuration in the legacy
    format (version 0 with a list of files) exactly when every file of
    the list is a path that is not empty and has no [..], no [//] and no
    double backslash anywhere in it; the items of such a configuration
    are not looked at.  It accepts any other configuration exactly when
    the path of every item is such a path and no item sets [directory]
    together with [autoDetect]. *)
Theorem ValidateAutoCopyConfig_accepts (config : AutoCopyConfig) :
  ValidateAutoCopyConfig None <> None /\
  (ValidateAutoCopyConfig (Some config) = None
   <-> if legacy_format config
       then Forall safe_path (Files config)
       else Forall (fun item => safe_path (Path item) /\
                                (Directory item = None \/ AutoDetect item = false))
              (Items config)).
Proof.
  split; [discriminate|].
  unfold ValidateAutoCopyConfig, legacy_format.
  destruct ((Version config =? 0) && (0 <? length (Files config))%nat).
  - apply validateFiles_spec.
  - apply validateItems_spec.
Qed.

(** ** The [.gitignore] of the worktree *)

Lemma os_ReadFile_spec (w : World) (path : string) :
  refuses w "open" path = false -> refuses w "read" path = false ->
  os_ReadFile w path
  = match files w !! path with
    | Some (FileNode _ d) => Ok d
    | Some (DirNode _) => Err (PathError "read" path false)
    | None => Err (PathError "open" path true)
    end.
Proof.
  intros Hopen Hread. unfold os_ReadFile, os_Open. rewrite Hopen.
  destruct (files w !! path) as [[m d|m]|]; cbn; rewrite ?Hread; reflexivity.
Qed.

(** Opening a file for writing and writing to it, when both succeed. *)
Lemma write_stage (path : string) (truncate : bool) (perm : Z) (data : list byte)
    (w w1 w2 : World) (f : OsFile) :
  os_OpenFile path truncate perm w = (w1, Ok f) ->
  file_writer f data w1 = (w2, None) ->
  refuses w "create" path = false /\ refuses w "write" path = false /\
  changes_only [path] w w2 /\
  files w2 !! path
  = Some (match files w !! path with
          | Some (FileNode m d) => FileNode m ((if truncate then [] else d) ++ data)
          | _ => FileNode (Z.land perm (Z.lnot (umask w))) data
          end).
Proof.
  unfold os_OpenFile, file_writer. intros Hopen Hwrite.
  destruct (refuses w "create" path) eqn:Hcreate; [discriminate|].
  destruct (files w !! path) as [[m d|m]|] eqn:Hpath; try discriminate;
    injection Hopen as <- <-; cbn in Hwrite;
    destruct (refuses w "write" path) eqn:Hw; try discriminate;
    rewrite lookup_insert_eq in Hwrite; injection Hwrite as <-.
  all: split; [reflexivity|]; split; [reflexivity|]; split;
    [|cbn; rewrite lookup_insert_eq; reflexivity].
  all: eapply changes_only_same; [apply changes_only_insert|].
  all: match goal with
       | |- changes_only _ ?w1 _ => exact (changes_only_insert w1 path _)
       end.
Qed.

(** The same, the other way round. *)
Lemma write_stage_ok (path : string) (truncate : bool) (perm : Z) (data : list byte)
    (w : World) (m : Z) (d : list byte) :
  refuses w "create" path = false -> refuses w "write" path = false ->
  files w !! path = Some (FileNode m d) ->
  exists w1 w2 f,
    os_OpenFile path truncate perm w = (w1, Ok f) /\
    file_writer f data w1 = (w2, None).
Proof.
  intros Hcreate Hwrite Hpath. unfold os_OpenFile, file_writer.
  rewrite Hcreate, Hpath. do 3 eexists. split; [reflexivity|]. cbn.
  rewrite Hwrite, lookup_insert_eq. reflexivity.
Qed.

Lemma marker_in_section (before : string) (files : list string) :
  has_substring (gitignore_lines files (before +:+ (LF +:+ gitignore_marker +:+ LF)))
    gitignore_marker.
Proof.
  rewrite gitignore_lines_app. exists (before +:+ LF), (LF +:+ gitignore_lines files "").
  rewrite !string_app_assoc. reflexivity.
Qed.

Section GitignoreProperties.
Context `{Platform}.

(** X12: the legacy update is idempotent.  When
    [LegacyAutoCopier.UpdateGitignore] succeeds for a list of files that
    is not empty, with a [.gitignore] that can be read: the file exists
    and holds the section marker; what it held before is still there, at
    its beginning; nothing else has changed; and a further call, for
    whatever files, succeeds and changes nothing. *)
Theorem legacy_UpdateGitignore_idempotent (repoDir : string) (copied again : list string)
    (w w1 : World) :
  copied <> [] ->
  refuses w "open" (filepath_Join repoDir ".gitignore") = false ->
  refuses w "read" (filepath_Join repoDir ".gitignore") = false ->
  legacy_UpdateGitignore repoDir copied w = (w1, None) ->
  (exists (m : Z) (d : list byte),
     files w1 !! filepath_Join repoDir ".gitignore" = Some (FileNode m d) /\
     has_substring (String.string_of_list_byte d) gitignore_marker /\
     forall m0 d0,
       files w !! filepath_Join repoDir ".gitignore" = Some (FileNode m0 d0) ->
       m = m0 /\ exists added, d = d0 ++ added) /\
  changes_only [filepath_Join repoDir ".gitignore"] w w1 /\
  legacy_UpdateGitignore repoDir again w1 = (w1, None).
Proof.
  intros Hne Hopen Hread Hrun.
  assert (Hlen : (length copied =? 0)%nat = false).
  { destruct copied; [contradiction | reflexivity]. }
  set (path := filepath_Join repoDir ".gitignore") in *.
  assert (Hkey : exists (m : Z) (d : list byte),
            files w1 !! path = Some (FileNode m d) /\
            has_substring (String.string_of_list_byte d) gitignore_marker /\
            (forall m0 d0, files w !! path = Some (FileNode m0 d0) ->
                           m = m0 /\ exists added, d = d0 ++ added) /\
            changes_only [path] w w1).
  { unfold legacy_UpdateGitignore in Hrun. fold path in Hrun. rewrite Hlen in Hrun.
    rewrite (os_ReadFile_spec _ _ Hopen Hread) in Hrun.
    destruct (files w !! path) as [[m d|m]|] eqn:Hpath.
    - destruct (strings_Contains (String.string_of_list_byte d) gitignore_marker) eqn:Hc.
      + injection Hrun as <-. exists m, d. rewrite Hpath.
        apply strings_Contains_spec in Hc.
        split; [reflexivity|]. split; [exact Hc|]. split; [|apply changes_only_refl].
        intros m0 d0 [= -> ->]. split; [reflexivity|].
        exists []. rewrite app_nil_r. reflexivity.
      + destruct (os_OpenFile path false 420 w) as [w' [f|e]] eqn:Hof; [|discriminate].
        destruct (write_stage _ _ _ _ _ _ _ _ Hof Hrun) as (_ & _ & Hfr & Hfile).
        rewrite Hpath in Hfile. exists m. eexists. split; [exact Hfile|].
        rewrite string_of_list_byte_app, String.string_of_list_byte_of_string.
        split; [|split; [|exact Hfr]].
        * destruct (marker_in_section
                      (if negb (String.eqb (String.string_of_list_byte d) "")
                          && negb (strings_HasSuffix (String.string_of_list_byte d) LF)
                       then "" +:+ LF else "") copied) as (a & b & Hab).
          rewrite Hab. exists (String.string_of_list_byte d +:+ a), b.
          rewrite string_app_assoc. reflexivity.
        * intros m0 d0 [= -> ->]. split; [reflexivity|]. eauto.
    - cbn in Hrun. unfold os_OpenFile in Hrun. rewrite Hpath in Hrun.
      destruct (refuses w "create" path); discriminate.
    - cbn [strings_Contains] in Hrun.
      replace (strings_Contains "" gitignore_marker) with false in Hrun by reflexivity.
      destruct (os_OpenFile path false 420 w) as [w' [f|e]] eqn:Hof; [|discriminate].
      destruct (write_stage _ _ _ _ _ _ _ _ Hof Hrun) as (_ & _ & Hfr & Hfile).
      rewrite Hpath in Hfile. do 2 eexists. split; [exact Hfile|].
      rewrite String.string_of_list_byte_of_string.
      split; [|split; [|exact Hfr]].
      * apply (marker_in_section "" copied).
      * intros m0 d0 Hx. discriminate. }
  destruct Hkey as (m & d & Hfile & Hmark & Hprefix & Hfr).
  split; [exists m, d; auto|]. split; [exact Hfr|].
  unfold legacy_UpdateGitignore. fold path.
  destruct (length again =? 0)%nat; [reflexivity|].
  destruct Hfr as (_ & Hrefuses & _).
  rewrite os_ReadFile_spec by (rewrite Hrefuses; assumption).
  rewrite Hfile. apply strings_Contains_spec in Hmark. rewrite Hmark. reflexivity.
Qed.

(** X13: the update of [AutoCopier] is not.  When
    [AutoCopier.UpdateGitignore] succeeds for a list of files that is not
    empty, with a [.gitignore] that can be read, the file holds a text
    with the section marker in it; and a further call for a list that is
    not empty succeeds and leaves that very text followed by another
    section: the marker line again, then a line for each file. *)
Theorem UpdateGitignore_appends_again (repoRoot : string) (copied again : list string)
    (w w1 : World) :
  copied <> [] -> again <> [] ->
  refuses w "stat" (filepath_Join repoRoot ".gitignore") = false ->
  refuses w "open" (filepath_Join repoRoot ".gitignore") = false ->
  refuses w "read" (filepath_Join repoRoot ".gitignore") = false ->
  UpdateGitignore repoRoot copied w = (w1, None) ->
  exists (m : Z) (content : string),
    files w1 !! filepath_Join repoRoot ".gitignore"
    = Some (FileNode m (String.list_byte_of_string content)) /\
    has_substring content gitignore_marker /\
    snd (UpdateGitignore repoRoot again w1) = None /\
    files (fst (UpdateGitignore repoRoot again w1))
      !! filepath_Join repoRoot ".gitignore"
    = Some (FileNode m
              (String.list_byte_of_string
                 (gitignore_lines again (content +:+ (LF +:+ gitignore_marker +:+ LF))))).
Proof.
  intros Hne Hne' Hstat Hopen Hread Hrun.
  assert (Hlen : (length copied =? 0)%nat = false).
  { destruct copied; [contradiction | reflexivity]. }
  assert (Hlen' : (length again =? 0)%nat = false).
  { destruct again; [contradiction | reflexivity]. }
  set (path := filepath_Join repoRoot ".gitignore") in *.
  unfold UpdateGitignore in Hrun. fold path in Hrun. rewrite Hlen in Hrun.
  unfold os_WriteFile in Hrun.
  match type of Hrun with
  | context [gitignore_lines copied (?c +:+ _)] => set (before := c) in *
  end.
  destruct (os_OpenFile path true 420 w) as [w' [f|e]] eqn:Hof; [|discriminate].
  destruct (write_stage _ _ _ _ _ _ _ _ Hof Hrun) as (Hcreate & Hwrite & Hfr & Hfile).
  set (content := gitignore_lines copied (before +:+ (LF +:+ gitignore_marker +:+ LF))) in *.
  assert (Hfile1 : exists m, files w1 !! path
                             = Some (FileNode m (String.list_byte_of_string content))).
  { rewrite Hfile. destruct (files w !! path) as [[m d|m]|]; eauto. }
  destruct Hfile1 as (m & Hfile1).
  exists m, content. split; [exact Hfile1|].
  split; [apply marker_in_section|].
  destruct Hfr as (_ & Hrefuses & _).
  (* the second call reads the text back *)
  assert (Hsuffix : strings_HasSuffix content LF = true).
  { apply gitignore_lines_suffix. apply strings_HasSuffix_spec.
    exists (before +:+ (LF +:+ gitignore_marker)). rewrite !string_app_assoc. reflexivity. }
  unfold UpdateGitignore. fold path. rewrite Hlen'.
  unfold os_Stat. rewrite Hrefuses, Hstat, Hfile1.
  rewrite os_ReadFile_spec by (rewrite Hrefuses; assumption).
  rewrite Hfile1, String.string_of_list_byte_of_string, Hsuffix.
  rewrite andb_false_r.
  destruct (write_stage_ok path true 420
              (String.list_byte_of_string
                 (gitignore_lines again (content +:+ (LF +:+ gitignore_marker +:+ LF))))
              w1 m (String.list_byte_of_string content))
    as (w2 & w3 & f2 & Hof2 & Hw2); try (rewrite Hrefuses; assumption); [exact Hfile1|].
  unfold os_WriteFile. rewrite Hof2, Hw2. cbn [fst snd]. split; [reflexivity|].
  destruct (write_stage _ _ _ _ _ _ _ _ Hof2 Hw2) as (_ & _ & _ & Hfile2).
  rewrite Hfile2, Hfile1. reflexivity.
Qed.

End GitignoreProperties.

(** ** The sequential copy and the parallel run of [AutoCopier] *)

Section Sequential.
Context `{Platform}.


End Sequential.

Section Parallel.
Context `{Platform}.

(** X15: the parallel run of [AutoCopier].  The copier [runParallel] makes
    continues on errors, whatever the options of the command line.  So
    whenever its [Run] returns it returns [nil], and by then every task
    discovery found has been processed exactly once; a task that failed
    was handed to [sendError] once.  So [runParallel] never returns
    its [parallel copy failed] error. *)
Theorem runParallel_copy_never_fails (items : list AutoCopyItem) (cli : AutoCopierOptions)
    (sourceDir destDir : string) (w0 : World) (sched : list Action) (s : State)
    (r : option error) :
  Run (runParallel_copier items cli) sourceDir destDir sched w0 = Some s ->
  returned s = Some r ->
  r = None /\
  tasks_processed (trace s)
  ≡ₚ flat_map (item_tasks (options (runParallel_copier items cli))
                 w0 sourceDir destDir) items /\
  map failure_of_task (tasks_failed (trace s))
  ≡ₚ map failure_of_error (errors_of_workers (trace s)).
Proof.
  intros Hrun Hret.
  set (pc := runParallel_copier items cli) in *.
  assert (Hcont : ContinueOnError (options pc) = true) by reflexivity.
  assert (Hmw : 0 < MaxWorkers (options pc)).
  { cbn. destruct (ac_MaxWorkers cli <=? 0) eqn:Hle; [reflexivity|].
    apply Z.leb_gt in Hle. exact Hle. }
  destruct (Run_structure _ _ _ _ _ _ Hrun) as (Hp & Hq & _).
  assert (Hnil : r = None).
  { destruct r as [e|]; [|reflexivity]. unfold returned in Hret.
    destruct (coordinator s) eqn:Hco; try discriminate. injection Hret as ->.
    destruct (q_error _ _ Hq _ Hco) as (_ & Hstop & _). congruence. }
  subst r. split; [reflexivity|].
  destruct (processed_once _ _ _ _ _ _ Hrun Hret) as (Hperm & Hleft).
  rewrite (Hleft Hcont Hmw), app_nil_r in Hperm.
  split; [symmetry; exact Hperm|].
  destruct (Run_invariants _ _ _ _ _ _ Hrun) as (_ & _ & _ & [Hfail _]).
  rewrite Hfail, (returned_workers_done _ _ failure_held _ _ Hp Hret eq_refl), app_nil_r.
  reflexivity.
Qed.

End Parallel.

(** ** Every run ends *)

Lemma workers_fuel_insert (ws : list WorkerPC) (i : nat) (w w' : WorkerPC) :
  ws !! i = Some w ->
  (workers_fuel (<[i := w']> ws) + worker_fuel w = workers_fuel ws + worker_fuel w')%nat.
Proof.
  unfold workers_fuel.
  revert i. induction ws as [|x ws IH]; intros i Hi; [discriminate|].
  destruct i as [|i]; cbn in Hi.
  - injection Hi as ->. cbn. lia.
  - specialize (IH i Hi).
    change (<[S i := w']> (x :: ws)) with (x :: <[i := w']> ws).
    cbn [foldr]. lia.
Qed.

Lemma workers_fuel_replicate (n : nat) : workers_fuel (replicate n WRange) = n.
Proof. induction n as [|n IH]; cbn; [reflexivity|]. unfold workers_fuel in IH. rewrite IH. reflexivity. Qed.

Lemma handler_fuel_le (h : HandlerPC) : (handler_fuel h <= 1)%nat.
Proof. destruct h; cbn; lia. Qed.

Lemma item_tasks_found `{Platform} (options : ParallelCopyOptions) (w : World)
    (sourceDir destDir : string) (item : AutoCopyItem) (r : res (list CopyTask)) :
  discoverItemTasks options w sourceDir destDir item = r ->
  item_tasks options w sourceDir destDir item
  = match r with
    | Ok tasks => tasks
    | Err _ => []
    end.
Proof. intros <-. reflexivity. Qed.

Section Termination.
Context `{Platform}.
Variable pc : ParallelCopier.
Variables sourceDir destDir : string.
Variable w0 : World.

Lemma fuel_step a s s' :
  phase_inv pc w0 s -> step pc sourceDir destDir a s = Some s' ->
  (fuel pc sourceDir destDir w0 s' < fuel pc sourceDir destDir w0 s)%nat.
Proof.
  intros Hinv Hs.
  pose proof Hinv as [Hbefore _ _ _ _ _ _ _ _ _].
  step_cases Hs.
  all: try match goal with
       | Hc : coordinator _ = CDiscover _ _ |- _ =>
           pose proof (before_start _ _ _ Hinv ltac:(rewrite Hc; exact I)) as Hidle;
           destruct (Hbefore Hidle) as (_ & Hworld & _); rewrite Hworld in *
       end.
  all: clear Hinv Hbefore.
  all: try match goal with
       | Hw : workers ?s0 !! ?i = Some ?w |- _ =>
           pose proof (fun w' => workers_fuel_insert _ _ _ w' Hw) as Hfuel
       end.
  all: unfold fuel; state_simpl.
  all: repeat match goal with
         | |- context [chan_full ?c] => destruct (chan_full c)
         | |- context [if ?b then _ else _] => destruct b
         end; state_simpl.
  all: try match goal with
       | Hw : workers ?s0 !! ?i = Some _ |- context [<[?i := ?w']> (workers ?s0)] =>
           specialize (Hfuel w')
       end.
  all: try match goal with
       | Hc : coordinator ?s0 = _ |- context [coordinator ?s0] => rewrite Hc
       end.
  all: try match goal with
       | Hc : producer ?s0 = _ |- context [producer ?s0] => rewrite Hc
       end.
  all: try match goal with
       | Hc : progressHandler ?s0 = _ |- context [progressHandler ?s0] => rewrite Hc
       end.
  all: try match goal with
       | Hc : errorHandler ?s0 = _ |- context [errorHandler ?s0] => rewrite Hc
       end.
  all: try match goal with
       | Hc : buf ?c = _ |- context [buf ?c] => rewrite Hc
       end.
  all: pose proof (handler_fuel_le (progressHandler s)) as Hph;
       pose proof (handler_fuel_le (errorHandler s)) as Heh.
  all: cbn [coordinator_fuel producer_fuel handler_fuel worker_fuel length flat_map] in *.
  all: unfold discovery_fuel; cbn [length flat_map].
  all: try match goal with
       | Hd : discoverItemTasks _ _ _ _ ?item = _ |- context [item_tasks _ _ _ _ ?item] =>
           rewrite (item_tasks_found _ _ _ _ _ _ Hd)
       end.
  all: rewrite ?length_app, ?workers_fuel_replicate; cbn [length].
  all: lia.
Qed.

Lemma exec_fuel (sched : list Action) (s s' : State) :
  phase_inv pc w0 s -> exec pc sourceDir destDir sched s = Some s' ->
  (length sched + fuel pc sourceDir destDir w0 s' <= fuel pc sourceDir destDir w0 s)%nat.
Proof.
  revert s. induction sched as [|a sched IH]; intros s Hinv Hexec; cbn in Hexec.
  - injection Hexec as <-. cbn. lia.
  - destruct (step pc sourceDir destDir a s) as [s1|] eqn:Hs; [|discriminate].
    pose proof (fuel_step _ _ _ Hinv Hs) as Hlt.
    pose proof (phase_inv_step _ _ _ _ _ _ _ Hinv Hs) as Hinv1.
    specialize (IH _ Hinv1 Hexec). cbn [length]. lia.
Qed.

(** X16: every run ends.  The goroutines of a run take, all together, no
    more steps than a bound fixed by the configuration and the file
    system [Run] starts on: nine, and one for each worker, two for each
    item and eight for each task of discovery.  So no schedule goes on
    for ever. *)
Theorem Run_ends (sched : list Action) (s : State) :
  Run pc sourceDir destDir sched w0 = Some s ->
  (length sched
   <= 9 + Z.to_nat (MaxWorkers (options pc)) + 2 * length (config_Items pc)
      + 8 * length (flat_map (item_tasks (options pc) w0 sourceDir destDir)
                      (config_Items pc)))%nat.
Proof.
  intros Hrun. unfold Run in Hrun.
  pose proof (exec_fuel _ _ _ (phase_inv_initial pc w0) Hrun) as Hle.
  unfold fuel at 2 in Hle. cbn in Hle. unfold discovery_fuel in Hle. cbn [length] in Hle.
  lia.
Qed.

End Termination.

(** ** Every run can be brought to its end *)

Lemma exec_app `{Platform} (pc : ParallelCopier) (sourceDir destDir : string)
    (sched more : list Action) (s : State) :
  exec pc sourceDir destDir (sched ++ more) s
  = match exec pc sourceDir destDir sched s with
    | Some s1 => exec pc sourceDir destDir more s1
    | None => None
    end.
Proof.
  revert s. induction sched as [|a sched IH]; intros s; cbn; [reflexivity|].
  destruct (step pc sourceDir destDir a s); [apply IH | reflexivity].
Qed.

Section Completion.
Context `{Platform}.
Variable pc : ParallelCopier.
Variables sourceDir destDir : string.
Variable w0 : World.

Lemma run_completes (n : nat) :
  0 < MaxWorkers (options pc) ->
  forall (sched : list Action) (s : State),
    (fuel pc sourceDir destDir w0 s <= n)%nat ->
    Run pc sourceDir destDir sched w0 = Some s ->
    exists (more : list Action) (s' : State),
      Run pc sourceDir destDir (sched ++ more) w0 = Some s' /\ returned s' <> None.
Proof.
  intros some_worker. induction n as [|n IH]; intros sched s Hfuel Hrun.
  all: destruct (returned s) as [r|] eqn:Hret;
    [exists [], s; rewrite app_nil_r, Hret; split; [exact Hrun | discriminate]|].
  all: destruct (enabled_step pc sourceDir destDir w0 sched s some_worker Hrun Hret)
    as (a & s1 & Hstep).
  all: destruct (Run_invariants _ _ _ _ _ _ Hrun) as (Hphase & _).
  all: pose proof (fuel_step _ _ _ _ _ _ _ Hphase Hstep) as Hlt.
  - lia.
  - assert (Hrun1 : Run pc sourceDir destDir (sched ++ [a]) w0 = Some s1).
    { unfold Run in *. rewrite exec_app, Hrun. cbn. rewrite Hstep. reflexivity. }
    assert (Hfuel1 : (fuel pc sourceDir destDir w0 s1 <= n)%nat) by lia.
    destruct (IH _ _ Hfuel1 Hrun1) as (more & s' & Hmore & Hdone).
    exists (a :: more), s'. rewrite <- app_assoc in Hmore. split; assumption.
Qed.

(** X17: [Run] can always return.  With at least one worker, whatever the
    goroutines of a run have done so far, they can go on until [Run] has
    returned: every schedule is the beginning of one under which [Run]
    returns. *)
Theorem Run_can_always_return (sched : list Action) (s : State) :
  0 < MaxWorkers (options pc) ->
  Run pc sourceDir destDir sched w0 = Some s ->
  exists (more : list Action) (s' : State),
    Run pc sourceDir destDir (sched ++ more) w0 = Some s' /\ returned s' <> None.
Proof.
  intros Hw Hrun. exact (run_completes _ Hw sched s (Nat.le_refl _) Hrun).
Qed.

End Completion.

(** An instance: the run of one file, from the state after discovery. *)
Lemma Run_can_always_return_witness :
  exists (more : list Action) (s' : State),
    Run (H := Sample.platform [] [])
      (MkParallelCopier [Sample.file_item "run.sh"] (Sample.reporting_options false))
      "/src" "/dst" ([ActCoordinator; ActCoordinator] ++ more) Sample.checkout = Some s' /\
    returned s' <> None.
Proof.
  destruct (Run (H := Sample.platform [] [])
              (MkParallelCopier [Sample.file_item "run.sh"] (Sample.reporting_options false))
              "/src" "/dst" [ActCoordinator; ActCoordinator] Sample.checkout)
    as [s|] eqn:Hrun.
  - exact (Run_can_always_return (H := Sample.platform [] [])
             (MkParallelCopier [Sample.file_item "run.sh"] (Sample.reporting_options false))
             "/src" "/dst" Sample.checkout
             [ActCoordinator; ActCoordinator] s ltac:(reflexivity) Hrun).
  - vm_compute in Hrun. discriminate.
Defined.

(** ** More runs on the sample checkout *)


(** An instance: the same copy with verification by [md5]. *)
Lemma copyFile_unsupported_checksum_witness :
  snd (copyFile (H := Sample.platform [] []) Scenario.md5_options
         "/src/run.sh" "/dst/run.sh" Scenario.second_run)
  = Some (ErrorString "unsupported checksum type: md5") /\
  files (fst (copyFile (H := Sample.platform [] []) Scenario.md5_options
                "/src/run.sh" "/dst/run.sh" Scenario.second_run)) !! "/dst/run.sh"
  = Some (FileNode 448 []).
Proof.
  apply (proj2 (copyFile_unsupported_checksum (H := Sample.platform [] [])
                  Scenario.md5_options "/src/run.sh" "/dst/run.sh" Scenario.second_run
                  eq_refl ltac:(discriminate))
           493 Sample.hello 448 [Byte.x6f; Byte.x6c; Byte.x64] 493);
    vm_compute; reflexivity.
Defined.

(** An instance: of three items the first two fail. *)
Lemma discoverTasks_continues_witness :
  exists d : Discovery,
    discoverTasks (H := Sample.platform [] []) Sample.continue_options Sample.checkout
      "/src" "/dst" 0 Scenario.mixed_items (make_chan 100) = Ok d /\
    d_tasks d
    = flat_map (item_tasks (H := Sample.platform [] []) Sample.continue_options
                  Sample.checkout "/src" "/dst") Scenario.mixed_items /\
    map failure_of_error (errors_sent (d_events d))
    = omap (item_failure (H := Sample.platform [] []) Sample.continue_options
              Sample.checkout "/src" "/dst") Scenario.mixed_items /\
    buf (d_errors d) = buf (make_chan 100) ++ errors_queued (d_events d) /\
    cap (d_errors d) = cap (make_chan (A := CopyError) 100).
Proof.
  apply (discoverTasks_continues (H := Sample.platform [] []) Sample.continue_options
           Sample.checkout "/src" "/dst" 0 Scenario.mixed_items (make_chan 100)).
  reflexivity.
Defined.

Lemma discoverTasks_stops_at_first_failure_witness :
  discoverTasks (H := Sample.platform [] []) Sample.default_options Sample.checkout
    "/src" "/dst" 0 Scenario.mixed_items (make_chan 100)
  = Err (WrapError "failed to stat /src/nonexistent.txt"
           (PathError "stat" "/src/nonexistent.txt" true)).
Proof.
  rewrite (discoverTasks_stops_at_first_failure (H := Sample.platform [] [])
             Sample.default_options Sample.checkout "/src" "/dst" 0 Scenario.mixed_items
             (make_chan 100) eq_refl).
  vm_compute. reflexivity.
Defined.

(** An instance: the glob [*] declared to match files. *)
Lemma discoverItemTasks_glob_continues_witness :
  discoverItemTasks (H := Sample.star_platform) Sample.continue_options Sample.checkout
    "/src" "/dst" (Sample.glob_file_item "*")
  = Ok [MkCopyTask "/src/notes.txt" "/dst/notes.txt" false 5].
Proof.
  rewrite (discoverItemTasks_glob_continues (H := Sample.star_platform)
             Sample.continue_options Sample.checkout "/src" "/dst"
             (Sample.glob_file_item "*") eq_refl eq_refl).
  vm_compute. reflexivity.
Defined.

(** An instance: the one item is missing and errors are not continued
    on. *)
Lemma Run_fails_only_in_discovery_witness :
  exists s : State,
    Run (H := Sample.platform [] [])
      (MkParallelCopier [Sample.file_item "nonexistent.txt"] Sample.default_options)
      "/src" "/dst" [ActCoordinator; ActCoordinator] Sample.checkout = Some s /\
    returned s
    = Some (Some (WrapError "failed to discover copy tasks"
                    (WrapError "failed to stat /src/nonexistent.txt"
                       (PathError "stat" "/src/nonexistent.txt" true)))) /\
    world s = Sample.checkout /\ workers s = [] /\ trace s = [].
Proof.
  eexists. split; [vm_compute; reflexivity|]. split; [reflexivity|].
  apply (Run_fails_only_in_discovery (H := Sample.platform [] [])
           (MkParallelCopier [Sample.file_item "nonexistent.txt"] Sample.default_options)
           "/src" "/dst" Sample.checkout [ActCoordinator; ActCoordinator] _
           (WrapError "failed to discover copy tasks"
              (WrapError "failed to stat /src/nonexistent.txt"
                 (PathError "stat" "/src/nonexistent.txt" true)))).
  - vm_compute. reflexivity.
  - reflexivity.
Defined.

(** An instance: one file, which cannot be copied; errors are continued
    on. *)
Lemma Run_processes_each_task_once_witness :
  exists s : State,
    Run (H := Sample.platform [] [])
      (MkParallelCopier [Sample.file_item "run.sh"] (Sample.reporting_options true))
      "/src" "/dst"
      (Sample.single_task_schedule 5 [0%nat]
         [ActProgressHandler; ActProgressHandler; ActProgressHandler;
          ActErrorHandler; ActErrorHandler])
      Sample.readonly_dest = Some s /\
    flat_map (item_tasks (H := Sample.platform [] []) (Sample.reporting_options true)
                Sample.readonly_dest "/src" "/dst") [Sample.file_item "run.sh"]
    ≡ₚ tasks_processed (trace s) ++ unsent (producer s) ++ buf (taskQueue s) /\
    unsent (producer s) ++ buf (taskQueue s) = [].
Proof.
  eexists. split; [vm_compute; reflexivity|].
  destruct (Run_processes_each_task_once (H := Sample.platform [] [])
              (MkParallelCopier [Sample.file_item "run.sh"] (Sample.reporting_options true))
              "/src" "/dst" Sample.readonly_dest
              (Sample.single_task_schedule 5 [0%nat]
                 [ActProgressHandler; ActProgressHandler; ActProgressHandler;
                  ActErrorHandler; ActErrorHandler])
              _ ltac:(vm_compute; reflexivity) eq_refl) as (Hperm & Hleft).
  split; [exact Hperm|]. apply Hleft; reflexivity.
Defined.

(** An instance: the workers have been started and wait for a task. *)
Lemma Run_never_deadlocks_witness :
  exists s : State,
    Run (H := Sample.platform [] [])
      (MkParallelCopier [Sample.file_item "run.sh"] Sample.default_options)
      "/src" "/dst" (Sample.to_the_workers 1) Sample.checkout = Some s /\
    returned s = None /\
    exists (a : Action) (s' : State),
      step (H := Sample.platform [] [])
        (MkParallelCopier [Sample.file_item "run.sh"] Sample.default_options)
        "/src" "/dst" a s = Some s'.
Proof.
  eexists. split; [vm_compute; reflexivity|]. split; [reflexivity|].
  apply (Run_never_deadlocks (H := Sample.platform [] [])
           (MkParallelCopier [Sample.file_item "run.sh"] Sample.default_options)
           "/src" "/dst" Sample.checkout (Sample.to_the_workers 1)).
  - reflexivity.
  - vm_compute. reflexivity.
  - reflexivity.
Defined.

(** An instance: one file, copied. *)
Lemma Run_changes_only_destinations_witness :
  exists s : State,
    Run (H := Sample.platform [] [])
      (MkParallelCopier [Sample.file_item "run.sh"] (Sample.reporting_options false))
      "/src" "/dst"
      (Sample.single_task_schedule 4 [0%nat]
         [ActProgressHandler; ActProgressHandler; ActProgressHandler; ActErrorHandler])
      Sample.checkout = Some s /\
    tasks_processed (trace s) = [MkCopyTask "/src/run.sh" "/dst/run.sh" false 5] /\
    changes_only
      (flat_map (task_paths (H := Sample.platform [] [])) (tasks_processed (trace s)))
      Sample.checkout (world s).
Proof.
  eexists. split; [vm_compute; reflexivity|]. split; [reflexivity|].
  apply (Run_changes_only_destinations (H := Sample.platform [] [])
           (MkParallelCopier [Sample.file_item "run.sh"] (Sample.reporting_options false))
           "/src" "/dst" Sample.checkout
           (Sample.single_task_schedule 4 [0%nat]
              [ActProgressHandler; ActProgressHandler; ActProgressHandler;
               ActErrorHandler])).
  vm_compute. reflexivity.
Defined.

(** ** The worktree of the sample checkout *)

(** An instance: [.env] is added to the [.gitignore] of one line. *)
Lemma legacy_UpdateGitignore_idempotent_witness :
  (exists (m : Z) (d : list byte),
     files (fst (legacy_UpdateGitignore (H := Sample.platform [] []) "/dst" [".env"]
                   Worktree.ignoring)) !! "/dst/.gitignore" = Some (FileNode m d) /\
     has_substring (String.string_of_list_byte d) gitignore_marker /\
     forall m0 d0,
       files Worktree.ignoring !! "/dst/.gitignore" = Some (FileNode m0 d0) ->
       m = m0 /\ exists added, d = d0 ++ added) /\
  legacy_UpdateGitignore (H := Sample.platform [] []) "/dst" ["notes.txt"]
    (fst (legacy_UpdateGitignore (H := Sample.platform [] []) "/dst" [".env"]
            Worktree.ignoring))
  = (fst (legacy_UpdateGitignore (H := Sample.platform [] []) "/dst" [".env"]
            Worktree.ignoring), None).
Proof.
  destruct (legacy_UpdateGitignore_idempotent (H := Sample.platform [] []) "/dst"
              [".env"] ["notes.txt"] Worktree.ignoring
              (fst (legacy_UpdateGitignore (H := Sample.platform [] []) "/dst" [".env"]
                      Worktree.ignoring))
              ltac:(discriminate) eq_refl eq_refl ltac:(vm_compute; reflexivity))
    as (Hfile & _ & Hagain).
  split; [exact Hfile | exact Hagain].
Defined.

(** An instance: the same update by [AutoCopier], twice. *)
Lemma UpdateGitignore_appends_again_witness :
  exists (m : Z) (content : string),
    files (fst (UpdateGitignore (H := Sample.platform [] []) "/dst" [".env"]
                  Worktree.ignoring)) !! "/dst/.gitignore"
    = Some (FileNode m (String.list_byte_of_string content)) /\
    has_substring content gitignore_marker /\
    snd (UpdateGitignore (H := Sample.platform [] []) "/dst" [".env"]
           (fst (UpdateGitignore (H := Sample.platform [] []) "/dst" [".env"]
                   Worktree.ignoring))) = None /\
    files (fst (UpdateGitignore (H := Sample.platform [] []) "/dst" [".env"]
                  (fst (UpdateGitignore (H := Sample.platform [] []) "/dst" [".env"]
                          Worktree.ignoring)))) !! "/dst/.gitignore"
    = Some (FileNode m
              (String.list_byte_of_string
                 (gitignore_lines [".env"] (content +:+ (LF +:+ gitignore_marker +:+ LF))))).
Proof.
  apply (UpdateGitignore_appends_again (H := Sample.platform [] []) "/dst"
           [".env"] [".env"] Worktree.ignoring).
  - discriminate.
  - discriminate.
  - reflexivity.
  - reflexivity.
  - reflexivity.
  - vm_compute. reflexivity.
Defined.


(** An instance: the parallel run of [hch] on one file that cannot be
    copied. *)
Lemma runParallel_copy_never_fails_witness :
  exists (s : State) (r : option error),
    Run (H := Sample.platform [] [])
      (runParallel_copier [Sample.file_item "run.sh"] Worktree.parallel_cli)
      "/src" "/dst"
      (Sample.single_task_schedule 5 [0%nat]
         [ActProgressHandler; ActProgressHandler; ActProgressHandler;
          ActErrorHandler; ActErrorHandler])
      Sample.readonly_dest = Some s /\
    returned s = Some r /\ tasks_failed (trace s) <> [] /\
    r = None /\
    tasks_processed (trace s)
    ≡ₚ flat_map (item_tasks (H := Sample.platform [] [])
                   (options (runParallel_copier [Sample.file_item "run.sh"]
                               Worktree.parallel_cli))
                   Sample.readonly_dest "/src" "/dst") [Sample.file_item "run.sh"] /\
    map failure_of_task (tasks_failed (trace s))
    ≡ₚ map failure_of_error (errors_of_workers (trace s)).
Proof.
  eexists. exists None. split; [vm_compute; reflexivity|]. split; [reflexivity|].
  split; [discriminate|].
  apply (runParallel_copy_never_fails (H := Sample.platform [] [])
           [Sample.file_item "run.sh"] Worktree.parallel_cli "/src" "/dst"
           Sample.readonly_dest
           (Sample.single_task_schedule 5 [0%nat]
              [ActProgressHandler; ActProgressHandler; ActProgressHandler;
               ActErrorHandler; ActErrorHandler])).
  - vm_compute. reflexivity.
  - reflexivity.
Defined.

(** An instance: the run of one file to its end takes 16 steps of the
    20 the bound allows. *)
Lemma Run_ends_witness :
  (length (Sample.single_task_schedule 4 [0%nat]
             [ActProgressHandler; ActProgressHandler; ActProgressHandler;
              ActErrorHandler]) = 16)%nat /\
  (length (Sample.single_task_schedule 4 [0%nat]
             [ActProgressHandler; ActProgressHandler; ActProgressHandler;
              ActErrorHandler])
   <= 9 + Z.to_nat (MaxWorkers (Sample.reporting_options false))
      + 2 * length [Sample.file_item "run.sh"]
      + 8 * length (flat_map (item_tasks (H := Sample.platform [] [])
                                (Sample.reporting_options false) Sample.checkout
                                "/src" "/dst") [Sample.file_item "run.sh"]))%nat.
Proof.
  split; [reflexivity|].
  destruct (Run (H := Sample.platform [] [])
              (MkParallelCopier [Sample.file_item "run.sh"] (Sample.reporting_options false))
              "/src" "/dst"
              (Sample.single_task_schedule 4 [0%nat]
                 [ActProgressHandler; ActProgressHandler; ActProgressHandler;
                  ActErrorHandler])
              Sample.checkout) as [s|] eqn:Hrun.
  - exact (Run_ends (H := Sample.platform [] [])
             (MkParallelCopier [Sample.file_item "run.sh"] (Sample.reporting_options false))
             "/src" "/dst" Sample.checkout _ s Hrun).
  - vm_compute in Hrun. discriminate.
Defined.
